(** * JSON Pointer (RFC 6901): a model of package [jsonpointer]

    The development embeds [pointer.go] and [error.go].  Go strings are
    byte sequences and are modelled by [string] (a list of 8-bit
    characters); [int], [int64] and [uint64] are modelled by [Z] with the
    wrap-around written out; a function that can panic returns in [exec].

    The Go standard library functions the package calls ([strings],
    [strconv], [reflect]) are modelled in modules of the same name.  What
    the package takes from [net/url] and from the formatting and parsing
    of floating-point numbers is a parameter of the development (class
    [Platform]). *)

From Stdlib Require Import String Ascii List ZArith Lia Bool.
From Stdlib Require Import PrimFloat FloatOps SpecFloat.
From Stdlib Require Import DecimalString.
Import ListNotations.

Set Warnings "-register-all".
Set Default Proof Using "Type".

Local Open Scope string_scope.
Local Open Scope list_scope.

(* ================================================================= *)
(** ** Panics *)

(** A Go call either returns or panics. *)
Inductive exec (A : Type) : Type :=
| Return (a : A)
| Panic (reason : string).

Arguments Return {A} a.
Arguments Panic {A} reason.

Definition bind {A B : Type} (m : exec A) (k : A -> exec B) : exec B :=
  match m with
  | Return a => k a
  | Panic r => Panic r
  end.

Declare Scope exec_scope.
Delimit Scope exec_scope with exec.
Notation "x <- m ;; k" := (bind m (fun x => k))
  (at level 61, m at next level, right associativity) : exec_scope.
Notation "' pat <- m ;; k" := (bind m (fun x => match x with pat => k end))
  (at level 61, pat pattern, m at next level, right associativity) : exec_scope.
Local Open Scope exec_scope.

(* ================================================================= *)
(** ** Package [strings] *)

Module strings.

(** [strings.HasPrefix(s, prefix)]. *)
Fixpoint HasPrefix (s prefix : string) {struct prefix} : bool :=
  match prefix with
  | EmptyString => true
  | String c prefix' =>
      match s with
      | EmptyString => false
      | String d s' => Ascii.eqb d c && HasPrefix s' prefix'
      end
  end.

(** The scan behind [strings.Replace] for a non-empty [old]: matches
    are found left to right and do not overlap.  [skip] counts the
    bytes of the current match that are still to be passed over;
    [limit] is the number of replacements left ([None]: no limit). *)
Fixpoint replaceFrom (old new : string) (limit : option nat) (skip : nat)
         (s : string) : string :=
  match s with
  | EmptyString => EmptyString
  | String c s' =>
      match skip with
      | S k => replaceFrom old new limit k s'
      | O =>
          match limit with
          | Some O => s
          | _ =>
              if HasPrefix s old
              then new ++ replaceFrom old new (option_map Nat.pred limit)
                                      (String.length old - 1) s'
              else String c (replaceFrom old new limit 0 s')
          end
      end
  end.

(** [strings.Replace(s, old, new, n)]: the first [n] non-overlapping
    instances of [old] replaced by [new], all of them when [n < 0].
    The package only calls it with a non-empty [old]; for an empty
    [old] Go inserts [new] around every UTF-8 sequence, which is not
    modelled ([s] is returned). *)
Definition Replace (s old new : string) (n : Z) : string :=
  if (String.eqb old new || (n =? 0)%Z)%bool then s
  else match old with
       | EmptyString => s
       | String _ _ =>
           replaceFrom old new
             (if (n <? 0)%Z then None else Some (Z.to_nat n)) 0 s
       end.

(** The scan behind [strings.Split] for a non-empty separator: the
    piece that is being read, and the pieces after it. *)
Fixpoint splitFrom (sep : string) (skip : nat) (s : string)
  : string * list string :=
  match s with
  | EmptyString => (EmptyString, [])
  | String c s' =>
      match skip with
      | S k => splitFrom sep k s'
      | O =>
          if HasPrefix s sep
          then let '(piece, rest) :=
                 splitFrom sep (String.length sep - 1) s' in
               (EmptyString, piece :: rest)
          else let '(piece, rest) := splitFrom sep 0 s' in
               (String c piece, rest)
      end
  end.

(** [strings.Split(s, sep)] for a non-empty [sep]: the substrings
    between the separators, [[s]] when [sep] does not occur (also for
    the empty [s]).  The empty separator (Go explodes [s] into UTF-8
    sequences) is not modelled. *)
Definition Split (s sep : string) : list string :=
  match sep with
  | EmptyString => [s]
  | String _ _ => let '(piece, rest) := splitFrom sep 0 s in piece :: rest
  end.

(** [strings.Join(elems, sep)]. *)
Fixpoint Join (elems : list string) (sep : string) : string :=
  match elems with
  | [] => EmptyString
  | [e] => e
  | e :: rest => e ++ sep ++ Join rest sep
  end.

(** [strings.Index(s, substr)] from position [i]: the index of the
    first instance of [substr], [-1] if there is none. *)
Fixpoint indexFrom (i : Z) (s substr : string) : Z :=
  if HasPrefix s substr then i
  else match s with
       | EmptyString => (-1)%Z
       | String _ s' => indexFrom (i + 1) s' substr
       end.

Definition Index (s substr : string) : Z := indexFrom 0 s substr.

End strings.

(* ================================================================= *)
(** ** Package [strconv] *)

Module strconv.

(** The size of [int] and [uint]. *)
Definition IntSize : Z := 64.

(** Why a parse fails: [ErrSyntax] or [ErrRange]. *)
Inductive NumError := ErrSyntax | ErrRange.

Definition digit (c : ascii) : option Z :=
  let n := Z.of_N (N_of_ascii c) in
  if ((48 <=? n) && (n <=? 57))%Z%bool then Some (n - 48)%Z else None.

(** The digit loop of [ParseUint] in base 10: a byte that is not a
    digit is a syntax error, a value above [maxVal] a range error,
    whichever comes first. *)
Fixpoint digits (maxVal acc : Z) (s : string) : Z + NumError :=
  match s with
  | EmptyString => inl acc
  | String c s' =>
      match digit c with
      | None => inr ErrSyntax
      | Some d =>
          let n := (acc * 10 + d)%Z in
          if (maxVal <? n)%Z then inr ErrRange else digits maxVal n s'
      end
  end.

(** [strconv.ParseUint(s, 10, bitSize)]: digits only, no sign, no
    underscore. *)
Definition ParseUint (s : string) (bitSize : Z) : Z + NumError :=
  match s with
  | EmptyString => inr ErrSyntax
  | String _ _ =>
      let bitSize := if (bitSize =? 0)%Z then IntSize else bitSize in
      digits (2 ^ bitSize - 1) 0 s
  end.

(** [strconv.ParseInt(s, 10, bitSize)]: an optional sign, then
    [ParseUint] and the range check against the cutoff
    [2^(bitSize-1)]. *)
Definition ParseInt (s : string) (bitSize : Z) : Z + NumError :=
  match s with
  | EmptyString => inr ErrSyntax
  | String c s' =>
      let neg := Ascii.eqb c "-" in
      let body := if (Ascii.eqb c "+" || neg)%bool then s' else s in
      let bitSize := if (bitSize =? 0)%Z then IntSize else bitSize in
      let cutoff := (2 ^ (bitSize - 1))%Z in
      match ParseUint body bitSize with
      | inr ErrSyntax => inr ErrSyntax
      | inr ErrRange => inr ErrRange
      | inl un =>
          if (negb neg && (cutoff <=? un)%Z)%bool then inr ErrRange
          else if (neg && (cutoff <? un)%Z)%bool then inr ErrRange
          else inl (if neg then (- un)%Z else un)
      end
  end.

(** [strconv.Atoi(s)]: [ParseInt(s, 10, 0)]; its fast path for short
    inputs accepts the same strings with the same values. *)
Definition Atoi (s : string) : Z + NumError := ParseInt s 0.

(** [strconv.FormatInt(i, 10)]. *)
Definition FormatInt (i : Z) : string :=
  NilZero.string_of_int (Z.to_int i).

(** [strconv.FormatUint(i, 10)]. *)
Definition FormatUint (i : Z) : string :=
  NilZero.string_of_uint (N.to_uint (Z.to_N i)).

(** [strconv.ParseBool(str)]. *)
Definition ParseBool (str : string) : option bool :=
  if existsb (String.eqb str) ["1"; "t"; "T"; "TRUE"; "true"; "True"]
  then Some true
  else if existsb (String.eqb str) ["0"; "f"; "F"; "FALSE"; "false"; "False"]
  then Some false
  else None.

End strconv.

(* ================================================================= *)
(** ** error.go *)

(** [ErrType] represents the type of error. *)
Inductive ErrType := ErrUnknown | ErrInvalidJSONPointer | ErrGet | ErrSet.

Definition ErrType_String (t : ErrType) : string :=
  match t with
  | ErrInvalidJSONPointer => "invalid pointer"
  | ErrGet => "get"
  | ErrSet => "set"
  | ErrUnknown => "unknown"
  end.

(** Go's [error] values as the package produces them: the package's own
    [*Error] (fields [msg], [cause], [errType]; a nil [cause] is [None]),
    and the plain errors of [errors.New] and of [fmt.Errorf] without
    [%w], which have no [Unwrap] method. *)
Inductive error :=
| Error (msg : string) (cause : option error) (errType : ErrType)
| errorString (s : string).

Definition newError (errType : ErrType) (msg : string) : error :=
  Error msg None errType.

Definition wrapError (err : error) (errType : ErrType) (msg : string) : error :=
  Error msg (Some err) errType.

(** The [Error() string] method of either kind of error. *)
Definition Error_Error (e : error) : string :=
  match e with
  | Error msg _ errType => ErrType_String errType ++ ": " ++ msg
  | errorString s => s
  end.

(** Whether the dynamic type of the error has an [Unwrap] method. *)
Definition has_Unwrap (e : error) : bool :=
  match e with
  | Error _ _ _ => true
  | errorString _ => false
  end.

(** The [Unwrap] method of [Error]; [errors.Unwrap] gives nil for an error without
    the method. *)
Definition Unwrap (e : error) : option error :=
  match e with
  | Error _ cause _ => cause
  | errorString _ => None
  end.

(** The [errType] field, for the package's own errors. *)
Definition errTypeOf (e : error) : option ErrType :=
  match e with
  | Error _ _ t => Some t
  | errorString _ => None
  end.

(* ================================================================= *)
(** ** What the package takes from other libraries *)

(** [url.URL]; the package reads no other field. *)
Record URL := { Fragment : string }.

(** Floating-point numbers are binary64 values.  The conversion
    [float64(i)] of an integer rounds to nearest, ties to even. *)
Definition float64_of_int (i : Z) : float :=
  SF2Prim (binary_normalize 53 1024 i 0 false).

(** The conversion [float32(f)], as the binary64 value of the result:
    [f] rounded to 24 bits of precision in the range of binary32. *)
Definition float32_of_float (f : float) : float :=
  match Prim2SF f with
  | S754_finite s m e =>
      SF2Prim (binary_normalize 24 128 (if s then Z.neg m else Z.pos m) e s)
  | _ => f
  end.

(** A finite float without its fractional part; [None] for an infinity
    or a NaN. *)
Definition truncate (f : float) : option Z :=
  match Prim2SF f with
  | S754_zero _ => Some 0%Z
  | S754_finite s m e =>
      let v := if (0 <=? e)%Z then (Z.pos m * 2 ^ e)%Z
               else Z.shiftr (Z.pos m) (- e) in
      Some (if s then (- v)%Z else v)
  | _ => None
  end.

(** The library functions that are not modelled.  [url_Parse] is
    [url.Parse]: the parsed URL, or the [Err] field of the [*url.Error]
    it returns.  The conversions of a float to an integer depend on the
    implementation when the value is out of range. *)
Class Platform := {
  url_Parse : string -> URL + error;
  (** [strconv.FormatFloat(f, 'f', -1, 64)] *)
  FormatFloat : float -> string;
  (** [strconv.FormatComplex(c, 'f', -1, 128)] *)
  FormatComplex : float -> float -> string;
  (** [strconv.ParseFloat(s, 64)], [None] when it returns an error *)
  ParseFloat : string -> option float;
  (** [strconv.ParseComplex(s, 128)], [None] when it returns an error *)
  ParseComplex : string -> option (float * float);
  (** the conversions [int64(f)] and [uint64(f)] *)
  int64_of_float : float -> Z;
  uint64_of_float : float -> Z
}.

(** A platform to run the model on examples.  Its [url_Parse] reads a
    string that starts with [#] as a URL with that fragment (as
    [url.Parse] does when the fragment has no percent escape) and
    rejects every other string; it truncates a float in the range of
    the integer type, and it neither formats nor parses floats.  The
    properties below hold for every platform. *)
Definition examplePlatform : Platform := {|
  url_Parse := fun s =>
    match s with
    | String "#" frag => inl {| Fragment := frag |}
    | _ => inr (errorString "missing protocol scheme")
    end;
  FormatFloat := fun _ => EmptyString;
  FormatComplex := fun _ _ => EmptyString;
  ParseFloat := fun _ => None;
  ParseComplex := fun _ => None;
  int64_of_float := fun f =>
    match truncate f with
    | Some v => if ((- 2 ^ 63 <=? v) && (v <? 2 ^ 63))%Z%bool then v
                else (- 2 ^ 63)%Z
    | None => (- 2 ^ 63)%Z
    end;
  uint64_of_float := fun f =>
    match truncate f with
    | Some v => if ((0 <=? v) && (v <? 2 ^ 64))%Z%bool then v else (2 ^ 63)%Z
    | None => (2 ^ 63)%Z
    end
|}.

(* ================================================================= *)
(** ** pointer.go: pointer syntax *)

(** [Pointer] represents a parsed JSON pointer: [type Pointer []string].
    Here a pointer is the sequence of its tokens; a nil slice and an
    empty one are both [[]].  The backing arrays are modelled in module
    [Mem] below. *)
Definition Pointer := list string.

(** The values [New], [Join] and [RelativeTo] switch on, by dynamic
    type: a [Pointer], a [string], a [*url.URL] ([None] is the nil
    pointer), or a value of another type, with the name [%T] prints. *)
Inductive arg :=
| APointer (v : Pointer)
| AString (v : string)
| AURL (v : option URL)
| AOther (typeName : string).

Definition separator : string := "/".
Definition escapedSeparator : string := "~1".
Definition tilde : string := "~".
Definition escapedTilde : string := "~0".

Definition unescapeToken (tok : string) : string :=
  let tok := strings.Replace tok escapedSeparator separator (-1) in
  strings.Replace tok escapedTilde tilde (-1).

Definition escapeToken (tok : string) : string :=
  let tok := strings.Replace tok tilde escapedTilde (-1) in
  strings.Replace tok separator escapedSeparator (-1).

(** [make([]string, n)]. *)
Definition make (n : nat) : list string := repeat EmptyString n.

(** [copy(dst, src)]: the contents of [dst] afterwards. *)
Definition copy (dst src : list string) : list string :=
  let n := Nat.min (length dst) (length src) in
  firstn n src ++ skipn n dst.

(** The slice expression [s[low:]]; it panics out of range. *)
Definition sliceFrom (s : list string) (low : nat) : exec (list string) :=
  if (length s <? low)%nat then Panic "slice bounds out of range"
  else Return (skipn low s).

(** The index expression [s[i]]. *)
Definition index (s : list string) (i : nat) : exec string :=
  match nth_error s i with
  | Some x => Return x
  | None => Panic "index out of range"
  end.

Definition parse (str : string) : Pointer * option error :=
  match str with
  | EmptyString => ([], None)
  | String c str' =>
      if negb (Ascii.eqb c "/")
      then ([], Some (newError ErrInvalidJSONPointer
                        "non-empty references must begin with a '/' character"))
      else
        let toks := strings.Split str' separator in
        (map unescapeToken toks, None)
  end.

(** [String] returns a string representation of the pointer. *)
Definition Pointer_String (p : Pointer) : string :=
  if (length p =? 0)%nat then EmptyString
  else
    let escapedTokens := map escapeToken p in
    "/" ++ strings.Join escapedTokens "/".

(** [IsEmpty] indicates whether the pointer is empty. *)
Definition IsEmpty (p : Pointer) : bool := (length p =? 0)%nat.

(** [Parent] returns the parent reference of the pointer.  The copy
    goes into [newPtr[:len(p)-1]], which shares its array with
    [newPtr]: the last element of [newPtr] is left as [make] set it. *)
Definition Parent (p : Pointer) : Pointer :=
  if IsEmpty p then []
  else
    let newPtr := make (length p) in
    let n := length p - 1 in
    copy (firstn n newPtr) p ++ skipn n newPtr.

Section Syntax.

Context {platform : Platform}.

(** [New] creates a new JSON pointer from string, [*url.URL] or another
    [Pointer]. *)
Definition New (val : arg) : exec (Pointer * option error) :=
  match val with
  | APointer v =>
      let newPtr := make (length v) in
      Return (copy newPtr v, None)
  | AString v =>
      match v with
      | EmptyString => Return ([], None)
      | String c _ =>
          if String.eqb v "#" then Return ([], None)
          else if Ascii.eqb c "/" then Return (parse v)
          else
            match url_Parse v with
            | inr uerr_Err =>
                Return ([], Some (wrapError uerr_Err ErrInvalidJSONPointer
                                    ("failed to parse URL: "
                                       ++ Error_Error uerr_Err)))
            | inl u => Return (parse (Fragment u))
            end
      end
  | AURL None => Panic "invalid memory address or nil pointer dereference"
  | AURL (Some v) => Return (parse (Fragment v))
  | AOther typeName =>
      Return ([], Some (newError ErrInvalidJSONPointer
                          ("invalid value for pointer: " ++ typeName)))
  end.

(** The loop of [Join] over [elems]. *)
Fixpoint Join_loop (newPtr : Pointer) (elems : list arg)
  : exec (Pointer * option error) :=
  match elems with
  | [] => Return (newPtr, None)
  | elm :: elems' =>
      match elm with
      | APointer e => Join_loop (newPtr ++ e) elems'
      | AString _ | AURL _ =>
          '(elmPtr, err) <- New elm ;;
          match err with
          | Some e => Return ([], Some e)
          | None => Join_loop (newPtr ++ elmPtr) elems'
          end
      | AOther typeName =>
          Return ([], Some (errorString
                              ("invalid value for pointer: " ++ typeName)))
      end
  end.

(** [Join] joins a pointer with a string. *)
Definition Join (p : Pointer) (elems : list arg)
  : exec (Pointer * option error) :=
  let newPtr := make (length p) in
  let newPtr := copy newPtr p in
  Join_loop newPtr elems.

(** The [range] loop of [RelativeTo] over [otherPtr], from index [i]:
    [None] when it returns on a mismatch, else the last value of
    [numCmnParts]. *)
Fixpoint RelativeTo_loop (p : Pointer) (i : nat) (parts : list string)
         (numCmnParts : nat) : exec (option nat) :=
  match parts with
  | [] => Return (Some numCmnParts)
  | part :: parts' =>
      p_i <- index p i ;;
      if negb (String.eqb p_i part) then Return None
      else RelativeTo_loop p (S i) parts' i
  end.

(** [fmt.Errorf("%s does not start with %s", p, otherPtr)]. *)
Definition doesNotStartWith (p otherPtr : Pointer) : error :=
  errorString (Pointer_String p ++ " does not start with "
                 ++ Pointer_String otherPtr).

(** [RelativeTo] from the length check on. *)
Definition RelativeTo_from (p otherPtr : Pointer)
  : exec (Pointer * option error) :=
  if (length p <? length otherPtr)%nat
  then Return ([], Some (doesNotStartWith p otherPtr))
  else
    r <- RelativeTo_loop p 0 otherPtr 0 ;;
    match r with
    | None => Return (p, Some (doesNotStartWith p otherPtr))
    | Some numCmnParts =>
        cmnParts <- sliceFrom p (numCmnParts + 1) ;;
        let newPtr := make (length cmnParts) in
        Return (copy newPtr cmnParts, None)
    end.

(** [RelativeTo] returns a pointer that is relative to the given
    pointer. *)
Definition RelativeTo (p : Pointer) (other : arg)
  : exec (Pointer * option error) :=
  match other with
  | APointer o => RelativeTo_from p o
  | AString _ | AURL _ =>
      '(otherPtr, err) <- New other ;;
      match err with
      | Some e => Return ([], Some e)
      | None => RelativeTo_from p otherPtr
      end
  | AOther typeName =>
      Return ([], Some (errorString
                          ("invalid value for pointer: " ++ typeName)))
  end.

End Syntax.

(* ================================================================= *)
(** ** Package [reflect] *)

(** Documents are Go values seen through [reflect].  A value carries
    what [reflect] reads from its type: its kind, the name of its type,
    the declarations of its fields.  Pointers are modelled by the tree
    of what they point to, so two pointers never share a target.
    Embedded struct fields are not promoted by [FieldByName] here, and
    struct types are compared by name. *)
Module reflect.

Inductive IntKind := KInt | KInt8 | KInt16 | KInt32 | KInt64.
Inductive UintKind := KUint | KUint8 | KUint16 | KUint32 | KUint64.
Inductive FloatKind := KFloat32 | KFloat64.
Inductive ComplexKind := KComplex64 | KComplex128.
Inductive OtherKind := KUintptr | KChan | KFunc | KUnsafePointer.

(** [reflect.Type], as far as the package reads it. *)
Inductive rtype :=
| TBool
| TInt (k : IntKind)
| TUint (k : UintKind)
| TFloat (k : FloatKind)
| TComplex (k : ComplexKind)
| TString
| TArray (len : nat) (elem : rtype)
| TSlice (elem : rtype)
| TMap (key elem : rtype)
| TPointer (elem : rtype)
| TStruct (name : string)
| TInterface (name : string) (numMethod : nat)
| TOther (k : OtherKind) (name : string).

(** [reflect.StructField]: the name, the package path (empty for an
    exported field) and the value of [Tag.Get("json")]. *)
Record StructField := {
  Name : string;
  PkgPath : string;
  Tag_json : string
}.

(** A Go value.  An element whose static type is an interface is a
    [GInterface] around its dynamic value ([None]: nil); a map is the
    list of its entries with a string key, the first one for a key
    being the entry. *)
Inductive value :=
| GBool (b : bool)
| GInt (k : IntKind) (n : Z)
| GUint (k : UintKind) (n : Z)
| GFloat (k : FloatKind) (f : float)
| GComplex (k : ComplexKind) (re im : float)
| GString (s : string)
| GArray (elem : rtype) (elems : list value)
| GSlice (elem : rtype) (elems : list value)
| GMap (key elem : rtype) (entries : list (string * value))
| GStruct (name : string) (fields : list (StructField * value))
| GPointer (elem : rtype) (target : option value)
| GInterface (name : string) (numMethod : nat) (dyn : option value)
| GOther (k : OtherKind) (name : string).

Inductive Kind :=
| Invalid | Bool
| Int | Int8 | Int16 | Int32 | Int64
| Uint | Uint8 | Uint16 | Uint32 | Uint64 | Uintptr
| Float32 | Float64 | Complex64 | Complex128
| Array | Chan | Func | Interface | Map | Ptr | Slice
| String | Struct | UnsafePointer.

(** [Kind.String]. *)
Definition Kind_String (k : Kind) : string :=
  match k with
  | Invalid => "invalid" | Bool => "bool"
  | Int => "int" | Int8 => "int8" | Int16 => "int16"
  | Int32 => "int32" | Int64 => "int64"
  | Uint => "uint" | Uint8 => "uint8" | Uint16 => "uint16"
  | Uint32 => "uint32" | Uint64 => "uint64" | Uintptr => "uintptr"
  | Float32 => "float32" | Float64 => "float64"
  | Complex64 => "complex64" | Complex128 => "complex128"
  | Array => "array" | Chan => "chan" | Func => "func"
  | Interface => "interface" | Map => "map" | Ptr => "ptr"
  | Slice => "slice" | String => "string" | Struct => "struct"
  | UnsafePointer => "unsafe.Pointer"
  end.

Definition kindOfInt (k : IntKind) : Kind :=
  match k with
  | KInt => Int | KInt8 => Int8 | KInt16 => Int16
  | KInt32 => Int32 | KInt64 => Int64
  end.

Definition kindOfUint (k : UintKind) : Kind :=
  match k with
  | KUint => Uint | KUint8 => Uint8 | KUint16 => Uint16
  | KUint32 => Uint32 | KUint64 => Uint64
  end.

Definition kindOfFloat (k : FloatKind) : Kind :=
  match k with KFloat32 => Float32 | KFloat64 => Float64 end.

Definition kindOfComplex (k : ComplexKind) : Kind :=
  match k with KComplex64 => Complex64 | KComplex128 => Complex128 end.

Definition kindOfOther (k : OtherKind) : Kind :=
  match k with
  | KUintptr => Uintptr | KChan => Chan | KFunc => Func
  | KUnsafePointer => UnsafePointer
  end.

Definition intBits (k : IntKind) : Z :=
  match k with
  | KInt => strconv.IntSize | KInt8 => 8 | KInt16 => 16
  | KInt32 => 32 | KInt64 => 64
  end.

Definition uintBits (k : UintKind) : Z :=
  match k with
  | KUint => strconv.IntSize | KUint8 => 8 | KUint16 => 16
  | KUint32 => 32 | KUint64 => 64
  end.

(** The conversion of an integer to a signed type of [bits] bits. *)
Definition wrapInt (bits : Z) (x : Z) : Z :=
  ((x + 2 ^ (bits - 1)) mod 2 ^ bits - 2 ^ (bits - 1))%Z.

(** The conversion of an integer to an unsigned type of [bits] bits. *)
Definition wrapUint (bits : Z) (x : Z) : Z := (x mod 2 ^ bits)%Z.

Definition kindOf (d : value) : Kind :=
  match d with
  | GBool _ => Bool
  | GInt k _ => kindOfInt k
  | GUint k _ => kindOfUint k
  | GFloat k _ => kindOfFloat k
  | GComplex k _ _ => kindOfComplex k
  | GString _ => String
  | GArray _ _ => Array
  | GSlice _ _ => Slice
  | GMap _ _ _ => Map
  | GStruct _ _ => Struct
  | GPointer _ _ => Ptr
  | GInterface _ _ _ => Interface
  | GOther k _ => kindOfOther k
  end.

Definition typeOf (d : value) : rtype :=
  match d with
  | GBool _ => TBool
  | GInt k _ => TInt k
  | GUint k _ => TUint k
  | GFloat k _ => TFloat k
  | GComplex k _ _ => TComplex k
  | GString _ => TString
  | GArray elem elems => TArray (length elems) elem
  | GSlice elem _ => TSlice elem
  | GMap key elem _ => TMap key elem
  | GStruct name _ => TStruct name
  | GPointer elem _ => TPointer elem
  | GInterface name numMethod _ => TInterface name numMethod
  | GOther k name => TOther k name
  end.

(** [Type.String]. *)
Fixpoint Type_String (t : rtype) : string :=
  match t with
  | TBool => "bool"
  | TInt k => Kind_String (kindOfInt k)
  | TUint k => Kind_String (kindOfUint k)
  | TFloat k => Kind_String (kindOfFloat k)
  | TComplex k => Kind_String (kindOfComplex k)
  | TString => "string"
  | TArray len elem =>
      "[" ++ strconv.FormatInt (Z.of_nat len) ++ "]" ++ Type_String elem
  | TSlice elem => "[]" ++ Type_String elem
  | TMap key elem => "map[" ++ Type_String key ++ "]" ++ Type_String elem
  | TPointer elem => "*" ++ Type_String elem
  | TStruct name => name
  | TInterface name _ => name
  | TOther _ name => name
  end.

Definition IntKind_eqb (a b : IntKind) : bool :=
  match a, b with
  | KInt, KInt | KInt8, KInt8 | KInt16, KInt16
  | KInt32, KInt32 | KInt64, KInt64 => true
  | _, _ => false
  end.

Definition UintKind_eqb (a b : UintKind) : bool :=
  match a, b with
  | KUint, KUint | KUint8, KUint8 | KUint16, KUint16
  | KUint32, KUint32 | KUint64, KUint64 => true
  | _, _ => false
  end.

Definition FloatKind_eqb (a b : FloatKind) : bool :=
  match a, b with
  | KFloat32, KFloat32 | KFloat64, KFloat64 => true
  | _, _ => false
  end.

Definition ComplexKind_eqb (a b : ComplexKind) : bool :=
  match a, b with
  | KComplex64, KComplex64 | KComplex128, KComplex128 => true
  | _, _ => false
  end.

Definition OtherKind_eqb (a b : OtherKind) : bool :=
  match a, b with
  | KUintptr, KUintptr | KChan, KChan | KFunc, KFunc
  | KUnsafePointer, KUnsafePointer => true
  | _, _ => false
  end.

(** Identity of types, the [==] of [reflect.Type]. *)
Fixpoint Type_eqb (a b : rtype) : bool :=
  match a, b with
  | TBool, TBool | TString, TString => true
  | TInt k, TInt k' => IntKind_eqb k k'
  | TUint k, TUint k' => UintKind_eqb k k'
  | TFloat k, TFloat k' => FloatKind_eqb k k'
  | TComplex k, TComplex k' => ComplexKind_eqb k k'
  | TArray n e, TArray n' e' => (n =? n')%nat && Type_eqb e e'
  | TSlice e, TSlice e' => Type_eqb e e'
  | TMap k e, TMap k' e' => Type_eqb k k' && Type_eqb e e'
  | TPointer e, TPointer e' => Type_eqb e e'
  | TStruct n, TStruct n' => String.eqb n n'
  | TInterface n m, TInterface n' m' => String.eqb n n' && (m =? m')%nat
  | TOther k n, TOther k' n' => OtherKind_eqb k k' && String.eqb n n'
  | _, _ => false
  end.

(** Where a [Value] lies in the document it was reached from. *)
Inductive step :=
| StepElem
| StepIndex (i : nat)
| StepMapIndex (key : string)
| StepField (i : nat).

(** A valid [reflect.Value]: the value, the flags [flagAddr] and
    [flagRO], and its place in the document. *)
Record Value_ := {
  data : value;
  flagAddr : bool;
  flagRO : bool;
  loc : list step
}.

(** [reflect.Value]; [None] is the zero Value. *)
Definition Value := option Value_.

Definition IsValid (v : Value) : bool :=
  match v with Some _ => true | None => false end.

Definition Value_Kind (v : Value) : Kind :=
  match v with
  | Some v => kindOf (data v)
  | None => Invalid
  end.

Definition CanSet (v : Value_) : bool := flagAddr v && negb (flagRO v).

(** [CanInterface] panics on the zero Value. *)
Definition CanInterface (v : Value) : exec bool :=
  match v with
  | None => Panic "reflect: call of reflect.Value.CanInterface on zero Value"
  | Some v => Return (negb (flagRO v))
  end.

(** [reflect.ValueOf(i)] at place [at_]: the dynamic value of [i],
    neither addressable nor read-only. *)
Fixpoint ValueOf_at (at_ : list step) (i : value) : Value :=
  match i with
  | GInterface _ _ None => None
  | GInterface _ _ (Some d) => ValueOf_at (at_ ++ [StepElem]) d
  | _ => Some {| data := i; flagAddr := false; flagRO := false; loc := at_ |}
  end.

(** [reflect.ValueOf(i)] for an [interface{}] argument ([None]: nil). *)
Definition ValueOf (i : option value) : Value :=
  match i with
  | None => None
  | Some d => ValueOf_at [] d
  end.

(** [Value.Interface]: the value as an [interface{}]. *)
Fixpoint Value_Interface (d : value) : option value :=
  match d with
  | GInterface _ _ None => None
  | GInterface _ _ (Some d') => Value_Interface d'
  | _ => Some d
  end.

(** [Value.IsNil], for kinds [Ptr] and [Interface]. *)
Definition IsNil (v : Value_) : bool :=
  match data v with
  | GPointer _ None | GInterface _ _ None => true
  | _ => false
  end.

(** [Value.Elem], for kinds [Ptr] and [Interface]: what a pointer
    points to is addressable, what an interface holds is not. *)
Definition Elem (v : Value_) : Value :=
  match data v with
  | GPointer _ (Some d) =>
      Some {| data := d; flagAddr := true; flagRO := flagRO v;
              loc := loc v ++ [StepElem] |}
  | GInterface _ _ (Some d) =>
      Some {| data := d; flagAddr := false; flagRO := flagRO v;
              loc := loc v ++ [StepElem] |}
  | _ => None
  end.

(** [Value.Len], for kinds [Array] and [Slice]. *)
Definition Len (v : Value_) : Z :=
  match data v with
  | GArray _ elems | GSlice _ elems => Z.of_nat (length elems)
  | _ => 0
  end.

(** [Value.Index(i)], for kinds [Array] and [Slice]: an element of a
    slice is addressable, an element of an array is if the array is.
    It panics out of range. *)
Definition Index (v : Value_) (i : Z) : exec Value :=
  match data v with
  | GArray _ elems =>
      if ((i <? 0) || (Z.of_nat (length elems) <=? i))%Z%bool
      then Panic "reflect: array index out of range"
      else match nth_error elems (Z.to_nat i) with
           | Some d => Return (Some {| data := d; flagAddr := flagAddr v;
                                       flagRO := flagRO v;
                                       loc := loc v ++ [StepIndex (Z.to_nat i)] |})
           | None => Panic "reflect: array index out of range"
           end
  | GSlice _ elems =>
      if ((i <? 0) || (Z.of_nat (length elems) <=? i))%Z%bool
      then Panic "reflect: slice index out of range"
      else match nth_error elems (Z.to_nat i) with
           | Some d => Return (Some {| data := d; flagAddr := true;
                                       flagRO := flagRO v;
                                       loc := loc v ++ [StepIndex (Z.to_nat i)] |})
           | None => Panic "reflect: slice index out of range"
           end
  | _ => Panic "reflect: call of reflect.Value.Index on a value of another kind"
  end.

Fixpoint lookup {A : Type} (key : string) (entries : list (string * A))
  : option A :=
  match entries with
  | [] => None
  | (k, x) :: entries' =>
      if String.eqb k key then Some x else lookup key entries'
  end.

(** Whether a [string] is assignable to a type. *)
Definition stringAssignableTo (t : rtype) : bool :=
  match t with
  | TString => true
  | TInterface _ numMethod => (numMethod =? 0)%nat
  | _ => false
  end.

(** [Value.MapIndex(reflect.ValueOf(key))] for a string [key], for
    kind [Map]: the zero Value if the key is absent; the element is
    not addressable.  It panics if a string is not assignable to the
    key type of the map. *)
Definition MapIndex (v : Value_) (key : string) : exec Value :=
  match data v with
  | GMap keyType _ entries =>
      if negb (stringAssignableTo keyType)
      then Panic "reflect.Value.MapIndex: value of type string is not assignable"
      else match lookup key entries with
           | Some d => Return (Some {| data := d; flagAddr := false;
                                       flagRO := flagRO v;
                                       loc := loc v ++ [StepMapIndex key] |})
           | None => Return None
           end
  | _ => Panic "reflect: call of reflect.Value.MapIndex on a value of another kind"
  end.

(** [Value.Field(i)], for kind [Struct]: addressable if the struct
    is, read-only if the field is not exported. *)
Definition Field (v : Value_) (i : nat) : exec Value :=
  match data v with
  | GStruct _ fields =>
      match nth_error fields i with
      | Some (f, d) =>
          Return (Some {| data := d; flagAddr := flagAddr v;
                          flagRO := flagRO v
                                    || negb (String.eqb (PkgPath f) "");
                          loc := loc v ++ [StepField i] |})
      | None => Panic "reflect: Field index out of range"
      end
  | _ => Panic "reflect: call of reflect.Value.Field on a value of another kind"
  end.

(** The index of the first field called [name]. *)
Fixpoint fieldIndex (name : string) (i : nat)
         (fields : list (StructField * value)) : option nat :=
  match fields with
  | [] => None
  | (f, _) :: fields' =>
      if String.eqb (Name f) name then Some i
      else fieldIndex name (S i) fields'
  end.

(** [Value.FieldByName(name)], for kind [Struct]: the zero Value if
    there is no such field. *)
Definition FieldByName (v : Value_) (name : string) : exec Value :=
  match data v with
  | GStruct _ fields =>
      match fieldIndex name 0 fields with
      | Some i => Field v i
      | None => Return None
      end
  | _ => Panic "reflect: call of reflect.Value.FieldByName on a value of another kind"
  end.

Fixpoint updateNth {A : Type} (i : nat) (f : A -> A) (l : list A) : list A :=
  match l, i with
  | [], _ => []
  | x :: l', O => f x :: l'
  | x :: l', S i' => x :: updateNth i' f l'
  end.

Fixpoint updateKey {A : Type} (key : string) (f : A -> A)
         (l : list (string * A)) : list (string * A) :=
  match l with
  | [] => []
  | (k, x) :: l' =>
      if String.eqb k key then (k, f x) :: l'
      else (k, x) :: updateKey key f l'
  end.

(** The document [d] with [new] stored at place [at_]. *)
Fixpoint storeAt (at_ : list step) (new : value) (d : value) : value :=
  match at_ with
  | [] => new
  | st :: at' =>
      match st, d with
      | StepElem, GPointer t (Some x) =>
          GPointer t (Some (storeAt at' new x))
      | StepElem, GInterface n m (Some x) =>
          GInterface n m (Some (storeAt at' new x))
      | StepIndex i, GArray t elems =>
          GArray t (updateNth i (storeAt at' new) elems)
      | StepIndex i, GSlice t elems =>
          GSlice t (updateNth i (storeAt at' new) elems)
      | StepMapIndex key, GMap kt t entries =>
          GMap kt t (updateKey key (storeAt at' new) entries)
      | StepField i, GStruct n fields =>
          GStruct n (updateNth i (fun fd => (fst fd, storeAt at' new (snd fd)))
                               fields)
      | _, _ => d
      end
  end.

(** The assignment through a settable [Value]: the document
    afterwards. *)
Definition store (v : Value_) (new : value) (doc : option value)
  : option value :=
  option_map (storeAt (loc v) new) doc.

End reflect.

(* ================================================================= *)
(** ** pointer.go: traversal *)

Section Traversal.

Context {platform : Platform}.

Import reflect.

(** The loop of [getValue] over the fields of a struct, by json tag,
    from field [i]. *)
Fixpoint getValue_tags (doc : Value_) (key : string) (i : nat)
         (fields : list (StructField * value)) : exec (Value * option error) :=
  match fields with
  | [] =>
      Return (None, Some (newError ErrGet
                            ("struct has no field '" ++ key ++ "'")))
  | (sf, _) :: fields' =>
      let jsonTag := Tag_json sf in
      if (negb (String.eqb jsonTag "") && negb (String.eqb jsonTag "-"))%bool
      then
        let commaIdx := strings.Index jsonTag "," in
        let commaIdx :=
          if (commaIdx <? 0)%Z then Z.of_nat (String.length jsonTag)
          else commaIdx in
        let fieldName := substring 0 (Z.to_nat commaIdx) jsonTag in
        if (negb (String.eqb fieldName "") && String.eqb fieldName key)%bool
        then f <- Field doc i ;; Return (f, None)
        else getValue_tags doc key (S i) fields'
      else getValue_tags doc key (S i) fields'
  end.

(** [getValue] on a valid document [doc], by recursion on its value
    [d]: the recursive calls are those on [doc.Elem()]. *)
Fixpoint getValue_valid (d : value) (addr ro : bool) (at_ : list step)
         (key : string) {struct d} : exec (Value * option error) :=
  let doc := {| data := d; flagAddr := addr; flagRO := ro; loc := at_ |} in
  match d with
  | GPointer _ None | GInterface _ _ None =>
      Return (None, Some (newError ErrGet "document value is nil"))
  | GPointer _ (Some d') =>
      getValue_valid d' true ro (at_ ++ [StepElem]) key
  | GInterface _ _ (Some d') =>
      getValue_valid d' false ro (at_ ++ [StepElem]) key
  | GArray _ _ | GSlice _ _ =>
      match strconv.Atoi key with
      | inr _ =>
          Return (None, Some (newError ErrGet ("invalid array index: " ++ key)))
      | inl i =>
          if (Len doc <=? i)%Z
          then Return (None, Some (newError ErrGet
                                     ("index " ++ strconv.FormatInt i
                                        ++ " exceeds array length of "
                                        ++ strconv.FormatInt (Len doc))))
          else elm <- Index doc i ;; Return (elm, None)
      end
  | GMap _ _ _ =>
      elmVal <- MapIndex doc key ;;
      if negb (IsValid elmVal)
      then Return (None, Some (newError ErrGet
                                 ("map has no key '" ++ key ++ "'")))
      else Return (elmVal, None)
  | GStruct _ fields =>
      f <- FieldByName doc key ;;
      if IsValid f then Return (f, None)
      else getValue_tags doc key 0 fields
  | GBool _ | GString _ | GInt _ _ | GUint _ _ | GFloat _ _
  | GComplex _ _ _ =>
      Return (None, Some (newError ErrGet "primitive value has no fields"))
  | GOther k _ =>
      Return (None, Some (newError ErrGet
                            ("unsupported document type "
                               ++ Kind_String (kindOfOther k))))
  end.

(** [getValue] returns the value for the given key from the given
    document. *)
Definition getValue (doc : Value) (key : string)
  : exec (Value * option error) :=
  match doc with
  | None => Return (None, Some (newError ErrGet "document value is invalid"))
  | Some v => getValue_valid (data v) (flagAddr v) (flagRO v) (loc v) key
  end.

(** The loop of [Get] and [Set] over the tokens of the pointer. *)
Fixpoint getValues (docVal : Value) (p : Pointer)
  : exec (Value * option error) :=
  match p with
  | [] => Return (docVal, None)
  | part :: p' =>
      '(docVal, err) <- getValue docVal part ;;
      match err with
      | Some e => Return (None, Some e)
      | None => getValues docVal p'
      end
  end.

(** [Get] returns the value from the given document that the pointer
    points to. *)
Definition Get (p : Pointer) (doc : option value)
  : exec (option value * option error) :=
  '(resultVal, err) <- getValues (ValueOf doc) p ;;
  match err with
  | Some e => Return (None, Some e)
  | None =>
      can <- CanInterface resultVal ;;
      if negb can
      then Return (None, Some (newError ErrGet "cannot get document value"))
      else Return (match resultVal with
                   | Some v => Value_Interface (data v)
                   | None => None
                   end, None)
  end.

Fixpoint indirect_valid (d : value) (addr ro : bool) (at_ : list step)
  : Value :=
  match d with
  | GPointer _ None | GInterface _ _ None => None
  | GPointer _ (Some d') => indirect_valid d' true ro (at_ ++ [StepElem])
  | GInterface _ _ (Some d') => indirect_valid d' false ro (at_ ++ [StepElem])
  | _ => Some {| data := d; flagAddr := addr; flagRO := ro; loc := at_ |}
  end.

(** [indirect]: the value behind pointers and interfaces. *)
Definition indirect (val : Value) : Value :=
  match val with
  | None => None
  | Some v => indirect_valid (data v) (flagAddr v) (flagRO v) (loc v)
  end.

Definition typeMismatch (indSrcVal : Value) (doc : Value_) : error :=
  newError ErrSet ("type mismatch (" ++ Kind_String (Value_Kind indSrcVal)
                     ++ " ➜ " ++ Kind_String (kindOf (data doc)) ++ ")").

(** [setValue]: the error it returns, and the document afterwards,
    [root] being the document before. *)
Definition setValue (doc : Value) (value : option reflect.value)
           (root : option reflect.value)
  : option error * option reflect.value :=
  let doc :=
    match doc with
    | Some v => if match kindOf (data v) with Interface => true | _ => false end
                then Elem v else doc
    | None => doc
    end in
  match doc with
  | None => (Some (errorString "cannot set value on invalid document"), root)
  | Some doc =>
  if negb (CanSet doc)
  then (Some (errorString
                "cannot set value on unaddressable document or unexported field"),
        root)
  else
  match ValueOf value with
  | None => (Some (errorString "cannot set value on invalid value"), root)
  | Some srcVal =>
  let indSrcVal := indirect (Some srcVal) in
  let src := option_map data indSrcVal in
  match data doc with
  | GPointer _ _ | GArray _ _ | GSlice _ _ | GMap _ _ _ | GStruct _ _ =>
      if negb (Type_eqb (typeOf (data doc)) (typeOf (data srcVal)))
      then (Some (newError ErrSet
                    ("cannot set document value of type "
                       ++ Type_String (typeOf (data doc))
                       ++ " to value of type "
                       ++ Type_String (typeOf (data srcVal)))), root)
      else (None, store doc (data srcVal) root)

  | GString _ =>
      let SetString x := (None, store doc (GString x) root) in
      match src with
      | Some (GString s) => SetString s
      | Some (GInt _ n) => SetString (strconv.FormatInt n)
      | Some (GUint _ n) => SetString (strconv.FormatUint n)
      | Some (GFloat _ f) => SetString (FormatFloat f)
      | Some (GComplex _ re im) => SetString (FormatComplex re im)
      | Some (GBool b) => if b then SetString "true" else SetString "false"
      | _ => (Some (typeMismatch indSrcVal doc), root)
      end

  | GInt k _ =>
      let SetInt x := (None, store doc (GInt k (wrapInt (intBits k) x)) root) in
      match src with
      | Some (GInt _ n) => SetInt n
      | Some (GUint _ n) => SetInt (wrapInt 64 n)
      | Some (GFloat _ f) => SetInt (int64_of_float f)
      | Some (GComplex _ re _) => SetInt (int64_of_float re)
      | Some (GBool b) => if b then SetInt 1%Z else SetInt 0%Z
      | Some (GString s) =>
          match strconv.ParseInt s 64 with
          | inr _ => (Some (newError ErrSet "conversion failed (string ➜ int)"),
                      root)
          | inl i => SetInt i
          end
      | _ => (Some (typeMismatch indSrcVal doc), root)
      end

  | GUint k _ =>
      let SetUint x :=
        (None, store doc (GUint k (wrapUint (uintBits k) x)) root) in
      match src with
      | Some (GInt _ n) => SetUint (wrapUint 64 n)
      | Some (GUint _ n) => SetUint n
      | Some (GFloat _ f) => SetUint (uint64_of_float f)
      | Some (GComplex _ re _) => SetUint (uint64_of_float re)
      | Some (GBool b) => if b then SetUint 1%Z else SetUint 0%Z
      | Some (GString s) =>
          match strconv.ParseUint s 64 with
          | inr _ => (Some (newError ErrSet "conversion failed (string ➜ uint)"),
                      root)
          | inl i => SetUint i
          end
      | _ => (Some (typeMismatch indSrcVal doc), root)
      end

  | GFloat k _ =>
      let SetFloat x :=
        (None, store doc (GFloat k match k with
                                   | KFloat32 => float32_of_float x
                                   | KFloat64 => x
                                   end) root) in
      match src with
      | Some (GInt _ n) => SetFloat (float64_of_int n)
      | Some (GUint _ n) => SetFloat (float64_of_int n)
      | Some (GFloat _ f) => SetFloat f
      | Some (GComplex _ re _) => SetFloat re
      | Some (GBool b) => if b then SetFloat 1%float else SetFloat 0%float
      | Some (GString s) =>
          match ParseFloat s with
          | None => (Some (newError ErrSet "conversion failed (string ➜ float)"),
                     root)
          | Some f => SetFloat f
          end
      | _ => (Some (typeMismatch indSrcVal doc), root)
      end

  | GBool _ =>
      let SetBool x := (None, store doc (GBool x) root) in
      match src with
      | Some (GInt _ n) => SetBool (negb (n =? 0)%Z)
      | Some (GUint _ n) => SetBool (negb (n =? 0)%Z)
      | Some (GFloat _ f) => SetBool (negb (PrimFloat.eqb f 0%float))
      | Some (GComplex _ re _) => SetBool (negb (PrimFloat.eqb re 0%float))
      | Some (GBool b) => SetBool b
      | Some (GString s) =>
          match strconv.ParseBool s with
          | None => (Some (newError ErrSet "conversion failed (string ➜ bool)"),
                     root)
          | Some b => SetBool b
          end
      | _ => (Some (typeMismatch indSrcVal doc), root)
      end

  | GComplex k _ _ =>
      let SetComplex re im :=
        (None, store doc match k with
                         | KComplex64 =>
                             GComplex k (float32_of_float re) (float32_of_float im)
                         | KComplex128 => GComplex k re im
                         end root) in
      match src with
      | Some (GInt _ n) => SetComplex (float64_of_int n) 0%float
      | Some (GUint _ n) => SetComplex (float64_of_int n) 0%float
      | Some (GFloat _ f) => SetComplex f 0%float
      | Some (GComplex _ re im) => SetComplex re im
      | Some (GBool b) =>
          if b then SetComplex 1%float 0%float else SetComplex 0%float 0%float
      | Some (GString s) =>
          match ParseComplex s with
          | None => (Some (newError ErrSet
                             "conversion failed (string ➜ complex)"), root)
          | Some (re, im) => SetComplex re im
          end
      | _ => (Some (typeMismatch indSrcVal doc), root)
      end

  | GInterface _ _ _ | GOther _ _ =>
      (Some (newError ErrSet ("unsupported type ("
                                ++ Kind_String (kindOf (data doc)) ++ ")")),
       root)
  end
  end
  end.

(** [Set] sets the value at the given pointer in the given document:
    the error it returns, and the document afterwards. *)
Definition Set_ (p : Pointer) (doc : option reflect.value)
           (value : option reflect.value)
  : exec (option error * option reflect.value) :=
  '(docVal, err) <- getValues (ValueOf doc) p ;;
  match err with
  | Some e => Return (Some e, doc)
  | None => Return (setValue docVal value doc)
  end.

End Traversal.

(* ================================================================= *)
(** ** Example documents *)

Definition emptyInterface : reflect.rtype := reflect.TInterface "interface {}" 0.

(** A value in a variable of type [interface{}]. *)
Definition inInterface (d : reflect.value) : reflect.value :=
  reflect.GInterface "interface {}" 0 (Some d).

(** What [json.Unmarshal] makes of a JSON object and of a JSON array:
    a [map[string]interface{}] and a [[]interface{}]. *)
Definition jsonObject (members : list (string * reflect.value)) : reflect.value :=
  reflect.GMap reflect.TString emptyInterface
               (map (fun m => (fst m, inInterface (snd m))) members).

Definition jsonArray (elems : list reflect.value) : reflect.value :=
  reflect.GSlice emptyInterface (map inInterface elems).

(** The document [{"foo": ["bar", "baz"]}]. *)
Definition exampleDocument : reflect.value :=
  jsonObject [("foo", jsonArray [reflect.GString "bar"; reflect.GString "baz"])].

(** A pointer to a struct with the fields [Name string] (json tag
    [name,omitempty]), [Ratio float64], [Count int8] and the unexported
    [tags []string]. *)
Definition exampleRecord : reflect.value :=
  reflect.GPointer (reflect.TStruct "main.Record")
    (Some (reflect.GStruct "main.Record"
             [({| reflect.Name := "Name"; reflect.PkgPath := "";
                  reflect.Tag_json := "name,omitempty" |}, reflect.GString "x");
              ({| reflect.Name := "Ratio"; reflect.PkgPath := "";
                  reflect.Tag_json := "" |}, reflect.GFloat reflect.KFloat64 0%float);
              ({| reflect.Name := "Count"; reflect.PkgPath := "";
                  reflect.Tag_json := "" |}, reflect.GInt reflect.KInt8 0%Z);
              ({| reflect.Name := "tags"; reflect.PkgPath := "main";
                  reflect.Tag_json := "" |},
               reflect.GSlice reflect.TString [reflect.GString "a"])])).


(* ================================================================= *)
(** ** Pointers in memory *)

(** [Pointer] is a slice: [Parent], [Join] and [RelativeTo] allocate,
    copy and append.  Here a slice is a header on a backing array of
    the heap, and the functions are those of the source on that
    representation, in a state monad over the heap with panics. *)
Module Mem.

(** A slice header: the backing array, the offset of the first
    element in it, the length and the capacity. *)
Record slice := {
  array : nat;
  offset : nat;
  len : nat;
  cap : nat
}.

(** The backing arrays allocated so far; an array is never freed. *)
Definition heap := list (list string).

Definition M (A : Type) : Type := heap -> exec (A * heap).

Definition ret {A : Type} (a : A) : M A := fun h => Return (a, h).

Definition mbind {A B : Type} (m : M A) (k : A -> M B) : M B :=
  fun h =>
    match m h with
    | Return (a, h') => k a h'
    | Panic r => Panic r
    end.

Definition panic {A : Type} (reason : string) : M A := fun _ => Panic reason.

Declare Scope mem_scope.
Delimit Scope mem_scope with mem.
Notation "x <- m ;; k" := (mbind m (fun x => k))
  (at level 61, m at next level, right associativity) : mem_scope.
Notation "' pat <- m ;; k" := (mbind m (fun x => match x with pat => k end))
  (at level 61, pat pattern, m at next level, right associativity) : mem_scope.
Local Open Scope mem_scope.

(** The nil slice, and the empty slice of a literal [Pointer{}]. *)
Definition nilSlice : slice :=
  {| array := 0; offset := 0; len := 0; cap := 0 |}.

(** The elements of a slice. *)
Definition read (s : slice) (h : heap) : list string :=
  firstn (len s) (skipn (offset s) (nth (array s) h [])).

(** [xs] written into array [a] from position [i] on. *)
Definition writeArray (a i : nat) (xs : list string) (h : heap) : heap :=
  reflect.updateNth a
    (fun arr => firstn i arr ++ xs ++ skipn (i + length xs) arr) h.

(** A new array with the given contents. *)
Definition alloc (xs : list string) : M slice :=
  fun h => Return ({| array := length h; offset := 0;
                      len := length xs; cap := length xs |}, h ++ [xs]).

(** [make([]string, n)]. *)
Definition make (n : nat) : M slice := alloc (repeat EmptyString n).

(** [copy(dst, src)]. *)
Definition copy (dst src : slice) : M nat :=
  fun h =>
    let n := Nat.min (len dst) (len src) in
    Return (n, writeArray (array dst) (offset dst) (firstn n (read src h)) h).

(** The slice expressions [s[:high]] and [s[low:]]. *)
Definition sliceTo (s : slice) (high : nat) : M slice :=
  if (cap s <? high)%nat then panic "slice bounds out of range"
  else ret {| array := array s; offset := offset s;
              len := high; cap := cap s |}.

Definition sliceFrom (s : slice) (low : nat) : M slice :=
  if (len s <? low)%nat then panic "slice bounds out of range"
  else ret {| array := array s; offset := offset s + low;
              len := len s - low; cap := cap s - low |}.

(** The index expression [s[i]]. *)
Definition index (s : slice) (i : nat) : M string :=
  fun h =>
    match nth_error (read s h) i with
    | Some x => Return (x, h)
    | None => Panic "index out of range"
    end.

(** The assignment [s[i] = x]. *)
Definition assign (s : slice) (i : nat) (x : string) : M unit :=
  fun h =>
    if (len s <=? i)%nat then Panic "index out of range"
    else Return (tt, writeArray (array s) (offset s + i) [x] h).

(** The arguments of [New], [Join] and [RelativeTo]. *)
Inductive arg :=
| APointer (v : slice)
| AString (v : string)
| AURL (v : option URL)
| AOther (typeName : string).

Section Functions.

Context {platform : Platform}.

(** The capacity [append] gives the array it allocates when
    [needed] elements do not fit in [oldCap]; it is at least
    [needed]. *)
Variable growslice : nat -> nat -> nat.

(** [append(s, xs...)]: in place when the capacity allows, else in
    a new array. *)
Definition append (s : slice) (xs : list string) : M slice :=
  fun h =>
    let needed := len s + length xs in
    if (needed <=? cap s)%nat
    then Return ({| array := array s; offset := offset s;
                    len := needed; cap := cap s |},
                 writeArray (array s) (offset s + len s) xs h)
    else
      let newCap := Nat.max needed (growslice (cap s) needed) in
      Return ({| array := length h; offset := 0;
                 len := needed; cap := newCap |},
              h ++ [read s h ++ xs ++ repeat EmptyString (newCap - needed)]).

(** [parse]: the tokens are in the array [strings.Split]
    allocates. *)
Definition parse (str : string) : M (slice * option error) :=
  match str with
  | EmptyString => ret (nilSlice, None)
  | String c str' =>
      if negb (Ascii.eqb c "/")
      then ret (nilSlice,
                Some (newError ErrInvalidJSONPointer
                        "non-empty references must begin with a '/' character"))
      else
        toks <- alloc (strings.Split str' separator) ;;
        toks <- (fun h => Return (toks, writeArray (array toks) 0
                                          (map unescapeToken (read toks h)) h)) ;;
        ret (toks, None)
  end.

Definition New (val : arg) : M (slice * option error) :=
  match val with
  | APointer v =>
      newPtr <- make (len v) ;;
      _ <- copy newPtr v ;;
      ret (newPtr, None)
  | AString v =>
      match v with
      | EmptyString => ret (nilSlice, None)
      | String c _ =>
          if String.eqb v "#" then ret (nilSlice, None)
          else if Ascii.eqb c "/" then parse v
          else
            match url_Parse v with
            | inr uerr_Err =>
                ret (nilSlice,
                     Some (wrapError uerr_Err ErrInvalidJSONPointer
                             ("failed to parse URL: " ++ Error_Error uerr_Err)))
            | inl u => parse (Fragment u)
            end
      end
  | AURL None => panic "invalid memory address or nil pointer dereference"
  | AURL (Some v) => parse (Fragment v)
  | AOther typeName =>
      ret (nilSlice, Some (newError ErrInvalidJSONPointer
                             ("invalid value for pointer: " ++ typeName)))
  end.

Definition String_ (p : slice) : M string :=
  fun h => Return (Pointer_String (read p h), h).

Definition Parent (p : slice) : M slice :=
  if (len p =? 0)%nat then ret nilSlice
  else
    newPtr <- make (len p) ;;
    dst <- sliceTo newPtr (len p - 1) ;;
    _ <- copy dst p ;;
    ret newPtr.

Fixpoint Join_loop (newPtr : slice) (elems : list arg)
  : M (slice * option error) :=
  match elems with
  | [] => ret (newPtr, None)
  | elm :: elems' =>
      match elm with
      | APointer e =>
          newPtr <- (fun h => append newPtr (read e h) h) ;;
          Join_loop newPtr elems'
      | AString _ | AURL _ =>
          '(elmPtr, err) <- New elm ;;
          match err with
          | Some e => ret (nilSlice, Some e)
          | None =>
              newPtr <- (fun h => append newPtr (read elmPtr h) h) ;;
              Join_loop newPtr elems'
          end
      | AOther typeName =>
          ret (nilSlice, Some (errorString
                                 ("invalid value for pointer: " ++ typeName)))
      end
  end.

Definition Join (p : slice) (elems : list arg) : M (slice * option error) :=
  newPtr <- make (len p) ;;
  _ <- copy newPtr p ;;
  Join_loop newPtr elems.

Fixpoint RelativeTo_loop (p : slice) (i : nat) (parts : list string)
         (numCmnParts : nat) : M (option nat) :=
  match parts with
  | [] => ret (Some numCmnParts)
  | part :: parts' =>
      p_i <- index p i ;;
      if negb (String.eqb p_i part) then ret None
      else RelativeTo_loop p (S i) parts' i
  end.

Definition doesNotStartWith (p otherPtr : slice) : M error :=
  s_p <- String_ p ;;
  s_other <- String_ otherPtr ;;
  ret (errorString (s_p ++ " does not start with " ++ s_other)).

Definition RelativeTo_from (p otherPtr : slice) : M (slice * option error) :=
  if (len p <? len otherPtr)%nat
  then err <- doesNotStartWith p otherPtr ;; ret (nilSlice, Some err)
  else
    r <- (fun h => RelativeTo_loop p 0 (read otherPtr h) 0 h) ;;
    match r with
    | None => err <- doesNotStartWith p otherPtr ;; ret (p, Some err)
    | Some numCmnParts =>
        cmnParts <- sliceFrom p (numCmnParts + 1) ;;
        newPtr <- make (len cmnParts) ;;
        _ <- copy newPtr cmnParts ;;
        ret (newPtr, None)
    end.

Definition RelativeTo (p : slice) (other : arg) : M (slice * option error) :=
  match other with
  | APointer o => RelativeTo_from p o
  | AString _ | AURL _ =>
      '(otherPtr, err) <- New other ;;
      match err with
      | Some e => ret (nilSlice, Some e)
      | None => RelativeTo_from p otherPtr
      end
  | AOther typeName =>
      ret (nilSlice, Some (errorString
                             ("invalid value for pointer: " ++ typeName)))
  end.

End Functions.

End Mem.

(* ================================================================= *)
(** * Notions for the statements *)

(** ** Strings and tokens *)

(** Escaping byte by byte: what [escapeToken] computes in two passes. *)
Fixpoint flatMap (f : ascii -> string) (s : string) : string :=
  match s with
  | EmptyString => EmptyString
  | String c s' => f c ++ flatMap f s'
  end.

(** What the first pass of [escapeToken] makes of a byte. *)
Definition escapeTilde (c : ascii) : string :=
  if Ascii.eqb c "~" then "~0" else String c EmptyString.

(** What [escapeToken] makes of a byte. *)
Definition escapeByte (c : ascii) : string :=
  if Ascii.eqb c "~" then "~0"
  else if Ascii.eqb c "/" then "~1"
  else String c EmptyString.

(** Whether byte [c] occurs in [s]. *)
Fixpoint hasByte (c : ascii) (s : string) : bool :=
  match s with
  | EmptyString => false
  | String d s' => Ascii.eqb d c || hasByte c s'
  end.

(** Case analysis on whether the byte [c] is the byte [lit]. *)
Ltac case_byte c lit :=
  let E := fresh "E" in
  destruct (Ascii.eqb c lit) eqn:E;
  [ apply Ascii.eqb_eq in E; subst c | ].

(** Whether the tokens [q] are the first tokens of [p]. *)
Fixpoint isPrefix (q p : list string) : bool :=
  match q, p with
  | [], _ => true
  | part :: q', t :: p' => String.eqb t part && isPrefix q' p'
  | _ :: _, [] => false
  end.

(** ** Documents *)

Section TraversalNotions.

Context {platform : Platform}.

Import reflect.

(** The kinds of the scalar slots of [setValue]. *)
Definition isScalar (d : value) : bool :=
  match d with
  | GBool _ | GInt _ _ | GUint _ _ | GFloat _ _ | GComplex _ _ _
  | GString _ => true
  | _ => false
  end.

(** The kinds of the scalar slots of [setValue], as kinds. *)
Definition isScalarKind (k : Kind) : bool :=
  match k with
  | Bool | Int | Int8 | Int16 | Int32 | Int64
  | Uint | Uint8 | Uint16 | Uint32 | Uint64
  | Float32 | Float64 | Complex64 | Complex128 | String => true
  | _ => false
  end.

(** The number of pointers and interfaces to pass before the value. *)
Fixpoint elemDepth (d : value) : nat :=
  match d with
  | GPointer _ (Some d') | GInterface _ _ (Some d') => S (elemDepth d')
  | _ => 0
  end.

(** An error made by [newError] with type [ErrGet]. *)
Definition isGetError (e : error) : Prop := exists msg, e = newError ErrGet msg.

(** The [Value] [v] with another value in it. *)
Definition withData (v : Value_) (d : value) : Value_ :=
  {| data := d; flagAddr := flagAddr v; flagRO := flagRO v; loc := loc v |}.

(** The search of [getValue_tags]: the index of the first field from
    index [i] whose json tag names [key]. *)
Fixpoint tagIndex (key : string) (i : nat) (fields : list (StructField * value))
  : option nat :=
  match fields with
  | [] => None
  | (sf, _) :: fields' =>
      let jsonTag := Tag_json sf in
      if (negb (String.eqb jsonTag "") && negb (String.eqb jsonTag "-"))%bool
      then
        let commaIdx := strings.Index jsonTag "," in
        let commaIdx :=
          if (commaIdx <? 0)%Z then Z.of_nat (String.length jsonTag)
          else commaIdx in
        let fieldName := substring 0 (Z.to_nat commaIdx) jsonTag in
        if (negb (String.eqb fieldName "") && String.eqb fieldName key)%bool
        then Some i
        else tagIndex key (S i) fields'
      else tagIndex key (S i) fields'
  end.

End TraversalNotions.

(** Case analysis on the conversions in the branches of [setValue]. *)
Ltac crunch_setValue :=
  repeat match goal with
    | |- context [match strconv.ParseInt ?s ?b with _ => _ end] =>
        destruct (strconv.ParseInt s b)
    | |- context [match strconv.ParseUint ?s ?b with _ => _ end] =>
        destruct (strconv.ParseUint s b)
    | |- context [match strconv.ParseBool ?s with _ => _ end] =>
        destruct (strconv.ParseBool s)
    | |- context [match ParseFloat ?s with _ => _ end] =>
        destruct (ParseFloat s)
    | |- context [match ParseComplex ?s with _ => _ end] =>
        destruct (ParseComplex s) as [[? ?]|]
    | |- context [if ?b then _ else _] => destruct b
    end.

(** The slot of the field [Name] of [exampleRecord], as the loop of
    [Set] reaches it. *)
Definition exampleSlot : reflect.Value_ :=
  {| reflect.data := reflect.GString "x"; reflect.flagAddr := true;
     reflect.flagRO := false;
     reflect.loc := [reflect.StepElem; reflect.StepField 0] |}.

(** ** Heaps *)

(** The Mem.heap [h'] is [h] with new arrays: no Mem.array of [h] has changed. *)
Definition extends (h h' : Mem.heap) : Prop := exists new, h' = h ++ new.

(** A Mem.slice that shares no element with the arrays of [h]: it has no
    element and no room for one, or its Mem.array is not one of [h]. *)
Definition fresh (h : Mem.heap) (s : Mem.slice) : Prop :=
  (Mem.len s = 0 /\ Mem.cap s = 0) \/ length h <= Mem.array s.

(** From a Mem.heap that extends [h0], the computation [m] changes no
    Mem.array of [h0], and its result satisfies [Q] when it returns. *)
Definition keeps {A : Type} (h0 : Mem.heap) (m : Mem.M A) (Q : A -> Prop) : Prop :=
  forall h, extends h0 h ->
            match m h with
            | Return (a, h') => extends h0 h' /\ Q a
            | Panic _ => True
            end.

(** What [parse] and [New] return is the nil Mem.slice or a new Mem.array. *)
Definition newOrNil (h0 : Mem.heap) (r : Mem.slice * option error) : Prop :=
  fst r = Mem.nilSlice \/ length h0 <= Mem.array (fst r).

(** What [RelativeTo] returns without error is the nil Mem.slice or a new
    Mem.array. *)
Definition newIfNoError (h0 : Mem.heap) (r : Mem.slice * option error) : Prop :=
  snd r = None -> fst r = Mem.nilSlice \/ length h0 <= Mem.array (fst r).

(** The pointer [p] of the Mem.heap [h] reads the same in [h'], and so
    does its string. *)
Definition unchanged (p : Mem.slice) (h h' : Mem.heap) : Prop :=
  Mem.read p h' = Mem.read p h
  /\ Mem.String_ p h' = Return (Pointer_String (Mem.read p h), h').

(** No assignment to an element of [q] and no [append] to [q] in [h']
    changes what [p] reads in [h]. *)
Definition independent (growslice : nat -> nat -> nat) (p : Mem.slice)
           (h : Mem.heap) (q : Mem.slice) (h' : Mem.heap) : Prop :=
  (forall i x h'', Mem.assign q i x h' = Return (tt, h'') -> Mem.read p h'' = Mem.read p h)
  /\ (forall xs q' h'',
         Mem.append growslice q xs h' = Return (q', h'') -> Mem.read p h'' = Mem.read p h).

(** A slice of the heap [h]: its array is allocated and holds its
    capacity. *)
Definition wf (h : Mem.heap) (s : Mem.slice) : Prop :=
  Mem.array s < length h
  /\ Mem.len s <= Mem.cap s
  /\ Mem.offset s + Mem.cap s <= length (nth (Mem.array s) h []).

(** The nil slice, or a slice of the heap. *)
Definition wfn (h : Mem.heap) (s : Mem.slice) : Prop :=
  s = Mem.nilSlice \/ wf h s.

(** An argument whose pointer, if it is one, is a slice of the heap. *)
Definition wfArg (h : Mem.heap) (a : Mem.arg) : Prop :=
  match a with
  | Mem.APointer s => wf h s
  | _ => True
  end.

(** The argument on token lists for an argument on the heap. *)
Definition view (h : Mem.heap) (a : Mem.arg) : arg :=
  match a with
  | Mem.APointer s => APointer (Mem.read s h)
  | Mem.AString v => AString v
  | Mem.AURL u => AURL u
  | Mem.AOther t => AOther t
  end.

(** What a function on the heap returns from [h], against what the
    function on token lists returns: the same error, the tokens of
    the slice, in a heap that extends [h]; or a panic on both sides. *)
Definition sim (h : Mem.heap) (r : exec (Mem.slice * option error * Mem.heap))
           (r' : exec (Pointer * option error)) : Prop :=
  match r, r' with
  | Return (q, err, h'), Return (l, err') =>
      extends h h' /\ wfn h' q /\ Mem.read q h' = l /\ err = err'
  | Panic _, Panic _ => True
  | _, _ => False
  end.

(** The heap with the one pointer [/foo/bar]. *)
Definition exampleHeap : Mem.heap := [["foo"; "bar"]].

(** The pointer [/foo/bar] of [exampleHeap]. *)
Definition examplePointer : Mem.slice :=
  {| Mem.array := 0; Mem.offset := 0; Mem.len := 2; Mem.cap := 2 |}.

(** ** The syntax of RFC 6901 *)

(** The escapes of RFC 6901, read left to right: [pending] says that
    the byte before was a [~], which only [0] or [1] may follow. *)
Fixpoint escapesFrom (pending : bool) (s : string) : bool :=
  match s with
  | EmptyString => negb pending
  | String c s' =>
      if pending
      then (Ascii.eqb c "0" || Ascii.eqb c "1") && escapesFrom false s'
      else escapesFrom (Ascii.eqb c "~") s'
  end.

(** The syntax of RFC 6901, [json-pointer = *( "/" reference-token )]:
    the string is empty or starts with [/], and every [~] in it is
    followed by [0] or [1]. *)
Definition wellFormed (s : string) : bool :=
  match s with
  | EmptyString => true
  | String c _ => Ascii.eqb c "/" && escapesFrom false s
  end.

(** The number of bytes [c] in [s]. *)
Fixpoint countByte (c : ascii) (s : string) : nat :=
  match s with
  | EmptyString => 0
  | String d s' => (if Ascii.eqb d c then 1 else 0) + countByte c s'
  end.

(** The elements [Join] can append: [elm] gives the tokens [toks]. *)
Definition gives {platform : Platform} (elm : arg) (toks : Pointer) : Prop :=
  New elm = Return (toks, None).

(** ** Reading and setting *)

(** The name in a json tag: the tag up to its first comma. *)
Fixpoint upToComma (tag : string) : string :=
  match tag with
  | EmptyString => EmptyString
  | String c tag' =>
      if Ascii.eqb c "," then EmptyString else String c (upToComma tag')
  end.

Section ReadingNotions.

Import reflect.

(** Two [Value]s that [Get] cannot tell apart: the same value and the
    same [flagRO]; they may differ in [flagAddr] and in their place. *)
Definition alike (a b : Value) : Prop :=
  match a, b with
  | Some a, Some b => data a = data b /\ flagRO a = flagRO b
  | None, None => True
  | _, _ => False
  end.

(** Two results of [getValue] with the same outcome: the same panic,
    or the same error and [Value]s that are alike. *)
Definition alikeResult (r r' : exec (Value * option error)) : Prop :=
  match r, r' with
  | Return (a, e), Return (b, e') => alike a b /\ e = e'
  | Panic x, Panic y => x = y
  | _, _ => False
  end.

(** What [Get] does with the [Value] the loop ends on. *)
Definition Get_result (resultVal : Value)
  : exec (option value * option error) :=
  can <- CanInterface resultVal ;;
  if negb can
  then Return (None, Some (newError ErrGet "cannot get document value"))
  else Return (match resultVal with
               | Some v => Value_Interface (data v)
               | None => None
               end, None).

(** What [json.Unmarshal] stores in an [interface{}] for a JSON text
    that is not [null]: a [bool], a [float64], a [string], a
    [[]interface{}] or a [map[string]interface{}], whose elements hold
    such values or nil. *)
Fixpoint isJSON (d : value) : bool :=
  match d with
  | GBool _ | GString _ | GFloat KFloat64 _ => true
  | GSlice t elems =>
      Type_eqb t emptyInterface
      && forallb (fun x => match x with
                           | GInterface _ _ None => true
                           | GInterface _ _ (Some y) => isJSON y
                           | _ => false
                           end) elems
  | GMap kt t entries =>
      Type_eqb kt TString && Type_eqb t emptyInterface
      && forallb (fun kv => match kv with
                            | (_, GInterface _ _ None) => true
                            | (_, GInterface _ _ (Some y)) => isJSON y
                            | _ => false
                            end) entries
  | _ => false
  end.

(** An element of a JSON array or object: an interface that is nil
    or holds a JSON value. *)
Definition holdsJSON (x : value) : bool :=
  match x with
  | GInterface _ _ None => true
  | GInterface _ _ (Some y) => isJSON y
  | _ => false
  end.

(** The kinds [setValue] sets by assignment of a value of the same
    type. *)
Definition isStructured (d : value) : bool :=
  match d with
  | GPointer _ _ | GArray _ _ | GSlice _ _ | GMap _ _ _ | GStruct _ _ => true
  | _ => false
  end.

(** A [[][]string] with the one row [["a"]]. *)
Definition exampleRows : value :=
  GSlice (TSlice TString) [GSlice TString [GString "a"]].

(** A [[]bool] with the one element [false]. *)
Definition exampleBools : value := GSlice TBool [GBool false].

(** The index of the first field, from index [i], whose json tag is
    not [-] and names [key]. *)
Fixpoint jsonIndex (key : string) (i : nat) (fields : list (StructField * value))
  : option nat :=
  match fields with
  | [] => None
  | (sf, _) :: fields' =>
      if (negb (String.eqb (Tag_json sf) "-")
          && negb (String.eqb (upToComma (Tag_json sf)) "")
          && String.eqb (upToComma (Tag_json sf)) key)%bool
      then Some i
      else jsonIndex key (S i) fields'
  end.

End ReadingNotions.

(** Case analysis on the kind of a number. *)
Ltac destruct_kinds :=
  repeat match goal with
    | k : reflect.IntKind |- _ => destruct k
    | k : reflect.UintKind |- _ => destruct k
    | k : reflect.FloatKind |- _ => destruct k
    | k : reflect.ComplexKind |- _ => destruct k
    | k : reflect.OtherKind |- _ => destruct k
    end.

(** ** Places *)

Section PlaceNotions.

Import reflect.

Definition step_eqb (a b : step) : bool :=
  match a, b with
  | StepElem, StepElem => true
  | StepIndex i, StepIndex j => (i =? j)%nat
  | StepMapIndex k, StepMapIndex k' => String.eqb k k'
  | StepField i, StepField j => (i =? j)%nat
  | _, _ => false
  end.

(** Two places of a document that part at some step: neither lies
    in the other. *)
Fixpoint apart (l l' : list step) : bool :=
  match l, l' with
  | a :: r, b :: r' => if step_eqb a b then apart r r' else true
  | _, _ => false
  end.

End PlaceNotions.


(* ================================================================= *)
(** * Properties *)

(** ** Escaping *)

Lemma replace_tilde (s : string) :
  strings.replaceFrom "~" "~0" None 0 s = flatMap escapeTilde s.
Proof.
  induction s as [|c s IH]; [reflexivity|].
  cbn [strings.replaceFrom strings.HasPrefix flatMap].
  unfold escapeTilde at 1.
  case_byte c "~"%char; cbn; now rewrite IH.
Qed.

Lemma replace_separator (s : string) :
  strings.replaceFrom "/" "~1" None 0 (flatMap escapeTilde s)
  = flatMap escapeByte s.
Proof.
  induction s as [|c s IH]; [reflexivity|].
  cbn [flatMap]. unfold escapeTilde at 1, escapeByte at 1.
  case_byte c "~"%char; [cbn; now rewrite IH|].
  case_byte c "/"%char; [cbn; now rewrite IH|].
  cbn. rewrite E0. cbn. now rewrite IH.
Qed.

Lemma escapeToken_bytes (s : string) : escapeToken s = flatMap escapeByte s.
Proof.
  unfold escapeToken, strings.Replace. cbn.
  now rewrite replace_tilde, replace_separator.
Qed.

Lemma restore_separator (s : string) :
  strings.replaceFrom "~1" "/" None 0 (flatMap escapeByte s)
  = flatMap escapeTilde s.
Proof.
  induction s as [|c s IH]; [reflexivity|].
  cbn [flatMap]. unfold escapeTilde at 1, escapeByte at 1.
  case_byte c "~"%char; [cbn; now rewrite IH|].
  case_byte c "/"%char; [cbn; now rewrite IH|].
  cbn. rewrite E. cbn. now rewrite IH.
Qed.

Lemma restore_tilde (s : string) :
  strings.replaceFrom "~0" "~" None 0 (flatMap escapeTilde s) = s.
Proof.
  induction s as [|c s IH]; [reflexivity|].
  cbn [flatMap]. unfold escapeTilde at 1.
  case_byte c "~"%char; [cbn; now rewrite IH|].
  cbn. rewrite E. cbn. now rewrite IH.
Qed.

Lemma unescape_escape (s : string) : unescapeToken (escapeToken s) = s.
Proof.
  rewrite escapeToken_bytes. unfold unescapeToken, strings.Replace. cbn.
  now rewrite restore_separator, restore_tilde.
Qed.

(** C5: [unescapeToken] undoes [escapeToken] on every string;
    [escapeToken] replaces [~] by [~0] and then [/] by [~1],
    [unescapeToken] replaces [~1] by [/] and then [~0] by [~];
    [escapeToken "a/b~c"] is ["a~1b~0c"], which unescapes to ["a/b~c"]. *)
Theorem escape_unescape_inverse :
  (forall s, unescapeToken (escapeToken s) = s)
  /\ (forall tok, escapeToken tok
                  = strings.Replace (strings.Replace tok "~" "~0" (-1))
                                    "/" "~1" (-1))
  /\ (forall tok, unescapeToken tok
                  = strings.Replace (strings.Replace tok "~1" "/" (-1))
                                    "~0" "~" (-1))
  /\ escapeToken "a/b~c" = "a~1b~0c"
  /\ unescapeToken "a~1b~0c" = "a/b~c".
Proof.
  split; [exact unescape_escape|].
  repeat split; reflexivity.
Qed.


(** ** Parsing and printing *)

Lemma hasByte_app (c : ascii) (s t : string) :
  hasByte c (s ++ t)%string = hasByte c s || hasByte c t.
Proof.
  induction s as [|d s IH]; [reflexivity|].
  cbn. now rewrite IH, orb_assoc.
Qed.

Lemma escapeToken_no_separator (s : string) : hasByte "/" (escapeToken s) = false.
Proof.
  rewrite escapeToken_bytes.
  induction s as [|c s IH]; [reflexivity|].
  cbn [flatMap]. rewrite hasByte_app, IH, orb_false_r.
  unfold escapeByte.
  case_byte c "~"%char; [reflexivity|].
  case_byte c "/"%char; [reflexivity|].
  cbn. now rewrite E0.
Qed.

Lemma append_empty (s : string) : (s ++ "")%string = s.
Proof. induction s as [|c s IH]; cbn; [|rewrite IH]; reflexivity. Qed.

(** A piece without separator is read up to the next separator. *)
Lemma splitFrom_piece (t rest : string) :
  hasByte "/" t = false ->
  strings.splitFrom "/" 0 (t ++ rest)%string
  = ((t ++ fst (strings.splitFrom "/" 0 rest))%string,
     snd (strings.splitFrom "/" 0 rest)).
Proof.
  induction t as [|c t IH]; intros Hno.
  - cbn. now destruct (strings.splitFrom "/" 0 rest).
  - cbn in Hno. apply orb_false_iff in Hno as [Hc Ht].
    cbn. rewrite Hc. cbn. rewrite (IH Ht). reflexivity.
Qed.

Lemma Split_separator (rest : string) :
  strings.Split (String "/" rest) "/" = "" :: strings.Split rest "/".
Proof.
  unfold strings.Split. cbn.
  now destruct (strings.splitFrom "/" 0 rest).
Qed.

Lemma Split_piece (t rest : string) :
  hasByte "/" t = false ->
  strings.Split (t ++ String "/" rest)%string "/" = t :: strings.Split rest "/".
Proof.
  intros Hno. unfold strings.Split.
  rewrite (splitFrom_piece _ _ Hno). cbn.
  destruct (strings.splitFrom "/" 0 rest). cbn. now rewrite append_empty.
Qed.

Lemma Split_last (t : string) :
  hasByte "/" t = false -> strings.Split t "/" = [t].
Proof.
  intros Hno. unfold strings.Split.
  rewrite <- (append_empty t) at 1.
  rewrite (splitFrom_piece _ _ Hno). cbn. now rewrite append_empty.
Qed.

(** [Split] undoes [Join] on pieces that hold no separator. *)
Lemma Split_Join (l : list string) :
  l <> [] ->
  Forall (fun t => hasByte "/" t = false) l ->
  strings.Split (strings.Join l "/") "/" = l.
Proof.
  induction l as [|t l IH]; [congruence|].
  intros _ Hall. inversion Hall as [|? ? Ht Hl]; subst.
  destruct l as [|t' l].
  - cbn. now apply Split_last.
  - change (strings.Join (t :: t' :: l) "/")
      with (t ++ String "/" (strings.Join (t' :: l) "/"))%string.
    rewrite (Split_piece _ _ Ht), IH; [reflexivity|congruence|assumption].
Qed.

Lemma parse_String (p : Pointer) : parse (Pointer_String p) = (p, None).
Proof.
  destruct p as [|t p]; [reflexivity|].
  unfold Pointer_String. cbn -[strings.Join map strings.Split].
  unfold separator. rewrite Split_Join.
  - rewrite map_map. f_equal.
    rewrite <- (map_id (t :: p)) at 2.
    apply map_ext. intros. apply unescape_escape.
  - discriminate.
  - apply Forall_forall. intros x Hx.
    apply in_map_iff in Hx as [y [<- _]]. apply escapeToken_no_separator.
Qed.

(** The string of a pointer is empty or starts with the separator. *)
Lemma Pointer_String_shape (p : Pointer) :
  Pointer_String p = "" \/ exists rest, Pointer_String p = String "/" rest.
Proof.
  destruct p as [|t p]; [now left|right].
  unfold Pointer_String. cbn -[strings.Join]. eauto.
Qed.


(** ** Slices as lists *)

Lemma firstn_make (n m : nat) : n <= m -> firstn n (make m) = make n.
Proof.
  unfold make. revert m. induction n as [|n IH]; intros [|m] Hle;
    cbn; try reflexivity; try lia.
  f_equal. apply IH. lia.
Qed.

Lemma skipn_make (n m : nat) : skipn n (make m) = make (m - n).
Proof.
  unfold make. revert m. induction n as [|n IH]; intros [|m];
    cbn; try reflexivity. apply IH.
Qed.

Lemma length_make (n : nat) : length (make n) = n.
Proof. apply repeat_length. Qed.

(** A copy into a new slice of the same length is the source. *)
Lemma copy_make (src : list string) : copy (make (length src)) src = src.
Proof.
  unfold copy. rewrite length_make, Nat.min_id, firstn_all.
  rewrite skipn_all2 by (rewrite length_make; lia). apply app_nil_r.
Qed.

(** ** [Parent] *)

Lemma Parent_last (p : Pointer) (t : string) : Parent (p ++ [t]) = p ++ [""].
Proof.
  unfold Parent, IsEmpty. rewrite length_app. cbn [length].
  replace (length p + 1 =? 0)%nat with false by (symmetry; apply Nat.eqb_neq; lia).
  replace (length p + 1 - 1) with (length p) by lia.
  rewrite firstn_make by lia. rewrite skipn_make.
  replace (length p + 1 - length p) with 1 by lia.
  unfold copy. rewrite length_make, length_app. cbn [length].
  replace (Nat.min (length p) (length p + 1)) with (length p) by lia.
  rewrite firstn_app, firstn_all, Nat.sub_diag. cbn [firstn].
  rewrite skipn_all2 by (rewrite length_make; lia).
  now rewrite !app_nil_r.
Qed.

(** C2, as the code has it: [Parent] of the root is the root, but
    [Parent] of a pointer of [n > 0] tokens has [n] tokens again, the
    first [n-1] tokens of the pointer and the empty token, since the
    new slice is made with [len(p)] elements and [len(p)-1] of them
    are copied: the parent of [/foo/bar] prints as [/foo/], not as
    [/foo]. *)
Theorem Parent_keeps_length :
  Parent [] = []
  /\ (forall (p : Pointer) (t : string),
         Parent (p ++ [t]) = p ++ [""]
         /\ length (Parent (p ++ [t])) = length (p ++ [t]))
  /\ Parent ["foo"; "bar"] = ["foo"; ""]
  /\ Pointer_String (Parent ["foo"; "bar"]) = "/foo/"
  /\ Pointer_String (Parent ["foo"]) = "/".
Proof.
  split; [reflexivity|]. split; [|repeat split; reflexivity].
  intros p t. rewrite Parent_last. split; [reflexivity|].
  now rewrite !length_app.
Qed.

(** ** [RelativeTo] *)

Lemma isPrefix_app (q r : list string) : isPrefix q (q ++ r) = true.
Proof.
  induction q as [|t q IH]; [reflexivity|].
  cbn. now rewrite String.eqb_refl, IH.
Qed.

Lemma isPrefix_inv (q p : list string) :
  isPrefix q p = true -> p = q ++ skipn (length q) p.
Proof.
  revert p. induction q as [|part q IH]; intros p Hpre; [reflexivity|].
  destruct p as [|t p]; [discriminate|].
  cbn in Hpre. apply andb_true_iff in Hpre as [Ht Hq].
  apply String.eqb_eq in Ht. subst. cbn. f_equal. now apply IH.
Qed.

(** The loop of [RelativeTo] within the bounds of [p]: it stops on the
    first token that differs; [numCmnParts] ends as the last index it
    compared, and stays as it was when there is nothing to compare. *)
Lemma RelativeTo_loop_spec (q p : list string) (i n : nat) :
  i + length q <= length p ->
  RelativeTo_loop p i q n
  = Return (if isPrefix q (skipn i p)
            then Some (match q with [] => n | _ :: _ => i + length q - 1 end)
            else None).
Proof.
  revert i n. induction q as [|part q IH]; intros i n Hlen; [reflexivity|].
  cbn [RelativeTo_loop length] in *. unfold index.
  destruct (nth_error p i) as [t|] eqn:Et.
  2:{ apply nth_error_None in Et. lia. }
  apply nth_error_split in Et as (l1 & l2 & -> & <-).
  rewrite skipn_app, skipn_all, Nat.sub_diag. cbn.
  destruct (String.eqb t part); cbn; [|reflexivity].
  rewrite IH by (rewrite !length_app in *; cbn in *; lia).
  replace (l1 ++ t :: l2) with ((l1 ++ [t]) ++ l2) by (now rewrite <- app_assoc).
  replace (S (length l1)) with (length (l1 ++ [t])) by (rewrite length_app; cbn; lia).
  rewrite skipn_app, skipn_all, Nat.sub_diag. cbn [skipn app].
  destruct (isPrefix q l2); [|reflexivity].
  rewrite length_app. cbn [length].
  destruct q; cbn [length]; do 2 f_equal; lia.
Qed.

(** [RelativeTo] on a prefix that is not empty: the tokens after the
    prefix, or a plain error. *)
Lemma RelativeTo_from_nonempty (p q : Pointer) :
  q <> [] ->
  RelativeTo_from p q
  = if (length p <? length q)%nat then Return ([], Some (doesNotStartWith p q))
    else if isPrefix q p then Return (skipn (length q) p, None)
         else Return (p, Some (doesNotStartWith p q)).
Proof.
  intros Hq. unfold RelativeTo_from.
  destruct (length p <? length q)%nat eqn:Elen; [reflexivity|].
  apply Nat.ltb_ge in Elen.
  rewrite RelativeTo_loop_spec by (cbn; lia). cbn [bind skipn].
  destruct (isPrefix q p); [|reflexivity].
  destruct q as [|part q]; [congruence|]. cbn [length] in *.
  unfold sliceFrom.
  replace (0 + S (length q) - 1 + 1) with (S (length q)) by lia.
  replace (length p <? S (length q))%nat with false
    by (symmetry; apply Nat.ltb_ge; lia).
  cbn [bind]. now rewrite copy_make.
Qed.

(** [RelativeTo] on the empty prefix: [numCmnParts] is still [0] after
    the loop and the slice starts at [numCmnParts+1]. *)
Lemma RelativeTo_from_empty (p : Pointer) :
  RelativeTo_from p []
  = match p with
    | [] => Panic "slice bounds out of range"
    | _ :: p' => Return (p', None)
    end.
Proof.
  destruct p as [|t p]; [reflexivity|].
  unfold RelativeTo_from, sliceFrom. cbn -[copy make]. now rewrite copy_make.
Qed.


Section SyntaxProperties.

Context {platform : Platform}.

(** On a string that starts with the separator, [New] is [parse]. *)
Lemma New_bare (rest : string) :
  New (AString (String "/" rest)) = Return (parse (String "/" rest)).
Proof.
  unfold New.
  destruct (String.eqb (String "/" rest) "#") eqn:E; [|reflexivity].
  apply String.eqb_eq in E. discriminate.
Qed.

(** [New] reads back the string of any pointer. *)
Lemma New_String (p : Pointer) :
  New (AString (Pointer_String p)) = Return (p, None).
Proof.
  destruct (Pointer_String_shape p) as [E|[rest E]].
  - rewrite E. destruct p; [reflexivity|discriminate].
  - rewrite E, New_bare, <- E. now rewrite parse_String.
Qed.

(** C1: for a pointer [p] that [New] makes from a string that starts
    with [/] or with [#], [New] succeeds on [p.String()], and the
    pointer it gives has the same string as [p] (it is [p]). *)
Theorem parse_String_round_trip (s : string) (p : Pointer) :
  strings.HasPrefix s "/" = true \/ strings.HasPrefix s "#" = true ->
  New (AString s) = Return (p, None) ->
  exists q, New (AString (Pointer_String p)) = Return (q, None)
            /\ Pointer_String q = Pointer_String p
            /\ q = p.
Proof.
  intros _ _. exists p. now rewrite New_String.
Qed.

(** [New] on a string returns, with a pointer or with an error of
    type [ErrInvalidJSONPointer]. *)
Lemma New_string_returns (s : string) :
  (exists p, New (AString s) = Return (p, None))
  \/ (exists e, New (AString s) = Return ([], Some e)
                /\ errTypeOf e = Some ErrInvalidJSONPointer).
Proof.
  assert (Hparse : forall str,
             (exists p, parse str = (p, None))
             \/ (exists e, parse str = ([], Some e)
                           /\ errTypeOf e = Some ErrInvalidJSONPointer)).
  { intros [|c str]; [left; now exists []|].
    unfold parse. destruct (Ascii.eqb c "/"); cbn; eauto. }
  unfold New. destruct s as [|c s]; [left; now exists []|].
  destruct (String.eqb (String c s) "#"); [left; now exists []|].
  destruct (Ascii.eqb c "/").
  - destruct (Hparse (String c s)) as [[p ->]|[e [-> He]]]; eauto.
  - destruct (url_Parse (String c s)) as [u|uerr]; [|right; eauto].
    destruct (Hparse (Fragment u)) as [[p ->]|[e [-> He]]]; eauto.
Qed.

(** [parse] fails exactly on a non-empty string that does not start
    with the separator. *)
Lemma parse_fails_iff (str : string) :
  (exists p e, parse str = (p, Some e))
  <-> str <> "" /\ strings.HasPrefix str "/" = false.
Proof.
  destruct str as [|c str]; cbn.
  - split; [intros (p & e & [=])|intros [[] _]; reflexivity].
  - rewrite Ascii.eqb_sym.
    destruct (Ascii.eqb "/" c); cbn; split.
    + intros (p & e & [=]).
    + intros [_ [=]].
    + intros _. split; [discriminate|reflexivity].
    + intros _. eauto.
Qed.

(** C7: [New] fails on a string exactly when the string is read as a
    URL (it is not empty, not [#], and does not start with [/]) and
    either [url.Parse] rejects it or its fragment is not empty and does
    not start with [/]; every failure is of type
    [ErrInvalidJSONPointer]; a string that starts with [/] always
    parses, whatever follows. *)
Theorem New_string_fails_iff (s : string) :
  ((exists p e, New (AString s) = Return (p, Some e))
   <-> (s <> "" /\ s <> "#" /\ strings.HasPrefix s "/" = false)
       /\ ((exists uerr, url_Parse s = inr uerr)
           \/ (exists u, url_Parse s = inl u
                         /\ Fragment u <> ""
                         /\ strings.HasPrefix (Fragment u) "/" = false)))
  /\ (forall p e, New (AString s) = Return (p, Some e) ->
                  errTypeOf e = Some ErrInvalidJSONPointer)
  /\ (strings.HasPrefix s "/" = true ->
      New (AString s)
      = Return (map unescapeToken
                    (strings.Split (substring 1 (String.length s - 1) s) "/"),
                None)).
Proof.
  split; [|split].
  - unfold New. destruct s as [|c s].
    { split; [intros (p & e & [=])|intros [[[] _] _]; reflexivity]. }
    destruct (String.eqb (String c s) "#") eqn:Ehash.
    { apply String.eqb_eq in Ehash.
      split; [intros (p & e & [=])|intros [(_ & Hn & _) _]; congruence]. }
    apply String.eqb_neq in Ehash.
    cbn [strings.HasPrefix]. rewrite andb_true_r.
    destruct (Ascii.eqb c "/") eqn:Ec.
    { apply Ascii.eqb_eq in Ec. subst c. cbn.
      split; [intros (p & e & [=])|intros [(_ & _ & [=]) _]]. }
    split.
    + intros (p & e & Hr). split; [repeat split; congruence|].
      destruct (url_Parse (String c s)) as [u|uerr]; [right|left; eauto].
      exists u. split; [reflexivity|].
      apply parse_fails_iff. exists p, e. congruence.
    + intros [_ [[uerr ->]|(u & -> & Hu)]]; [eauto|].
      apply parse_fails_iff in Hu as (p & e & ->). eauto.
  - intros p e Hr.
    destruct (New_string_returns s) as [[q Hq]|(e' & He' & Ht)];
      rewrite Hr in *; congruence.
  - destruct s as [|c s]; [discriminate|].
    cbn [strings.HasPrefix]. rewrite andb_true_r.
    intros Ec. apply Ascii.eqb_eq in Ec. subst c.
    rewrite New_bare. unfold parse, separator. cbn [Ascii.eqb negb].
    cbn -[strings.Split substring]. rewrite Nat.sub_0_r.
    replace (substring 1 (String.length s) (String "/" s)) with s; [reflexivity|].
    cbn. clear. induction s as [|c s IH]; [reflexivity|].
    cbn. now rewrite <- IH.
Qed.

(** C10: on a value that is not a [Pointer], a [string] or a
    [*url.URL], [New] returns an error of type [ErrInvalidJSONPointer]
    that says [invalid value for pointer], [RelativeTo] returns an
    error, and so does [Join] when the elements before that value
    return (none is a nil [*url.URL]). *)
Theorem unsupported_argument_is_an_error (typeName : string) (p : Pointer) :
  New (AOther typeName)
  = Return ([], Some (newError ErrInvalidJSONPointer
                        ("invalid value for pointer: " ++ typeName)))
  /\ RelativeTo p (AOther typeName)
     = Return ([], Some (errorString ("invalid value for pointer: " ++ typeName)))
  /\ Join p [AOther typeName]
     = Return ([], Some (errorString ("invalid value for pointer: " ++ typeName)))
  /\ (forall before after,
         ~ In (AURL None) before ->
         exists e, Join p (before ++ AOther typeName :: after)
                   = Return ([], Some e)).
Proof.
  repeat split.
  intros before after Hnil. unfold Join.
  generalize (copy (make (length p)) p) as newPtr.
  induction before as [|elm before IH]; intros newPtr.
  - cbn. eauto.
  - assert (Hrest : ~ In (AURL None) before) by (intros Hin; apply Hnil; now right).
    cbn [app Join_loop].
    destruct elm as [e|v|[u|]|t].
    + apply (IH Hrest).
    + destruct (New_string_returns v) as [[q ->]|(e & -> & _)]; cbn.
      * apply (IH Hrest).
      * eauto.
    + cbn. destruct (parse (Fragment u)) as [q [e|]]; cbn; [eauto|apply (IH Hrest)].
    + exfalso. apply Hnil. now left.
    + eauto.
Qed.


(** C3, as the code has it: on the empty prefix [RelativeTo] does not
    return the tokens of [p]: it drops the first token of [p], and it
    panics when [p] is empty too, since [numCmnParts] is [0] both
    after one matching token and after none. *)
Theorem RelativeTo_empty_prefix :
  RelativeTo ["a"; "b"] (APointer []) = Return (["b"], None)
  /\ RelativeTo ["a"; "b"] (AString "") = Return (["b"], None)
  /\ RelativeTo [] (APointer []) = Panic "slice bounds out of range"
  /\ (forall (t : string) (p : Pointer),
         RelativeTo (t :: p) (APointer []) = Return (p, None)).
Proof.
  repeat split. intros t p. cbn [RelativeTo].
  now rewrite RelativeTo_from_empty.
Qed.

(** On a prefix given as a pointer that is not empty, [RelativeTo]
    returns the tokens after the prefix when the prefix matches, and a
    plain error otherwise. *)
Lemma RelativeTo_nonempty_prefix (p q : Pointer) :
  q <> [] ->
  RelativeTo p (APointer q)
  = if ((length q <=? length p)%nat && isPrefix q p)%bool
    then Return (skipn (length q) p, None)
    else Return (if (length p <? length q)%nat then [] else p,
                 Some (doesNotStartWith p q)).
Proof.
  intros Hq. cbn [RelativeTo]. rewrite (RelativeTo_from_nonempty _ _ Hq).
  rewrite Nat.leb_antisym.
  destruct (length p <? length q)%nat; [reflexivity|].
  now destruct (isPrefix q p).
Qed.


(** Every error of [New] is an [Error] of type [ErrInvalidJSONPointer];
    it has a cause only when [url.Parse] fails. *)
Lemma New_error (val : arg) (p : Pointer) (e : error) :
  New val = Return (p, Some e) ->
  exists msg cause, e = Error msg cause ErrInvalidJSONPointer
                    /\ (cause <> None ->
                        exists s, val = AString s /\ url_Parse s = inr
                                    match cause with Some c => c | None => e end).
Proof.
  assert (Hparse : forall str q, parse str = (q, Some e) ->
                     e = newError ErrInvalidJSONPointer
                           "non-empty references must begin with a '/' character").
  { intros [|c str] q; cbn; [intros [=]|].
    destruct (Ascii.eqb c "/"); cbn; now intros [=]. }
  assert (Hnew : forall msg, e = newError ErrInvalidJSONPointer msg ->
                   exists msg cause, e = Error msg cause ErrInvalidJSONPointer
                     /\ (cause <> None ->
                         exists s, val = AString s /\ url_Parse s = inr
                           match cause with Some c => c | None => e end)).
  { intros msg ->. exists msg, None. split; [reflexivity|congruence]. }
  destruct val as [v|v|[u|]|t]; cbn -[parse].
  - intros [=].
  - destruct v as [|c v]; [intros [=]|].
    destruct (String.eqb _ _); [intros [=]|].
    destruct (Ascii.eqb c "/").
    + intros Hr. eapply Hnew, (Hparse (String c v) p). congruence.
    + destruct (url_Parse (String c v)) as [u|uerr] eqn:Eu.
      * intros Hr. eapply Hnew, (Hparse (Fragment u) p). congruence.
      * intros [= _ <-]. do 2 eexists. split; [reflexivity|].
        intros _. eexists. split; [reflexivity|exact Eu].
  - intros Hr. eapply Hnew, (Hparse (Fragment u) p). congruence.
  - intros [=].
  - intros [= _ <-]. eapply Hnew. reflexivity.
Qed.

(** An error of [Join] is an error of [New] on one of the elements, or
    the plain error for a value of another type. *)
Lemma Join_error (p : Pointer) (elems : list arg) (q : Pointer) (e : error) :
  Join p elems = Return (q, Some e) ->
  (exists msg cause, e = Error msg cause ErrInvalidJSONPointer)
  \/ (exists msg, e = errorString msg).
Proof.
  unfold Join. generalize (copy (make (length p)) p) as newPtr.
  induction elems as [|elm elems IH]; intros newPtr; [intros [=]|].
  cbn [Join_loop].
  destruct elm as [v|v|u|t].
  - apply IH.
  - destruct (New (AString v)) as [[elmPtr [e'|]]|] eqn:En; cbn.
    + intros [= _ <-]. left. apply New_error in En as (msg & cause & -> & _).
      eauto.
    + apply IH.
    + intros [=].
  - destruct (New (AURL u)) as [[elmPtr [e'|]]|] eqn:En; cbn.
    + intros [= _ <-]. left. apply New_error in En as (msg & cause & -> & _).
      eauto.
    + apply IH.
    + intros [=].
  - intros [= _ <-]. right. now eexists.
Qed.

(** An error of [RelativeTo] is an error of [New] on the prefix, or a
    plain error. *)
Lemma RelativeTo_error (p : Pointer) (other : arg) (q : Pointer) (e : error) :
  RelativeTo p other = Return (q, Some e) ->
  (exists msg cause, e = Error msg cause ErrInvalidJSONPointer)
  \/ (exists msg, e = errorString msg).
Proof.
  assert (Hfrom : forall o, RelativeTo_from p o = Return (q, Some e) ->
                            exists msg, e = errorString msg).
  { intros o. unfold RelativeTo_from.
    destruct (_ <? _)%nat; [intros [= _ <-]; now eexists|].
    destruct (RelativeTo_loop p 0 o 0) as [[n|]|]; cbn; [| |intros [=]].
    - destruct (sliceFrom p (n + 1)); cbn; intros [=].
    - intros [= _ <-]. now eexists. }
  destruct other as [v|v|u|t]; cbn [RelativeTo].
  - intros Hr. right. eapply Hfrom, Hr.
  - destruct (New (AString v)) as [[otherPtr [e'|]]|] eqn:En; cbn.
    + intros [= _ <-]. left. apply New_error in En as (msg & cause & -> & _).
      eauto.
    + intros Hr. right. eapply Hfrom, Hr.
    + intros [=].
  - destruct (New (AURL u)) as [[otherPtr [e'|]]|] eqn:En; cbn.
    + intros [= _ <-]. left. apply New_error in En as (msg & cause & -> & _).
      eauto.
    + intros Hr. right. eapply Hfrom, Hr.
    + intros [=].
  - intros [= _ <-]. right. now eexists.
Qed.


End SyntaxProperties.


(** ** Traversal *)

(** [getValue] on a pointer or on an interface that is not nil is
    [getValue] on [doc.Elem()]. *)
Lemma getValue_Elem (v : reflect.Value_) (key : string) :
  (reflect.Value_Kind (Some v) = reflect.Ptr
   \/ reflect.Value_Kind (Some v) = reflect.Interface) ->
  reflect.IsNil v = false ->
  getValue (Some v) key = getValue (reflect.Elem v) key.
Proof.
  destruct v as [d addr ro at_]. unfold reflect.IsNil, reflect.Elem. cbn.
  destruct d as [| | | | | | | | | |t [d'|]|n m [d'|]|];
    try reflexivity; try discriminate;
    (intros [Hk|Hk]; try discriminate Hk;
     try (destruct k; discriminate Hk)).
Qed.

(** [getValue] on an array or a slice, by the result of [strconv.Atoi]
    on the token: a token that is not an integer and an index at or
    above the length are errors of type [ErrGet]; a negative index
    passes the test against the length and [Value.Index] panics. *)
Lemma getValue_sequence (v : reflect.Value_) (key : string) :
  reflect.Value_Kind (Some v) = reflect.Array
  \/ reflect.Value_Kind (Some v) = reflect.Slice ->
  getValue (Some v) key
  = match strconv.Atoi key with
    | inr _ => Return (None, Some (newError ErrGet ("invalid array index: " ++ key)))
    | inl i =>
        if (reflect.Len v <=? i)%Z
        then Return (None, Some (newError ErrGet
                                   ("index " ++ strconv.FormatInt i
                                      ++ " exceeds array length of "
                                      ++ strconv.FormatInt (reflect.Len v))))
        else elm <- reflect.Index v i ;; Return (elm, None)
    end.
Proof.
  destruct v as [d addr ro at_]. cbn.
  destruct d; try reflexivity;
    (intros [Hk|Hk]; try discriminate Hk; destruct k; discriminate Hk).
Qed.

Lemma Index_negative (v : reflect.Value_) (i : Z) :
  (i < 0)%Z -> exists reason, reflect.Index v i = Panic reason.
Proof.
  intros Hneg. unfold reflect.Index.
  destruct (reflect.data v); eauto;
    (replace (i <? 0)%Z with true by (symmetry; apply Z.ltb_lt; lia));
    cbn; eauto.
Qed.

(** C4, as the code has it: against [{"foo": ["bar", "baz"]}] the
    tokens [bar] and [3] give the errors of type [ErrGet] that the
    claim states, but the token [-1] is an integer for [strconv.Atoi]
    and is below the length: [Get] panics in [Value.Index] and returns
    no error. *)
Theorem Get_negative_index_panics :
  Get ["foo"; "bar"] (Some exampleDocument)
  = Return (None, Some (newError ErrGet "invalid array index: bar"))
  /\ Get ["foo"; "3"] (Some exampleDocument)
     = Return (None, Some (newError ErrGet "index 3 exceeds array length of 2"))
  /\ strconv.Atoi "-1" = inl (-1)%Z
  /\ Get ["foo"; "-1"] (Some exampleDocument)
     = Panic "reflect: slice index out of range".
Proof. repeat split. Qed.

Section TraversalProperties.

Context {platform : Platform}.

Import reflect.






(** ** The errors of the package *)

Lemma getValue_tags_error (doc : Value_) (key : string)
      (fields : list (StructField * value)) (i : nat) (v : Value) (e : error) :
  getValue_tags doc key i fields = Return (v, Some e) -> isGetError e.
Proof.
  revert i. induction fields as [|[sf d] fields IH]; intros i; cbn.
  - intros [= _ <-]. now eexists.
  - destruct (_ && _)%bool; [|apply IH].
    destruct (_ && _)%bool; [|apply IH].
    destruct (Field doc i); cbn; intros [=].
Qed.

Lemma getValue_valid_error (n : nat) :
  forall d addr ro at_ key v e,
    elemDepth d <= n ->
    getValue_valid d addr ro at_ key = Return (v, Some e) -> isGetError e.
Proof.
  induction n as [|n IH]; intros d addr ro at_ key v e Hdepth;
    destruct d as [| | | | | | | | | |t [d'|]|nm m [d'|]|];
    cbn [elemDepth] in Hdepth; try lia;
    cbn -[strconv.Atoi Index MapIndex FieldByName getValue_tags Len].
  all: try (intros [= _ <-]; now eexists).
  all: try (apply IH; lia).
  all: try (destruct (strconv.Atoi key);
            [destruct (_ <=? _)%Z;
             [intros [= _ <-]; now eexists
             |destruct (Index _ _); cbn; intros [=]]
            |intros [= _ <-]; now eexists]).
  all: try (destruct (MapIndex _ _) as [elmVal|]; cbn; [|intros [=]];
            destruct (IsValid elmVal); cbn; intros [=]; subst; now eexists).
  all: destruct (FieldByName _ _) as [f|]; cbn -[getValue_tags]; [|intros [=]];
    (destruct (IsValid f); [intros [=]|apply getValue_tags_error]).
Qed.

Lemma getValue_error (doc : Value) (key : string) (v : Value) (e : error) :
  getValue doc key = Return (v, Some e) -> isGetError e.
Proof.
  destruct doc as [doc|]; cbn.
  - now apply (getValue_valid_error (elemDepth (data doc))).
  - intros [= _ <-]. now eexists.
Qed.

Lemma getValues_error (p : Pointer) (docVal v : Value) (e : error) :
  getValues docVal p = Return (v, Some e) -> isGetError e.
Proof.
  revert docVal. induction p as [|part p IH]; intros docVal; cbn.
  - intros [=].
  - destruct (getValue docVal part) as [[docVal' [e'|]]|] eqn:Eg; cbn.
    + intros [= _ <-]. eapply getValue_error, Eg.
    + apply IH.
    + intros [=].
Qed.

(** Every error of [Get] is made by [newError] with type [ErrGet]. *)
Lemma Get_error (p : Pointer) (doc r : option reflect.value) (e : error) :
  Get p doc = Return (r, Some e) -> isGetError e.
Proof.
  unfold Get.
  destruct (getValues (ValueOf doc) p) as [[resultVal [e'|]]|] eqn:Eg; cbn.
  - intros [= _ <-]. eapply getValues_error, Eg.
  - destruct (CanInterface resultVal) as [[|]|]; cbn; intros [=].
    subst. now eexists.
  - intros [=].
Qed.

(** Every error of [setValue] is a plain error or is made by
    [newError] with type [ErrSet]. *)
Lemma setValue_error (doc : Value) (value root root' : option reflect.value)
      (e : error) :
  setValue doc value root = (Some e, root') ->
  (exists msg, e = errorString msg) \/ (exists msg, e = newError ErrSet msg).
Proof.
  unfold setValue.
  match goal with |- context [match ?x with Some _ => _ | None => _ end = _] =>
    destruct x as [doc'|] end; [|intros [= <- _]; left; now eexists].
  destruct (negb (CanSet doc')); [intros [= <- _]; left; now eexists|].
  destruct (ValueOf value) as [srcVal|]; [|intros [= <- _]; left; now eexists].
  generalize (indirect (Some srcVal)) as ind; intros ind.
  unfold typeMismatch.
  destruct (data doc'); try (destruct (negb _));
    try (intros [= <- _]; right; now eexists); try solve [intros [=]].
  all: destruct ind as [[sd ? ? ?]|]; cbn [option_map data];
    [destruct sd|]; crunch_setValue.
  all: try solve [intros [=]]; intros [= <- _]; right; now eexists.
Qed.

(** Every error of [Set] is a plain error or is made by [newError]
    with type [ErrGet] or [ErrSet]. *)
Lemma Set_error (p : Pointer) (doc value doc' : option reflect.value) (e : error) :
  Set_ p doc value = Return (Some e, doc') ->
  (exists msg, e = errorString msg)
  \/ (exists msg, e = newError ErrGet msg)
  \/ (exists msg, e = newError ErrSet msg).
Proof.
  unfold Set_.
  destruct (getValues (ValueOf doc) p) as [[docVal [e'|]]|] eqn:Eg; cbn.
  - intros [= <- _]. right; left. eapply getValues_error, Eg.
  - intros [= Hs]. apply setValue_error in Hs. tauto.
  - intros [=].
Qed.

(** [setValue] leaves the document as it was when it returns an
    error. *)
Lemma setValue_unchanged_on_error (doc : Value)
      (value root root' : option reflect.value) (e : error) :
  setValue doc value root = (Some e, root') -> root' = root.
Proof.
  unfold setValue.
  match goal with |- context [match ?x with Some _ => _ | None => _ end = _] =>
    destruct x as [doc'|] end; [|now intros [= _ <-]].
  destruct (negb (CanSet doc')); [now intros [= _ <-]|].
  destruct (ValueOf value) as [srcVal|]; [|now intros [= _ <-]].
  generalize (indirect (Some srcVal)) as ind; intros ind.
  destruct (data doc'); try (destruct (negb _));
    try (now intros [= _ <-]); try solve [intros [=]].
  all: destruct ind as [[sd ? ? ?]|]; cbn [option_map data];
    [destruct sd|]; crunch_setValue.
  all: try solve [intros [=]]; now intros [= _ <-].
Qed.


End TraversalProperties.


(* ================================================================= *)
(** ** Pointers in memory: what the derived pointers share *)

Module MemProperties.

Import Mem.

Lemma extends_refl (h : heap) : extends h h.
Proof. exists []. now rewrite app_nil_r. Qed.

Lemma extends_alloc (h0 h : heap) (xs : list string) :
  extends h0 h -> extends h0 (h ++ [xs]).
Proof. intros [new ->]. exists (new ++ [xs]). now rewrite app_assoc. Qed.

Lemma extends_length (h0 h : heap) : extends h0 h -> length h0 <= length h.
Proof. intros [new ->]. rewrite length_app. lia. Qed.

Lemma updateNth_app {A : Type} (f : A -> A) (l1 l2 : list A) (i : nat) :
  length l1 <= i ->
  reflect.updateNth i f (l1 ++ l2) = l1 ++ reflect.updateNth (i - length l1) f l2.
Proof.
  revert i. induction l1 as [|x l1 IH]; intros i Hi; cbn.
  - now rewrite Nat.sub_0_r.
  - destruct i as [|i]; cbn in *; [lia|]. f_equal. apply IH. lia.
Qed.

Lemma updateNth_id {A : Type} (f : A -> A) (l : list A) (i : nat) :
  (forall x, f x = x) -> reflect.updateNth i f l = l.
Proof.
  intros Hf. revert i. induction l as [|x l IH]; intros [|i]; cbn;
    try reflexivity; [now rewrite Hf|now rewrite IH].
Qed.

(** A write into an array that is not one of [h0]. *)
Lemma extends_write (h0 h : heap) (a i : nat) (xs : list string) :
  length h0 <= a -> extends h0 h -> extends h0 (writeArray a i xs h).
Proof.
  intros Ha [new ->]. unfold writeArray. rewrite updateNth_app by exact Ha.
  now eexists.
Qed.

Lemma writeArray_nothing (a i : nat) (h : heap) : writeArray a i [] h = h.
Proof.
  unfold writeArray. apply updateNth_id. intros arr. cbn.
  rewrite Nat.add_0_r. apply firstn_skipn.
Qed.

(** A slice of [h] reads the same in a heap that extends [h]. *)
Lemma read_extends (h h' : heap) (s : slice) :
  extends h h' -> array s < length h -> read s h' = read s h.
Proof.
  intros [new ->] Hs. unfold read. now rewrite app_nth1.
Qed.

Lemma keeps_ret {A : Type} (h0 : heap) (a : A) (Q : A -> Prop) :
  Q a -> keeps h0 (ret a) Q.
Proof. intros Ha h Hext. cbn. auto. Qed.

Lemma keeps_panic {A : Type} (h0 : heap) (reason : string) (Q : A -> Prop) :
  keeps h0 (panic reason) Q.
Proof. intros h Hext. exact I. Qed.

Lemma keeps_bind {A B : Type} (h0 : heap) (m : M A) (k : A -> M B)
      (P : A -> Prop) (Q : B -> Prop) :
  keeps h0 m P -> (forall a, P a -> keeps h0 (k a) Q) ->
  keeps h0 (mbind m k) Q.
Proof.
  intros Hm Hk h Hext. unfold mbind. specialize (Hm h Hext).
  destruct (m h) as [[a h']|]; [|exact I].
  destruct Hm as [Hext' Ha]. exact (Hk a Ha h' Hext').
Qed.

Lemma keeps_weaken {A : Type} (h0 : heap) (m : M A) (P Q : A -> Prop) :
  keeps h0 m P -> (forall a, P a -> Q a) -> keeps h0 m Q.
Proof.
  intros Hm HPQ h Hext. specialize (Hm h Hext).
  destruct (m h) as [[a h']|]; [|exact I]. destruct Hm. auto.
Qed.

Lemma keeps_alloc (h0 : heap) (xs : list string) :
  keeps h0 (alloc xs) (fun s => length h0 <= array s).
Proof.
  intros h Hext. cbn. split; [now apply extends_alloc|].
  now apply extends_length.
Qed.

Lemma keeps_copy (h0 : heap) (dst src : slice) :
  length h0 <= array dst -> keeps h0 (copy dst src) (fun _ => True).
Proof.
  intros Hdst h Hext. cbn. split; [|exact I]. now apply extends_write.
Qed.

Lemma keeps_sliceTo (h0 : heap) (s : slice) (high : nat) :
  keeps h0 (sliceTo s high) (fun s' => array s' = array s).
Proof.
  unfold sliceTo. destruct (cap s <? high)%nat;
    [apply keeps_panic|now apply keeps_ret].
Qed.

Lemma keeps_sliceFrom (h0 : heap) (s : slice) (low : nat) :
  keeps h0 (sliceFrom s low) (fun s' => array s' = array s).
Proof.
  unfold sliceFrom. destruct (len s <? low)%nat;
    [apply keeps_panic|now apply keeps_ret].
Qed.

Section Functions.

Context {platform : Platform}.
Variable growslice : nat -> nat -> nat.

Lemma keeps_append (h0 : heap) (s : slice) (xs : heap -> list string) :
  length h0 <= array s ->
  keeps h0 (fun h => append growslice s (xs h) h)
        (fun s' => length h0 <= array s').
Proof.
  intros Hs h Hext. unfold append.
  destruct (len s + length (xs h) <=? cap s)%nat; cbn.
  - split; [now apply extends_write|exact Hs].
  - split; [now apply extends_alloc|now apply extends_length].
Qed.

Lemma keeps_parse (h0 : heap) (str : string) :
  keeps h0 (parse str) (newOrNil h0).
Proof.
  unfold parse. destruct str as [|c str]; [apply keeps_ret; now left|].
  destruct (negb (Ascii.eqb c "/")); [apply keeps_ret; now left|].
  eapply keeps_bind; [apply keeps_alloc|]. intros toks Htoks. cbn beta in *.
  eapply keeps_bind with (P := fun s => length h0 <= array s).
  - intros h Hext. cbn. split; [now apply extends_write|exact Htoks].
  - intros toks' Htoks'. apply keeps_ret. now right.
Qed.

Lemma keeps_New (h0 : heap) (val : arg) : keeps h0 (New val) (newOrNil h0).
Proof.
  destruct val as [v|v|[u|]|t]; cbn [New].
  - eapply keeps_bind; [apply keeps_alloc|]. intros newPtr Hnew. cbn beta in *.
    eapply keeps_bind; [now apply keeps_copy|]. intros _ _.
    apply keeps_ret. now right.
  - destruct v as [|c v]; [apply keeps_ret; now left|].
    destruct (String.eqb _ _); [apply keeps_ret; now left|].
    destruct (Ascii.eqb c "/"); [apply keeps_parse|].
    destruct (url_Parse _); [apply keeps_parse|apply keeps_ret; now left].
  - apply keeps_parse.
  - apply keeps_panic.
  - apply keeps_ret. now left.
Qed.

Lemma keeps_Parent (h0 : heap) (p : slice) :
  keeps h0 (Parent p) (fun q => q = nilSlice \/ length h0 <= array q).
Proof.
  unfold Parent. destruct (len p =? 0)%nat; [apply keeps_ret; now left|].
  eapply keeps_bind; [apply keeps_alloc|]. intros newPtr Hnew. cbn beta in *.
  eapply keeps_bind; [apply keeps_sliceTo|]. intros dst Hdst. cbn beta in *.
  eapply keeps_bind; [apply keeps_copy; lia|]. intros _ _.
  apply keeps_ret. now right.
Qed.

Lemma keeps_Join_loop (h0 : heap) (elems : list arg) :
  forall newPtr, length h0 <= array newPtr ->
                 keeps h0 (Join_loop growslice newPtr elems) (newOrNil h0).
Proof.
  induction elems as [|elm elems IH]; intros newPtr Hnew; cbn [Join_loop].
  - apply keeps_ret. now right.
  - assert (Hstr : forall val,
               keeps h0
                 (mbind (New val)
                    (fun x => let '(elmPtr, err) := x in
                       match err with
                       | Some e => ret (nilSlice, Some e)
                       | None =>
                           mbind (fun h => append growslice newPtr (read elmPtr h) h)
                                 (fun newPtr => Join_loop growslice newPtr elems)
                       end))
                 (newOrNil h0)).
    { intros val. eapply keeps_bind; [apply keeps_New|].
      intros [elmPtr [e|]] _; [apply keeps_ret; now left|].
      eapply keeps_bind; [now apply keeps_append|]. intros; now apply IH. }
    destruct elm as [e|v|u|t].
    + eapply keeps_bind; [now apply keeps_append|]. intros; now apply IH.
    + apply Hstr.
    + apply Hstr.
    + apply keeps_ret. now left.
Qed.

Lemma keeps_Join (h0 : heap) (p : slice) (elems : list arg) :
  keeps h0 (Join growslice p elems) (newOrNil h0).
Proof.
  unfold Join.
  eapply keeps_bind; [apply keeps_alloc|]. intros newPtr Hnew. cbn beta in *.
  eapply keeps_bind; [now apply keeps_copy|]. intros _ _.
  now apply keeps_Join_loop.
Qed.

Lemma keeps_RelativeTo_loop (h0 : heap) (p : slice) (parts : list string) :
  forall i n, keeps h0 (RelativeTo_loop p i parts n) (fun _ => True).
Proof.
  induction parts as [|part parts IH]; intros i n; cbn [RelativeTo_loop].
  - now apply keeps_ret.
  - eapply keeps_bind with (P := fun _ => True).
    + intros h Hext. unfold index. destruct (nth_error _ _); [now split|exact I].
    + intros p_i _. destruct (negb _); [now apply keeps_ret|apply IH].
Qed.

Lemma keeps_doesNotStartWith (h0 : heap) (p otherPtr : slice) :
  keeps h0 (doesNotStartWith p otherPtr) (fun _ => True).
Proof.
  unfold doesNotStartWith, String_.
  eapply keeps_bind with (P := fun _ => True); [intros h Hext; now split|].
  intros s_p _.
  eapply keeps_bind with (P := fun _ => True); [intros h Hext; now split|].
  intros s_other _. now apply keeps_ret.
Qed.

Lemma keeps_RelativeTo_from (h0 : heap) (p otherPtr : slice) :
  keeps h0 (RelativeTo_from p otherPtr) (newIfNoError h0).
Proof.
  unfold RelativeTo_from.
  destruct (len p <? len otherPtr)%nat.
  { eapply keeps_bind; [apply keeps_doesNotStartWith|].
    intros err _. apply keeps_ret. discriminate. }
  eapply keeps_bind with (P := fun _ => True).
  { intros h Hext. apply (keeps_RelativeTo_loop h0 p (read otherPtr h) 0 0 h Hext). }
  intros [numCmnParts|] _.
  2:{ eapply keeps_bind; [apply keeps_doesNotStartWith|].
      intros err _. apply keeps_ret. discriminate. }
  eapply keeps_bind; [apply keeps_sliceFrom|]. intros cmnParts _. cbn beta in *.
  eapply keeps_bind; [apply keeps_alloc|]. intros newPtr Hnew. cbn beta in *.
  eapply keeps_bind; [now apply keeps_copy|]. intros _ _.
  apply keeps_ret. intros _. now right.
Qed.

Lemma keeps_RelativeTo (h0 : heap) (p : slice) (other : arg) :
  keeps h0 (RelativeTo p other) (newIfNoError h0).
Proof.
  assert (Hstr : forall val,
             keeps h0
               (mbind (New val)
                  (fun x => let '(otherPtr, err) := x in
                     match err with
                     | Some e => ret (nilSlice, Some e)
                     | None => RelativeTo_from p otherPtr
                     end))
               (newIfNoError h0)).
  { intros val. eapply keeps_bind; [apply keeps_New|].
    intros [otherPtr [e|]] _; [apply keeps_ret; discriminate|].
    apply keeps_RelativeTo_from. }
  destruct other as [o|v|u|t]; cbn [RelativeTo].
  - apply keeps_RelativeTo_from.
  - apply Hstr.
  - apply Hstr.
  - apply keeps_ret. discriminate.
Qed.

Lemma assign_through_fresh (h0 h h' : heap) (q : slice) (i : nat) (x : string) :
  extends h0 h -> fresh h0 q ->
  assign q i x h = Return (tt, h') -> extends h0 h'.
Proof.
  intros Hext Hq. unfold assign.
  destruct (len q <=? i)%nat eqn:Ei; [discriminate|]. intros [= <-].
  destruct Hq as [[Hlen _]|Hq]; [|now apply extends_write].
  apply Nat.leb_gt in Ei. lia.
Qed.

Lemma append_through_fresh (h0 h h' : heap) (q q' : slice) (xs : list string) :
  extends h0 h -> fresh h0 q ->
  append growslice q xs h = Return (q', h') -> extends h0 h'.
Proof.
  intros Hext Hq. unfold append.
  destruct (len q + length xs <=? cap q)%nat eqn:En; intros [= _ <-].
  - destruct Hq as [[Hlen Hcap]|Hq]; [|now apply extends_write].
    apply Nat.leb_le in En. destruct xs; [|cbn in En; lia].
    now rewrite writeArray_nothing.
  - now apply extends_alloc.
Qed.

Lemma unchanged_extends (p : slice) (h h' : heap) :
  array p < length h -> extends h h' -> unchanged p h h'.
Proof.
  intros Hp Hext. unfold unchanged, String_.
  now rewrite (read_extends _ _ _ Hext Hp).
Qed.

Lemma independent_fresh (p : slice) (h : heap) (q : slice) (h' : heap) :
  array p < length h -> extends h h' -> fresh h q ->
  independent growslice p h q h'.
Proof.
  intros Hp Hext Hq. split.
  - intros i x h'' Ha. apply read_extends; [|exact Hp].
    eapply assign_through_fresh; eassumption.
  - intros xs q' h'' Ha. apply read_extends; [|exact Hp].
    eapply append_through_fresh; eassumption.
Qed.

Lemma fresh_newOrNil (h : heap) (r : slice * option error) :
  newOrNil h r -> fresh h (fst r).
Proof. intros [->|Hr]; [now left|now right]. Qed.

Lemma Parent_returns (p : slice) (h : heap) :
  exists q h', Parent p h = Return (q, h').
Proof.
  unfold Parent. destruct (len p =? 0)%nat; [now do 2 eexists|].
  unfold mbind, make, alloc, sliceTo. cbn [cap]. rewrite repeat_length.
  replace (len p <? len p - 1)%nat with false
    by (symmetry; apply Nat.ltb_ge; lia).
  cbn. now do 2 eexists.
Qed.

(** [Parent], [Join] and [RelativeTo] change no array of the heap
    they start from: afterwards the pointer [p] they are applied to has
    the tokens and the string it had, on every path on which they
    return.  The pointer that [Parent] and [Join] return, and the one
    [RelativeTo] returns when it succeeds, shares no array with that
    heap: assigning to its elements or appending to it later leaves
    the tokens of [p] as they were.  Nothing is said here of the
    pointer [RelativeTo] returns with an error. *)
Theorem derived_pointers_share_nothing (h : heap) (p : slice) :
  array p < length h ->
  (exists q h', Parent p h = Return (q, h'))
  /\ (forall q h',
         Parent p h = Return (q, h') ->
         unchanged p h h' /\ independent growslice p h q h')
  /\ (forall elems q err h',
         Join growslice p elems h = Return (q, err, h') ->
         unchanged p h h' /\ independent growslice p h q h')
  /\ (forall other q err h',
         RelativeTo p other h = Return (q, err, h') ->
         unchanged p h h' /\ (err = None -> independent growslice p h q h')).
Proof.
  intros Hp. split; [apply Parent_returns|]. split; [|split].
  - intros q h' Hr.
    pose proof (keeps_Parent h p h (extends_refl h)) as Hk.
    rewrite Hr in Hk. destruct Hk as [Hext Hq].
    split; [now apply unchanged_extends|].
    apply independent_fresh; try assumption.
    destruct Hq as [->|Hq]; [now left|now right].
  - intros elems q err h' Hr.
    pose proof (keeps_Join h p elems h (extends_refl h)) as Hk.
    rewrite Hr in Hk. destruct Hk as [Hext Hq].
    split; [now apply unchanged_extends|].
    apply independent_fresh; try assumption.
    apply (fresh_newOrNil h (q, err) Hq).
  - intros other q err h' Hr.
    pose proof (keeps_RelativeTo h p other h (extends_refl h)) as Hk.
    rewrite Hr in Hk. destruct Hk as [Hext Hq].
    split; [now apply unchanged_extends|].
    intros ->. apply independent_fresh; try assumption.
    apply (fresh_newOrNil h (q, None)). exact (Hq eq_refl).
Qed.

End Functions.

End MemProperties.



(* ================================================================= *)
(** ** Reading back what [Set] stored *)

Section ReadBack.

Import reflect.

Lemma getValue_tags_tagIndex (doc : Value_) (key : string)
      (fields : list (StructField * value)) (i : nat) :
  getValue_tags doc key i fields
  = match tagIndex key i fields with
    | Some j => f <- Field doc j ;; Return (f, None)
    | None => Return (None, Some (newError ErrGet
                                    ("struct has no field '" ++ key ++ "'")))
    end.
Proof.
  revert i. induction fields as [|[sf d] fields IH]; intros i; [reflexivity|].
  cbn [getValue_tags tagIndex].
  destruct (_ && _)%bool; [|apply IH].
  destruct (_ && _)%bool; [reflexivity|apply IH].
Qed.

Lemma length_updateNth {A : Type} (f : A -> A) (l : list A) (i : nat) :
  length (updateNth i f l) = length l.
Proof.
  revert i. induction l as [|x l IH]; intros [|i]; cbn; auto.
Qed.

Lemma nth_error_updateNth {A : Type} (f : A -> A) (l : list A) (i : nat) (x : A) :
  nth_error l i = Some x -> nth_error (updateNth i f l) i = Some (f x).
Proof.
  revert i. induction l as [|y l IH]; intros [|i]; cbn; try discriminate.
  - now intros [= ->].
  - apply IH.
Qed.

Lemma lookup_updateKey {A : Type} (f : A -> A) (l : list (string * A))
      (key : string) (x : A) :
  lookup key l = Some x -> lookup key (updateKey key f l) = Some (f x).
Proof.
  induction l as [|[k y] l IH]; cbn; [discriminate|].
  destruct (String.eqb k key) eqn:Ek; cbn; rewrite Ek; [now intros [= ->]|exact IH].
Qed.

Lemma fieldIndex_updateNth (g : value -> value) (name : string)
      (fields : list (StructField * value)) (i k : nat) :
  fieldIndex name k (updateNth i (fun fd => (fst fd, g (snd fd))) fields)
  = fieldIndex name k fields.
Proof.
  revert i k. induction fields as [|[sf d] fields IH]; intros [|i] k; cbn;
    try reflexivity.
  destruct (String.eqb (Name sf) name); [reflexivity|apply IH].
Qed.

Lemma tagIndex_updateNth (g : value -> value) (key : string)
      (fields : list (StructField * value)) (i k : nat) :
  tagIndex key k (updateNth i (fun fd => (fst fd, g (snd fd))) fields)
  = tagIndex key k fields.
Proof.
  revert i k. induction fields as [|[sf d] fields IH]; intros [|i] k;
    cbn [updateNth tagIndex fst snd]; try reflexivity.
  destruct (_ && _)%bool; [|apply IH].
  destruct (_ && _)%bool; [reflexivity|apply IH].
Qed.

(** One step of the traversal in the document with [new] stored below:
    [getValue] takes the same steps, to the same place. *)
Lemma getValue_valid_store (new : value) (rest : list step) (n : nat) :
  forall d addr ro at_ key w,
    elemDepth d <= n ->
    getValue_valid d addr ro at_ key = Return (Some w, None) ->
    exists steps,
      loc w = at_ ++ steps
      /\ getValue_valid (storeAt (steps ++ rest) new d) addr ro at_ key
         = Return (Some (withData w (storeAt rest new (data w))), None).
Proof.
  induction n as [|n IH]; intros d addr ro at_ key w Hdepth;
    destruct d as [| | | | | |t elems|t elems|kt t entries|name fields
                  |t [d'|]|nm m [d'|]|];
    cbn [elemDepth] in Hdepth; try lia;
    cbn [getValue_valid]; try discriminate.
  all: try (intros Hget; apply IH in Hget as (steps & Hloc & Hst); [|lia];
            exists (StepElem :: steps);
            split; [rewrite Hloc, <- app_assoc; reflexivity|exact Hst]).
  all: try (destruct (strconv.Atoi key) as [i|] eqn:Ea; [|discriminate];
            unfold Len, Index; cbn [data flagAddr flagRO loc];
            destruct (_ <=? i)%Z eqn:El; [discriminate|];
            destruct (_ || _)%bool eqn:Eb; [discriminate|];
            destruct (nth_error elems (Z.to_nat i)) as [x|] eqn:En;
            [|discriminate];
            cbn [bind]; intros [= <-];
            exists [StepIndex (Z.to_nat i)]; split; [reflexivity|];
            cbn [app storeAt getValue_valid]; rewrite Ea;
            unfold Len, Index; cbn [data flagAddr flagRO loc];
            rewrite length_updateNth, El, Eb;
            rewrite (nth_error_updateNth _ _ _ _ En); reflexivity).
  all: try (unfold MapIndex; cbn [data flagAddr flagRO loc];
            destruct (negb (stringAssignableTo kt)) eqn:Ek; [discriminate|];
            destruct (lookup key entries) as [x|] eqn:El; [|discriminate];
            cbn [bind IsValid negb]; intros [= <-];
            exists [StepMapIndex key]; split; [reflexivity|];
            cbn [app storeAt getValue_valid];
            unfold MapIndex; cbn [data flagAddr flagRO loc];
            rewrite Ek, (lookup_updateKey _ _ _ _ El); reflexivity).
  all: rewrite getValue_tags_tagIndex.
  all: unfold FieldByName, Field; cbn [data flagAddr flagRO loc].
  all: destruct (fieldIndex key 0 fields) as [i|] eqn:Ei.
  all: try (destruct (nth_error fields i) as [[f x]|] eqn:En; [|discriminate];
            cbn [bind IsValid]; intros [= <-];
            exists [StepField i]; split; [reflexivity|];
            cbn [app storeAt getValue_valid];
            unfold FieldByName, Field; cbn [data flagAddr flagRO loc];
            rewrite fieldIndex_updateNth, Ei;
            rewrite (nth_error_updateNth _ _ _ _ En); reflexivity).
  all: cbn [bind IsValid];
    destruct (tagIndex key 0 fields) as [j|] eqn:Et; [|discriminate];
    destruct (nth_error fields j) as [[f x]|] eqn:En; [|discriminate];
    cbn [bind]; intros [= <-];
    exists [StepField j]; split; [reflexivity|];
    cbn [app storeAt getValue_valid];
    rewrite getValue_tags_tagIndex;
    unfold FieldByName, Field; cbn [data flagAddr flagRO loc];
    rewrite fieldIndex_updateNth, Ei; cbn [bind IsValid];
    rewrite tagIndex_updateNth, Et;
    rewrite (nth_error_updateNth _ _ _ _ En); reflexivity.
Qed.

Lemma getValue_store (new : value) (rest : list step) (v w : Value_)
      (key : string) :
  getValue (Some v) key = Return (Some w, None) ->
  exists steps,
    loc w = loc v ++ steps
    /\ getValue (Some (withData v (storeAt (steps ++ rest) new (data v)))) key
       = Return (Some (withData w (storeAt rest new (data w))), None).
Proof.
  intros Hget.
  exact (getValue_valid_store new rest (elemDepth (data v)) (data v) (flagAddr v)
           (flagRO v) (loc v) key w (le_n _) Hget).
Qed.

(** The traversal in the document with [new] stored at the place it
    reaches: it reaches the same place, which holds [new]. *)
Lemma getValues_store (new : value) (p : Pointer) :
  forall v slot,
    getValues (Some v) p = Return (Some slot, None) ->
    exists steps,
      loc slot = loc v ++ steps
      /\ getValues (Some (withData v (storeAt steps new (data v)))) p
         = Return (Some (withData slot new), None).
Proof.
  induction p as [|part p IH]; intros v slot; cbn [getValues].
  - intros [= <-]. exists []. split; [now rewrite app_nil_r|reflexivity].
  - destruct (getValue (Some v) part) as [[[w|] [e|]]|] eqn:Eg;
      cbn [bind]; try discriminate.
    + intros Hrest. apply IH in Hrest as (steps' & Hloc' & Hrest).
      destruct (getValue_store new steps' _ _ _ Eg) as (steps & Hloc & Hget).
      exists (steps ++ steps'). split; [now rewrite Hloc', Hloc, app_assoc|].
      rewrite Hget. exact Hrest.
    + destruct p; cbn; discriminate.
Qed.

Lemma ValueOf_at_scalar (at_ : list step) (d : value) :
  kindOf d <> Interface ->
  ValueOf_at at_ d
  = Some {| data := d; flagAddr := false; flagRO := false; loc := at_ |}.
Proof. destruct d; try reflexivity. now intros []. Qed.

Lemma kindOf_storeAt (st : step) (rest : list step) (new d : value) :
  kindOf (storeAt (st :: rest) new d) = kindOf d.
Proof.
  destruct st, d as [| | | | | | | | | |t [d'|]|nm m [d'|]|]; reflexivity.
Qed.

Lemma isScalar_not_Interface (d : value) :
  isScalar d = true -> kindOf d <> Interface.
Proof.
  destruct d; try discriminate; intros _; cbn;
    try discriminate; match goal with k : _ |- _ => now destruct k end.
Qed.

Lemma ValueOf_at_store (new : value) (rest : list step) (n : nat) :
  isScalar new = true ->
  forall r at_ v,
    elemDepth r <= n ->
    ValueOf_at at_ r = Some v ->
    exists steps,
      loc v = at_ ++ steps
      /\ ValueOf_at at_ (storeAt (steps ++ rest) new r)
         = Some (withData v (storeAt rest new (data v))).
Proof.
  intros Hnew. induction n as [|n IH]; intros r at_ v Hdepth;
    destruct r as [| | | | | | | | | |t [d'|]|nm m [d'|]|];
    cbn [elemDepth] in Hdepth; try lia; cbn [ValueOf_at]; try discriminate.
  all: try (intros Hv; apply IH in Hv as (steps & Hloc & Hst); [|lia];
            exists (StepElem :: steps);
            split; [rewrite Hloc, <- app_assoc; reflexivity|exact Hst]).
  all: intros [= <-]; exists []; split; [now rewrite app_nil_r|];
    cbn [app data]; apply ValueOf_at_scalar;
    (destruct rest as [|st rest];
     [now apply isScalar_not_Interface
     |rewrite kindOf_storeAt; cbn; try discriminate;
      match goal with k : _ |- _ => now destruct k end]).
Qed.

Lemma Value_Interface_scalar (d : value) :
  isScalar d = true -> Value_Interface d = Some d.
Proof. destruct d; try discriminate; reflexivity. Qed.

(** When the pointer [p] leads to the slot [slot] of the document, it
    leads to [new] in the document with the scalar [new] stored in
    that slot. *)
Lemma Get_after_store (p : Pointer) (root : option value) (slot : Value_)
      (new : value) :
  getValues (ValueOf root) p = Return (Some slot, None) ->
  flagRO slot = false ->
  isScalar new = true ->
  Get p (store slot new root) = Return (Some new, None).
Proof.
  intros Hget Hro Hnew.
  destruct root as [r|]; [|destruct p; cbn in Hget; discriminate].
  cbn [ValueOf] in Hget.
  destruct (ValueOf_at [] r) as [v|] eqn:Ev;
    [|destruct p; cbn in Hget; discriminate].
  apply (getValues_store new) in Hget as (steps & Hloc & Hget).
  destruct (ValueOf_at_store new steps _ Hnew r [] v (le_n _) Ev)
    as (steps0 & Hloc0 & Hv).
  unfold Get, store. cbn [option_map ValueOf].
  rewrite Hloc, Hloc0. cbn [app]. rewrite Hv, Hget. cbn [bind CanInterface].
  unfold withData at 1. cbn [flagRO]. rewrite Hro. cbn.
  now rewrite Value_Interface_scalar.
Qed.

End ReadBack.

(* ================================================================= *)
(** ** [Set] on scalar slots *)

Section SetProperties.

Context {platform : Platform}.

Import reflect.

Lemma isScalar_kindOf (d : value) : isScalar d = isScalarKind (kindOf d).
Proof.
  destruct d; try reflexivity;
    match goal with k : _ |- _ => now destruct k end.
Qed.

Lemma CanSet_not_RO (doc : Value_) : CanSet doc = true -> flagRO doc = false.
Proof.
  unfold CanSet. intros Hcan. apply andb_true_iff in Hcan as [_ Hro].
  now destruct (flagRO doc).
Qed.

(** [Set] is [setValue] on what the loop over the tokens reaches. *)
Lemma Set_at_slot (p : Pointer) (root value : option reflect.value) (doc : Value) :
  getValues (ValueOf root) p = Return (doc, None) ->
  Set_ p root value = Return (setValue doc value root).
Proof. intros Hget. unfold Set_. now rewrite Hget. Qed.


End SetProperties.

(* ================================================================= *)
(** ** The errors of the public operations *)

Section ErrorProperties.

Context {platform : Platform}.

(** C8, as the code has it: every error of [New] and of [Get] is an
    [Error] of the package (it has the [Unwrap] method), of type
    [ErrInvalidJSONPointer] and [ErrGet]; the error of [New] has a
    cause only when [url.Parse] failed, and the cause is the error of
    [url.Parse]; an error of [Get] or [Set] never has a cause; an
    error of [Set] is of type [ErrGet] or [ErrSet] or is a plain error
    without [Unwrap]; an error of [Join] or [RelativeTo] is the error
    of [New] on an argument or is a plain error without [Unwrap]. *)
Theorem errors_of_the_operations :
  (forall val p e,
      New val = Return (p, Some e) ->
      has_Unwrap e = true /\ errTypeOf e = Some ErrInvalidJSONPointer
      /\ (forall c, Unwrap e = Some c ->
                    exists s, val = AString s /\ url_Parse s = inr c))
  /\ (forall p doc r e,
         Get p doc = Return (r, Some e) ->
         has_Unwrap e = true /\ errTypeOf e = Some ErrGet /\ Unwrap e = None)
  /\ (forall p doc value doc' e,
         Set_ p doc value = Return (Some e, doc') ->
         Unwrap e = None
         /\ (has_Unwrap e = false \/ errTypeOf e = Some ErrGet
             \/ errTypeOf e = Some ErrSet))
  /\ (forall p elems q e,
         Join p elems = Return (q, Some e) ->
         has_Unwrap e = false \/ errTypeOf e = Some ErrInvalidJSONPointer)
  /\ (forall p other q e,
         RelativeTo p other = Return (q, Some e) ->
         has_Unwrap e = false \/ errTypeOf e = Some ErrInvalidJSONPointer).
Proof.
  split; [|split; [|split; [|split]]].
  - intros val p e Hr. apply New_error in Hr as (msg & cause & -> & Hcause).
    repeat split. cbn. intros c ->.
    destruct Hcause as (s & -> & Hs); [discriminate|]. eauto.
  - intros p doc r e Hr. apply Get_error in Hr as [msg ->]. now repeat split.
  - intros p doc value doc' e Hr.
    apply Set_error in Hr as [[msg ->]|[[msg ->]|[msg ->]]]; cbn; auto.
  - intros p elems q e Hr.
    apply Join_error in Hr as [(msg & cause & ->)|[msg ->]]; cbn; auto.
  - intros p other q e Hr.
    apply RelativeTo_error in Hr as [(msg & cause & ->)|[msg ->]]; cbn; auto.
Qed.

End ErrorProperties.

(* ================================================================= *)
(** ** The properties on examples *)

Lemma parse_String_round_trip_example :
  (exists q, @New examplePlatform (AString (Pointer_String ["foo"; "m~n"]))
             = Return (q, None)
             /\ Pointer_String q = Pointer_String ["foo"; "m~n"]
             /\ q = ["foo"; "m~n"])
  /\ (exists q, @New examplePlatform (AString (Pointer_String ["a/b"; ""]))
                = Return (q, None)
                /\ Pointer_String q = Pointer_String ["a/b"; ""]
                /\ q = ["a/b"; ""]).
Proof.
  split.
  - exact (@parse_String_round_trip examplePlatform "/foo/m~0n" ["foo"; "m~n"]
             (or_introl eq_refl) eq_refl).
  - exact (@parse_String_round_trip examplePlatform "#/a~1b/" ["a/b"; ""]
             (or_intror eq_refl) eq_refl).
Defined.

Lemma New_string_fails_iff_example :
  @New examplePlatform (AString "/~2/a~") = Return (["~2"; "a~"], None)
  /\ errTypeOf (newError ErrInvalidJSONPointer
                  "non-empty references must begin with a '/' character")
     = Some ErrInvalidJSONPointer.
Proof.
  split.
  - exact (proj2 (proj2 (@New_string_fails_iff examplePlatform "/~2/a~")) eq_refl).
  - exact (proj1 (proj2 (@New_string_fails_iff examplePlatform "#7")) [] _ eq_refl).
Defined.

Lemma unsupported_argument_example :
  exists e, @Join examplePlatform ["foo"]
                  ([AString "/0"; APointer ["x"]] ++ AOther "int" :: [AString "/1"])
            = Return ([], Some e).
Proof.
  apply (proj2 (proj2 (proj2
           (@unsupported_argument_is_an_error examplePlatform "int" ["foo"])))).
  cbn. intros [H|[H|[]]]; discriminate H.
Defined.




Lemma errors_of_the_operations_example :
  has_Unwrap (newError ErrGet "index 3 exceeds array length of 2") = true
  /\ errTypeOf (newError ErrGet "index 3 exceeds array length of 2") = Some ErrGet
  /\ Unwrap (newError ErrGet "index 3 exceeds array length of 2") = None.
Proof.
  exact (proj1 (proj2 (@errors_of_the_operations examplePlatform))
               ["foo"; "3"] (Some exampleDocument) None _ eq_refl).
Defined.

(** C8, as the claim states it, fails: [Join] and [RelativeTo] return
    plain errors, which have no [Unwrap] method, and so does [Set] on a
    nil document; the error of [Set] for a string that
    [strconv.ParseInt] rejects has no cause. *)
Lemma errors_without_Unwrap_or_cause :
  (exists e, @Join examplePlatform [] [AOther "int"] = Return ([], Some e)
             /\ has_Unwrap e = false)
  /\ (exists q e, @RelativeTo examplePlatform ["a"] (APointer ["b"])
                  = Return (q, Some e)
                  /\ has_Unwrap e = false)
  /\ (exists e, @Set_ examplePlatform [] None (Some (reflect.GString "x"))
                = Return (Some e, None)
                /\ has_Unwrap e = false)
  /\ strconv.ParseInt "3x" 64 = inr strconv.ErrSyntax
  /\ (exists e, @Set_ examplePlatform ["Count"] (Some exampleRecord)
                      (Some (reflect.GString "3x"))
                = Return (Some e, Some exampleRecord)
                /\ errTypeOf e = Some ErrSet
                /\ Unwrap e = None).
Proof.
  split; [|split; [|split; [|split]]].
  - now eexists.
  - now do 2 eexists.
  - now eexists.
  - reflexivity.
  - now eexists.
Qed.

(** [Set] and then [Get] on [exampleRecord]: the field [Name] holds
    ["42"] after it was set to the integer [42], the field [Ratio]
    holds [1.0] after it was set to [true]. *)
Lemma Set_then_Get_example :
  (exists doc',
      @Set_ examplePlatform ["name"] (Some exampleRecord)
            (Some (reflect.GInt reflect.KInt 42))
      = Return (None, doc')
      /\ Get ["Name"] doc' = Return (Some (reflect.GString "42"), None))
  /\ (exists doc',
         @Set_ examplePlatform ["Ratio"] (Some exampleRecord)
               (Some (reflect.GBool true))
         = Return (None, doc')
         /\ Get ["Ratio"] doc'
            = Return (Some (reflect.GFloat reflect.KFloat64 1%float), None)).
Proof. split; eexists; split; reflexivity. Qed.

(** A document of [json.Unmarshal] has no settable slot: what a map or
    an interface holds is not addressable. *)
Lemma Set_on_json_document_example :
  @Set_ examplePlatform ["foo"; "0"] (Some exampleDocument)
        (Some (reflect.GString "qux"))
  = Return (Some (errorString
                    "cannot set value on unaddressable document or unexported field"),
            Some exampleDocument).
Proof. reflexivity. Qed.

Lemma derived_pointers_share_nothing_example :
  unchanged examplePointer exampleHeap
    [["foo"; "bar"]; ["foo"; "bar"]; ["0"]; ["foo"; "bar"; "0"; ""; ""; ""]]
  /\ independent (fun _ needed => 2 * needed)
       examplePointer exampleHeap
       {| Mem.array := 3; Mem.offset := 0; Mem.len := 3; Mem.cap := 6 |}
       [["foo"; "bar"]; ["foo"; "bar"]; ["0"]; ["foo"; "bar"; "0"; ""; ""; ""]].
Proof.
  exact (proj1 (proj2 (proj2
           (@MemProperties.derived_pointers_share_nothing examplePlatform
              (fun _ needed => 2 * needed) exampleHeap examplePointer
              (le_n 1))))
           [Mem.AString "/0"] _ None _ eq_refl).
Defined.

(** C9 fails where a token of the prefix differs: [RelativeTo] on the
    pointer [/foo/bar] with the prefix [/baz] returns, with the error,
    its receiver: the same slice on the same array, not a copy.  An
    assignment to the first element of the returned pointer then
    changes the first token of the receiver, so the returned pointer is
    not independent of it.  The sibling path of a prefix that is too
    long returns the nil slice with the same kind of error. *)
Theorem RelativeTo_mismatch_shares_receiver (growslice : nat -> nat -> nat) :
  @Mem.RelativeTo examplePlatform examplePointer (Mem.AString "/baz") exampleHeap
  = Return (examplePointer,
            Some (errorString "/foo/bar does not start with /baz"),
            [["foo"; "bar"]; ["baz"]])
  /\ Mem.assign examplePointer 0 "qux" [["foo"; "bar"]; ["baz"]]
     = Return (tt, [["qux"; "bar"]; ["baz"]])
  /\ Mem.read examplePointer exampleHeap = ["foo"; "bar"]
  /\ Mem.read examplePointer [["qux"; "bar"]; ["baz"]] = ["qux"; "bar"]
  /\ ~ independent growslice examplePointer exampleHeap
         examplePointer [["foo"; "bar"]; ["baz"]]
  /\ @Mem.RelativeTo examplePlatform examplePointer (Mem.AString "/foo/bar/baz")
       exampleHeap
     = Return (Mem.nilSlice,
               Some (errorString "/foo/bar does not start with /foo/bar/baz"),
               [["foo"; "bar"]; ["foo"; "bar"; "baz"]]).
Proof.
  split; [reflexivity|]. split; [reflexivity|]. split; [reflexivity|].
  split; [reflexivity|]. split; [|reflexivity].
  intros [Hassign _].
  specialize (Hassign 0 "qux" _ eq_refl). discriminate Hassign.
Qed.




(* ================================================================= *)
(** ** Pointers in memory: the tokens the functions compute *)

(** The functions on the heap return the slices whose tokens the
    functions on token lists return. *)
Module MemRefinement.

Import MemProperties.

Lemma length_read (h : Mem.heap) (s : Mem.slice) :
  wf h s -> length (Mem.read s h) = Mem.len s.
Proof.
  intros (_ & Hlen & Hcap). unfold Mem.read.
  rewrite length_firstn, length_skipn. lia.
Qed.

Lemma wf_extends (h h' : Mem.heap) (s : Mem.slice) :
  extends h h' -> wf h s -> wf h' s.
Proof.
  intros [new ->] (Ha & Hlen & Hcap). repeat split; try assumption.
  - rewrite length_app. lia.
  - now rewrite app_nth1.
Qed.

Lemma nth_alloc (h : Mem.heap) (xs : list string) :
  nth (length h) (h ++ [xs]) [] = xs.
Proof. now rewrite app_nth2, Nat.sub_diag by lia. Qed.

Lemma nth_updateNth_same {A : Type} (f : A -> A) (l : list A) (i : nat) (d : A) :
  i < length l -> nth i (reflect.updateNth i f l) d = f (nth i l d).
Proof.
  revert i. induction l as [|x l IH]; intros [|i] Hi; cbn in *; try lia;
    [reflexivity|apply IH; lia].
Qed.

Lemma nth_updateNth_other {A : Type} (f : A -> A) (l : list A) (i j : nat) (d : A) :
  i <> j -> nth j (reflect.updateNth i f l) d = nth j l d.
Proof.
  revert i j. induction l as [|x l IH]; intros [|i] [|j] Hij; cbn;
    try reflexivity; try lia. apply IH. lia.
Qed.

Lemma length_writeArray (a i : nat) (xs : list string) (h : Mem.heap) :
  length (Mem.writeArray a i xs h) = length h.
Proof.
  unfold Mem.writeArray. revert a.
  induction h as [|arr h IH]; intros [|a]; cbn; auto.
Qed.

Lemma read_write_other (s : Mem.slice) (a i : nat) (xs : list string)
      (h : Mem.heap) :
  Mem.array s <> a -> Mem.read s (Mem.writeArray a i xs h) = Mem.read s h.
Proof.
  intros Hne. unfold Mem.read, Mem.writeArray.
  now rewrite nth_updateNth_other by congruence.
Qed.

Lemma wf_write_other (s : Mem.slice) (a i : nat) (xs : list string)
      (h : Mem.heap) :
  Mem.array s <> a -> wf h s -> wf (Mem.writeArray a i xs h) s.
Proof.
  intros Hne (Ha & Hlen & Hcap). repeat split; try assumption.
  - now rewrite length_writeArray.
  - unfold Mem.writeArray. now rewrite nth_updateNth_other by congruence.
Qed.

(** A new array that is written from its start: the slice of the
    written elements reads as what was written. *)
Lemma read_new_array (h : Mem.heap) (n c : nat) (old xs : list string) :
  length xs = n -> n <= length old ->
  Mem.read {| Mem.array := length h; Mem.offset := 0; Mem.len := n; Mem.cap := c |}
           (Mem.writeArray (length h) 0 xs (h ++ [old]))
  = xs.
Proof.
  intros Hxs Hold. unfold Mem.read, Mem.writeArray.
  cbn [Mem.array Mem.offset Mem.len skipn].
  rewrite nth_updateNth_same by (rewrite length_app; cbn; lia).
  rewrite nth_alloc. cbn [firstn app Nat.add].
  rewrite firstn_app, firstn_all2 by lia.
  replace (n - length xs) with 0 by lia. cbn. apply app_nil_r.
Qed.

Lemma wf_new_array (h : Mem.heap) (n : nat) (old xs : list string) :
  length xs <= length old -> n <= length old ->
  wf (Mem.writeArray (length h) 0 xs (h ++ [old]))
     {| Mem.array := length h; Mem.offset := 0; Mem.len := n;
        Mem.cap := length old |}.
Proof.
  intros Hxs Hn. unfold wf. cbn [Mem.array Mem.offset Mem.len Mem.cap].
  rewrite length_writeArray, length_app. cbn [length].
  repeat split; try lia.
  unfold Mem.writeArray.
  rewrite nth_updateNth_same by (rewrite length_app; cbn; lia).
  rewrite nth_alloc. cbn [firstn app Nat.add].
  rewrite length_app, length_skipn. lia.
Qed.

Lemma read_nil (h : Mem.heap) : Mem.read Mem.nilSlice h = [].
Proof. reflexivity. Qed.

Lemma length_read_wfn (h : Mem.heap) (s : Mem.slice) :
  wfn h s -> length (Mem.read s h) = Mem.len s.
Proof. intros [->|Hs]; [reflexivity|now apply length_read]. Qed.

Lemma wfn_extends (h h' : Mem.heap) (s : Mem.slice) :
  extends h h' -> wfn h s -> wfn h' s.
Proof. intros Hext [->|Hs]; [now left|right; now apply (wf_extends h)]. Qed.

Lemma read_extends_wfn (h h' : Mem.heap) (s : Mem.slice) :
  extends h h' -> wfn h s -> Mem.read s h' = Mem.read s h.
Proof.
  intros Hext [->|Hs]; [reflexivity|].
  apply read_extends; [exact Hext|apply Hs].
Qed.

Section Functions.

Context {platform : Platform}.
Variable growslice : nat -> nat -> nat.

(** [make] and [copy] in a row: a new array with the tokens of
    [src]. *)
Lemma make_copy {A : Type} (h : Mem.heap) (src : Mem.slice)
      (k : Mem.slice -> Mem.M A) :
  wfn h src ->
  Mem.mbind (Mem.make (Mem.len src))
            (fun newPtr => Mem.mbind (Mem.copy newPtr src) (fun _ => k newPtr)) h
  = k {| Mem.array := length h; Mem.offset := 0;
         Mem.len := Mem.len src; Mem.cap := Mem.len src |}
      (Mem.writeArray (length h) 0 (Mem.read src h)
                      (h ++ [repeat EmptyString (Mem.len src)])).
Proof.
  intros Hsrc. unfold Mem.mbind, Mem.make, Mem.alloc, Mem.copy.
  cbn [Mem.array Mem.offset Mem.len]. rewrite repeat_length, Nat.min_id.
  rewrite (read_extends_wfn h) by (try assumption; now eexists).
  rewrite firstn_all2 by (rewrite length_read_wfn by assumption; lia).
  reflexivity.
Qed.

Lemma copied (h : Mem.heap) (src : Mem.slice) :
  wfn h src ->
  let q := {| Mem.array := length h; Mem.offset := 0;
              Mem.len := Mem.len src; Mem.cap := Mem.len src |} in
  let h' := Mem.writeArray (length h) 0 (Mem.read src h)
                           (h ++ [repeat EmptyString (Mem.len src)]) in
  extends h h' /\ wf h' q /\ Mem.read q h' = Mem.read src h
  /\ length h <= Mem.array q.
Proof.
  intros Hsrc q h'. pose proof (length_read_wfn h src Hsrc) as Hlen.
  split; [|split; [|split]].
  - apply extends_write; [lia|]. apply extends_alloc, extends_refl.
  - pose proof (wf_new_array h (Mem.len src) (repeat EmptyString (Mem.len src))
                  (Mem.read src h)) as Hwf.
    rewrite repeat_length in Hwf. apply Hwf; lia.
  - apply read_new_array; rewrite ?repeat_length; lia.
  - cbn. lia.
Qed.

Lemma parse_sim (h : Mem.heap) (str : string) :
  sim h (Mem.parse str h) (Return (parse str)).
Proof.
  unfold Mem.parse, parse. destruct str as [|c str].
  { cbn. repeat split; [apply extends_refl|now left]. }
  destruct (negb (Ascii.eqb c "/")).
  { cbn. repeat split; [apply extends_refl|now left]. }
  unfold Mem.mbind, Mem.alloc, Mem.ret.
  set (xs := strings.Split str separator).
  assert (Hread : Mem.read {| Mem.array := length h; Mem.offset := 0;
                              Mem.len := length xs; Mem.cap := length xs |}
                           (h ++ [xs]) = xs).
  { unfold Mem.read. cbn [Mem.array Mem.offset Mem.len skipn].
    rewrite nth_alloc. apply firstn_all. }
  rewrite Hread. cbn [Mem.array sim].
  split; [|split; [|split]].
  - apply extends_write; [lia|]. apply extends_alloc, extends_refl.
  - right. apply wf_new_array; rewrite ?length_map; lia.
  - apply read_new_array; rewrite ?length_map; lia.
  - reflexivity.
Qed.

Lemma New_sim (h : Mem.heap) (val : Mem.arg) :
  wfArg h val -> sim h (Mem.New val h) (New (view h val)).
Proof.
  destruct val as [v|v|[u|]|t]; cbn [wfArg view Mem.New New].
  - intros Hv. rewrite (make_copy h v) by now right.
    destruct (copied h v (or_intror Hv)) as (Hext & Hwf & Hread & _).
    cbn [Mem.ret sim]. rewrite copy_make.
    repeat split; try assumption. now right.
  - intros _. destruct v as [|c v].
    { cbn. repeat split; [apply extends_refl|now left]. }
    destruct (String.eqb _ _).
    { cbn. repeat split; [apply extends_refl|now left]. }
    destruct (Ascii.eqb c "/"); [apply parse_sim|].
    destruct (url_Parse _); [apply parse_sim|].
    cbn. repeat split; [apply extends_refl|now left].
  - intros _. apply parse_sim.
  - intros _. exact I.
  - intros _. cbn. repeat split; [apply extends_refl|now left].
Qed.

Lemma sim_extends (h0 h : Mem.heap) r r' :
  extends h0 h -> sim h r r' -> sim h0 r r'.
Proof.
  intros [new ->]. destruct r as [[[q err] h']|], r' as [[l err']|]; cbn; auto.
  intros ([new' ->] & Hq & Hread & Herr). repeat split; try assumption.
  exists (new ++ new'). now rewrite app_assoc.
Qed.

(** [Parent] on the heap returns a slice with the tokens that [Parent]
    on token lists returns. *)
Lemma Parent_sim (h : Mem.heap) (p : Mem.slice) :
  wfn h p ->
  exists q h',
    Mem.Parent p h = Return (q, h')
    /\ extends h h' /\ wfn h' q
    /\ Mem.read q h' = Parent (Mem.read p h).
Proof.
  intros Hp. pose proof (length_read_wfn h p Hp) as Hlen.
  unfold Mem.Parent. destruct (Mem.len p =? 0)%nat eqn:E.
  { apply Nat.eqb_eq in E. rewrite E in Hlen.
    apply length_zero_iff_nil in Hlen. rewrite Hlen.
    exists Mem.nilSlice, h. repeat split; [apply extends_refl|now left]. }
  apply Nat.eqb_neq in E.
  destruct (exists_last (l := Mem.read p h)) as (toks & t & Hlast).
  { intros Hnil. rewrite Hnil in Hlen. cbn in Hlen. lia. }
  rewrite Hlast, Parent_last. rewrite Hlast, length_app in Hlen. cbn in Hlen.
  unfold Mem.mbind, Mem.make, Mem.alloc, Mem.sliceTo.
  cbn [Mem.cap]. rewrite repeat_length.
  replace (Mem.len p <? Mem.len p - 1)%nat with false
    by (symmetry; apply Nat.ltb_ge; lia).
  unfold Mem.ret, Mem.copy. cbn [Mem.array Mem.offset Mem.len].
  rewrite (read_extends_wfn h) by (try assumption; now eexists).
  rewrite Hlast.
  replace (Nat.min (Mem.len p - 1) (Mem.len p)) with (length toks) by lia.
  rewrite firstn_app, firstn_all, Nat.sub_diag. cbn [firstn]. rewrite app_nil_r.
  do 2 eexists. split; [reflexivity|].
  assert (Harr : nth (length h)
                     (Mem.writeArray (length h) 0 toks
                        (h ++ [repeat EmptyString (Mem.len p)])) []
                 = toks ++ [EmptyString]).
  { unfold Mem.writeArray.
    rewrite nth_updateNth_same by (rewrite length_app; cbn; lia).
    rewrite nth_alloc. cbn [firstn app Nat.add]. f_equal.
    replace (Mem.len p) with (length toks + 1) by lia.
    rewrite repeat_app, skipn_app, repeat_length, Nat.sub_diag.
    rewrite skipn_all2 by (rewrite repeat_length; lia). reflexivity. }
  split; [|split].
  - apply extends_write; [lia|]. apply extends_alloc, extends_refl.
  - right. unfold wf. cbn [Mem.array Mem.offset Mem.len Mem.cap].
    rewrite Harr, length_writeArray, !length_app. cbn [length]. lia.
  - unfold Mem.read. cbn [Mem.array Mem.offset Mem.len skipn].
    rewrite Harr. apply firstn_all2. rewrite length_app. cbn. lia.
Qed.

Lemma read_sliceFrom (h : Mem.heap) (s : Mem.slice) (low : nat) :
  Mem.read {| Mem.array := Mem.array s; Mem.offset := Mem.offset s + low;
              Mem.len := Mem.len s - low; Mem.cap := Mem.cap s - low |} h
  = skipn low (Mem.read s h).
Proof.
  unfold Mem.read. cbn [Mem.array Mem.offset Mem.len].
  now rewrite skipn_firstn_comm, skipn_skipn, Nat.add_comm.
Qed.

Lemma RelativeTo_loop_sim (h : Mem.heap) (p : Mem.slice) (parts : list string) :
  forall i n,
    Mem.RelativeTo_loop p i parts n h
    = match RelativeTo_loop (Mem.read p h) i parts n with
      | Return r => Return (r, h)
      | Panic reason => Panic reason
      end.
Proof.
  induction parts as [|part parts IH]; intros i n; [reflexivity|].
  cbn [Mem.RelativeTo_loop RelativeTo_loop].
  unfold Mem.mbind, Mem.index, index.
  destruct (nth_error (Mem.read p h) i) as [t|]; [|reflexivity].
  cbn [bind]. destruct (negb (String.eqb t part)); [reflexivity|apply IH].
Qed.

Lemma RelativeTo_from_sim (h : Mem.heap) (p otherPtr : Mem.slice) :
  wfn h p -> wfn h otherPtr ->
  sim h (Mem.RelativeTo_from p otherPtr h)
      (RelativeTo_from (Mem.read p h) (Mem.read otherPtr h)).
Proof.
  intros Hp Ho. unfold Mem.RelativeTo_from, RelativeTo_from.
  rewrite (length_read_wfn h p Hp), (length_read_wfn h otherPtr Ho).
  destruct (Mem.len p <? Mem.len otherPtr)%nat.
  { cbn. repeat split; [apply extends_refl|now left]. }
  unfold Mem.mbind at 1. rewrite RelativeTo_loop_sim.
  destruct (RelativeTo_loop (Mem.read p h) 0 (Mem.read otherPtr h) 0)
    as [[numCmnParts|]|]; cbn [bind]; [| |exact I].
  2:{ cbn. repeat split; [apply extends_refl|assumption]. }
  unfold Mem.sliceFrom, sliceFrom. rewrite (length_read_wfn h p Hp).
  destruct (Mem.len p <? numCmnParts + 1)%nat eqn:Elow; [exact I|].
  apply Nat.ltb_ge in Elow.
  unfold Mem.mbind at 1. unfold Mem.ret at 1. cbn [bind].
  set (cmnParts := {| Mem.array := Mem.array p;
                      Mem.offset := Mem.offset p + (numCmnParts + 1);
                      Mem.len := Mem.len p - (numCmnParts + 1);
                      Mem.cap := Mem.cap p - (numCmnParts + 1) |}).
  assert (Hcmn : wfn h cmnParts).
  { destruct Hp as [->|(Ha & Hlen & Hcap)]; [cbn in Elow; lia|].
    right. unfold wf, cmnParts. cbn [Mem.array Mem.offset Mem.len Mem.cap]. lia. }
  change (Mem.len p - (numCmnParts + 1)) with (Mem.len cmnParts).
  rewrite (make_copy h cmnParts) by assumption.
  destruct (copied h cmnParts Hcmn) as (Hext & Hwf & Hread & _).
  cbn [Mem.ret sim]. rewrite copy_make.
  repeat split; try assumption; [now right|].
  rewrite Hread. apply read_sliceFrom.
Qed.

(** [RelativeTo] on the heap returns a slice with the tokens that
    [RelativeTo] on token lists returns, with the same error. *)
Lemma RelativeTo_sim (h : Mem.heap) (p : Mem.slice) (other : Mem.arg) :
  wfn h p -> wfArg h other ->
  sim h (Mem.RelativeTo p other h) (RelativeTo (Mem.read p h) (view h other)).
Proof.
  intros Hp Hother.
  assert (Hnew : forall val,
             wfArg h val ->
             sim h (Mem.mbind (Mem.New val)
                      (fun x => let '(otherPtr, err) := x in
                         match err with
                         | Some e => Mem.ret (Mem.nilSlice, Some e)
                         | None => Mem.RelativeTo_from p otherPtr
                         end) h)
                   (bind (New (view h val))
                      (fun x => let '(otherPtr, err) := x in
                         match err with
                         | Some e => Return ([], Some e)
                         | None => RelativeTo_from (Mem.read p h) otherPtr
                         end))).
  { intros val Hval. pose proof (New_sim h val Hval) as Hsim.
    unfold Mem.mbind.
    destruct (Mem.New val h) as [[[q err] h1]|], (New (view h val)) as [[l err']|];
      cbn [sim bind] in *; try contradiction; [|exact I].
    destruct Hsim as (Hext & Hq & <- & <-).
    destruct err as [e|].
    - cbn. repeat split; [assumption|now left].
    - apply (sim_extends h h1 _ _ Hext).
      rewrite <- (read_extends_wfn h h1 p Hext Hp).
      apply RelativeTo_from_sim; [now apply (wfn_extends h)|assumption]. }
  destruct other as [o|v|u|t]; cbn [Mem.RelativeTo RelativeTo view].
  - apply RelativeTo_from_sim; [assumption|now right].
  - apply (Hnew (Mem.AString v) I).
  - apply (Hnew (Mem.AURL u) I).
  - cbn. repeat split; [apply extends_refl|now left].
Qed.

Lemma firstn_exact {A : Type} (l1 l2 : list A) (n : nat) :
  length l1 = n -> firstn n (l1 ++ l2) = l1.
Proof.
  intros <-. rewrite firstn_app, firstn_all, Nat.sub_diag. apply app_nil_r.
Qed.

(** [append] to a slice of the heap: the slice it returns reads as the
    elements of the slice and the new ones, and no array of a heap
    that the array of the slice is not part of is written. *)
Lemma append_spec (h : Mem.heap) (newPtr : Mem.slice) (xs : list string) :
  wf h newPtr ->
  exists newPtr' h',
    Mem.append growslice newPtr xs h = Return (newPtr', h')
    /\ wf h' newPtr'
    /\ Mem.read newPtr' h' = Mem.read newPtr h ++ xs
    /\ (forall h0, extends h0 h -> length h0 <= Mem.array newPtr ->
                   extends h0 h' /\ length h0 <= Mem.array newPtr').
Proof.
  intros Hwf. pose proof (length_read h newPtr Hwf) as Hlen.
  destruct Hwf as (Ha & Hle & Hcap). unfold Mem.append.
  destruct (Mem.len newPtr + length xs <=? Mem.cap newPtr)%nat eqn:En.
  - apply Nat.leb_le in En. do 2 eexists. split; [reflexivity|].
    set (arr := nth (Mem.array newPtr) h []) in *.
    assert (Harr : nth (Mem.array newPtr)
                       (Mem.writeArray (Mem.array newPtr)
                          (Mem.offset newPtr + Mem.len newPtr) xs h) []
                   = firstn (Mem.offset newPtr + Mem.len newPtr) arr ++ xs
                       ++ skipn (Mem.offset newPtr + Mem.len newPtr + length xs) arr).
    { unfold Mem.writeArray. now rewrite nth_updateNth_same. }
    split; [|split].
    + unfold wf. cbn [Mem.array Mem.offset Mem.len Mem.cap].
      rewrite Harr, length_writeArray, !length_app, length_firstn, length_skipn.
      lia.
    + unfold Mem.read in *. cbn [Mem.array Mem.offset Mem.len]. rewrite Harr.
      fold arr in Hlen.
      rewrite skipn_app, length_firstn.
      replace (Mem.offset newPtr
               - Nat.min (Mem.offset newPtr + Mem.len newPtr) (length arr))
        with 0 by lia.
      cbn [skipn]. rewrite skipn_firstn_comm.
      replace (Mem.offset newPtr + Mem.len newPtr - Mem.offset newPtr)
        with (Mem.len newPtr) by lia.
      subst arr. rewrite app_assoc. apply firstn_exact. rewrite length_app. lia.
    + intros h0 Hext Hnew. split; [now apply extends_write|exact Hnew].
  - apply Nat.leb_gt in En. do 2 eexists. split; [reflexivity|].
    set (needed := Mem.len newPtr + length xs) in *.
    set (newCap := Nat.max needed (growslice (Mem.cap newPtr) needed)).
    split; [|split].
    + unfold wf. cbn [Mem.array Mem.offset Mem.len Mem.cap].
      rewrite nth_alloc, !length_app, repeat_length, Hlen. cbn [length]. lia.
    + unfold Mem.read at 1. cbn [Mem.array Mem.offset Mem.len skipn].
      rewrite nth_alloc, app_assoc. apply firstn_exact.
      rewrite length_app. unfold needed. lia.
    + intros h0 Hext Hnew. split; [now apply extends_alloc|].
      cbn. now apply extends_length.
Qed.

Lemma view_extends (h0 h : Mem.heap) (a : Mem.arg) :
  extends h0 h -> wfArg h0 a -> view h a = view h0 a.
Proof.
  intros Hext Ha. destruct a as [s| | |]; try reflexivity.
  cbn. f_equal. apply read_extends; [exact Hext|apply Ha].
Qed.

Lemma Join_loop_sim (h0 : Mem.heap) (elems : list Mem.arg) :
  Forall (wfArg h0) elems ->
  forall h newPtr,
    extends h0 h -> wf h newPtr -> length h0 <= Mem.array newPtr ->
    sim h0 (Mem.Join_loop growslice newPtr elems h)
        (Join_loop (Mem.read newPtr h) (map (view h0) elems)).
Proof.
  induction 1 as [|elm elems Helm Helems IH]; intros h newPtr Hext Hwf Hnew.
  { cbn. repeat split; [assumption|now right]. }
  assert (Happend : forall h1 xs,
             extends h0 h1 -> wf h1 newPtr ->
             sim h0 (Mem.mbind (fun h => Mem.append growslice newPtr xs h)
                       (fun newPtr => Mem.Join_loop growslice newPtr elems) h1)
                    (Join_loop (Mem.read newPtr h1 ++ xs) (map (view h0) elems))).
  { intros h1 xs Hext1 Hwf1.
    destruct (append_spec h1 newPtr xs Hwf1)
      as (newPtr' & h' & Ha & Hwf' & Hread & Hkeep).
    unfold Mem.mbind. rewrite Ha, <- Hread.
    destruct (Hkeep h0 Hext1 Hnew). now apply IH. }
  assert (Hstr : forall val,
             wfArg h val -> view h val = view h0 val ->
             sim h0 (Mem.mbind (Mem.New val)
                       (fun x => let '(elmPtr, err) := x in
                          match err with
                          | Some e => Mem.ret (Mem.nilSlice, Some e)
                          | None =>
                              Mem.mbind
                                (fun h => Mem.append growslice newPtr
                                            (Mem.read elmPtr h) h)
                                (fun newPtr => Mem.Join_loop growslice newPtr elems)
                          end) h)
                    (bind (New (view h0 val))
                       (fun x => let '(elmPtr, err) := x in
                          match err with
                          | Some e => Return ([], Some e)
                          | None => Join_loop (Mem.read newPtr h ++ elmPtr)
                                              (map (view h0) elems)
                          end))).
  { intros val Hval Hview. pose proof (New_sim h val Hval) as Hsim.
    rewrite Hview in Hsim. unfold Mem.mbind at 1.
    destruct (Mem.New val h) as [[[q err] h1]|], (New (view h0 val)) as [[l err']|];
      cbn [sim bind] in *; try contradiction; [|exact I].
    destruct Hsim as (Hext1 & Hq & <- & <-).
    assert (Hext01 : extends h0 h1).
    { destruct Hext as [n1 ->], Hext1 as [n2 ->]. exists (n1 ++ n2).
      now rewrite app_assoc. }
    destruct err as [e|].
    - cbn. repeat split; [assumption|now left].
    - rewrite <- (read_extends h h1 newPtr Hext1 (proj1 Hwf)).
      apply (Happend h1 (Mem.read q h1) Hext01).
      now apply (wf_extends h). }
  destruct elm as [e|v|u|t]; cbn [Mem.Join_loop Join_loop map view].
  - rewrite <- (read_extends h0 h e Hext (proj1 Helm)).
    now apply Happend.
  - apply (Hstr (Mem.AString v) I eq_refl).
  - apply (Hstr (Mem.AURL u) I eq_refl).
  - cbn. repeat split; [assumption|now left].
Qed.

(** [Join] on the heap returns a slice with the tokens that [Join] on
    token lists returns, with the same error. *)
Lemma Join_sim (h : Mem.heap) (p : Mem.slice) (elems : list Mem.arg) :
  wfn h p -> Forall (wfArg h) elems ->
  sim h (Mem.Join growslice p elems h)
      (Join (Mem.read p h) (map (view h) elems)).
Proof.
  intros Hp Helems. unfold Mem.Join, Join.
  rewrite (make_copy h p) by assumption.
  destruct (copied h p Hp) as (Hext & Hwf & Hread & Hnew).
  pose proof (Join_loop_sim h elems Helems _ _ Hext Hwf Hnew) as Hsim.
  rewrite Hread in Hsim. rewrite copy_make. exact Hsim.
Qed.

End Functions.

End MemRefinement.


(* ================================================================= *)
(** * Further properties *)

(** ** Strings in the syntax of RFC 6901 *)

Lemma escapesFrom_app (a b : string) :
  forall pending,
    escapesFrom pending a = true ->
    escapesFrom pending (a ++ b) = escapesFrom false b.
Proof.
  induction a as [|c a IH]; intros pending H.
  - destruct pending; [discriminate|reflexivity].
  - cbn in *. destruct pending.
    + apply andb_true_iff in H as [-> H]. cbn. now apply IH.
    + now apply IH.
Qed.

Lemma escapesFrom_escapeByte (c : ascii) : escapesFrom false (escapeByte c) = true.
Proof.
  unfold escapeByte.
  case_byte c "~"%char; [reflexivity|].
  case_byte c "/"%char; [reflexivity|].
  cbn. now rewrite E.
Qed.

Lemma escapesFrom_escapeToken (t : string) :
  escapesFrom false (escapeToken t) = true.
Proof.
  rewrite escapeToken_bytes.
  induction t as [|c t IH]; [reflexivity|].
  cbn [flatMap]. rewrite escapesFrom_app by apply escapesFrom_escapeByte.
  exact IH.
Qed.

Lemma escapesFrom_Join (l : list string) :
  Forall (fun t => escapesFrom false t = true) l ->
  escapesFrom false (strings.Join l "/") = true.
Proof.
  induction l as [|t l IH]; intros Hall; [reflexivity|].
  inversion Hall as [|? ? Ht Hl]; subst.
  destruct l as [|t' l]; [exact Ht|].
  change (strings.Join (t :: t' :: l) "/")
    with (t ++ String "/" (strings.Join (t' :: l) "/"))%string.
  rewrite escapesFrom_app by exact Ht.
  cbn [escapesFrom]. cbn [Ascii.eqb Bool.eqb]. now apply IH.
Qed.

Lemma Pointer_String_wellFormed (p : Pointer) :
  wellFormed (Pointer_String p) = true.
Proof.
  destruct p as [|t p]; [reflexivity|].
  unfold Pointer_String. cbn -[strings.Join map].
  apply escapesFrom_Join, Forall_forall. intros x Hx.
  apply in_map_iff in Hx as [y [<- _]]. apply escapesFrom_escapeToken.
Qed.

(** A token with well-formed escapes and no separator is the escaped
    form of a token. *)
Lemma escaped_form (t : string) :
  hasByte "/" t = false ->
  (escapesFrom false t = true -> exists u, t = flatMap escapeByte u)
  /\ (escapesFrom true t = true ->
      exists u, String "~" t = flatMap escapeByte u).
Proof.
  induction t as [|c t IH]; intros Hno.
  - split; [|discriminate]. now exists "".
  - cbn in Hno. apply orb_false_iff in Hno as [Hc Hno].
    destruct (IH Hno) as [IH0 IH1]. split; cbn [escapesFrom]; intros H.
    + case_byte c "~"%char.
      * cbn in H. apply (IH1 H).
      * destruct (IH0 H) as [u ->].
        exists (String c u). cbn [flatMap]. unfold escapeByte.
        now rewrite E, Hc.
    + apply andb_true_iff in H as [Hd H]. destruct (IH0 H) as [u ->].
      apply orb_true_iff in Hd as [Hd|Hd]; apply Ascii.eqb_eq in Hd; subst c.
      * now exists (String "~" u).
      * now exists (String "/" u).
Qed.

Lemma escape_unescape (t : string) :
  hasByte "/" t = false -> escapesFrom false t = true ->
  escapeToken (unescapeToken t) = t.
Proof.
  intros Hno Hok. destruct (proj1 (escaped_form t Hno) Hok) as [u ->].
  rewrite <- escapeToken_bytes. now rewrite unescape_escape.
Qed.

(** The pieces of [splitFrom]: joined again they are the string, none
    holds a separator, and their escapes are well formed when those of
    the string are. *)
Lemma splitFrom_pieces (s : string) :
  forall pending,
    let '(piece, rest) := strings.splitFrom "/" 0 s in
    strings.Join (piece :: rest) "/" = s
    /\ Forall (fun t => hasByte "/" t = false) (piece :: rest)
    /\ length rest = countByte "/" s
    /\ (escapesFrom pending s = true ->
        escapesFrom pending piece = true
        /\ Forall (fun t => escapesFrom false t = true) rest).
Proof.
  induction s as [|c s IH]; intros pending.
  - cbn. repeat split; auto.
  - cbn [strings.splitFrom strings.HasPrefix String.length Nat.sub].
    rewrite andb_true_r.
    destruct (strings.splitFrom "/" 0 s) as [piece rest] eqn:Es.
    case_byte c "/"%char.
    + specialize (IH false) as (HJ & HF & HL & HE).
      split; [|split; [|split]].
      * cbn [strings.Join]. cbn [append]. now rewrite <- HJ.
      * constructor; [reflexivity|exact HF].
      * cbn. now rewrite HL.
      * intros H. destruct pending; [discriminate|].
        cbn in H. destruct (HE H). split; [reflexivity|now constructor].
    + specialize (IH (if pending then false else Ascii.eqb c "~"))
        as (HJ & HF & HL & HE).
      apply Forall_cons_iff in HF as [Hp Hr].
      split; [|split; [|split]].
      * destruct rest; cbn [strings.Join append] in *; congruence.
      * constructor; [cbn; now rewrite E|exact Hr].
      * cbn. now rewrite E, HL.
      * intros H. cbn [escapesFrom] in *. destruct pending.
        -- apply andb_true_iff in H as [-> H]. now apply HE.
        -- now apply HE.
Qed.

Lemma Join_Split (s : string) : strings.Join (strings.Split s "/") "/" = s.
Proof.
  unfold strings.Split. generalize (splitFrom_pieces s false).
  destruct (strings.splitFrom "/" 0 s). now intros [H _].
Qed.

Lemma length_Split (s : string) :
  length (strings.Split s "/") = S (countByte "/" s).
Proof.
  unfold strings.Split. generalize (splitFrom_pieces s false).
  destruct (strings.splitFrom "/" 0 s). intros (_ & _ & H & _). cbn. now rewrite H.
Qed.

Lemma Split_tokens (s : string) :
  escapesFrom false s = true ->
  Forall (fun t => hasByte "/" t = false /\ escapesFrom false t = true)
         (strings.Split s "/").
Proof.
  intros Hok. unfold strings.Split. generalize (splitFrom_pieces s false).
  destruct (strings.splitFrom "/" 0 s) as [piece rest].
  intros (_ & HF & _ & HE). destruct (HE Hok) as [Hp Hr].
  inversion HF as [|? ? Hp' Hr']; subst.
  constructor; [now split|].
  apply Forall_forall. intros x Hx. split.
  - now apply (proj1 (Forall_forall _ _) Hr').
  - now apply (proj1 (Forall_forall _ _) Hr).
Qed.

(** What [parse] reads from a string in the syntax of RFC 6901 prints
    as that string. *)
Lemma Pointer_String_parse (s : string) (p : Pointer) :
  wellFormed s = true -> parse s = (p, None) -> Pointer_String p = s.
Proof.
  intros Hwf Hp. destruct s as [|c s]; [now inversion Hp|].
  cbn in Hwf. apply andb_true_iff in Hwf as [Hc Hok].
  apply Ascii.eqb_eq in Hc. subst c. cbn in Hok.
  change (parse (String "/" s))
    with (map unescapeToken (strings.Split s "/"), @None error) in Hp.
  assert (Ep : p = map unescapeToken (strings.Split s "/")) by congruence.
  subst p. clear Hp. unfold Pointer_String.
  rewrite length_map, length_Split. cbn [Nat.eqb append].
  f_equal. rewrite map_map.
  rewrite <- (Join_Split s) at 2. f_equal.
  rewrite <- (map_id (strings.Split s "/")) at 2.
  apply map_ext_in. intros x Hx.
  destruct (proj1 (Forall_forall _ _) (Split_tokens s Hok) x Hx) as [Hno Hx'].
  now apply escape_unescape.
Qed.

(** X1: [String] undoes [parse] exactly on the strings of RFC 6901:
    what [parse] reads from a string prints as that string if and
    only if the string is empty or starts with [/] and each [~] in it
    is followed by [0] or [1]. *)
Theorem String_of_parse (s : string) (p : Pointer) :
  parse s = (p, None) ->
  (Pointer_String p = s <-> wellFormed s = true).
Proof.
  intros Hp. split.
  - intros <-. apply Pointer_String_wellFormed.
  - intros Hwf. now apply Pointer_String_parse.
Qed.

Lemma String_of_parse_witness :
  parse "/a~1b/~0c//" = (["a/b"; "~c"; ""; ""], None)
  /\ (Pointer_String ["a/b"; "~c"; ""; ""] = "/a~1b/~0c//"
      <-> wellFormed "/a~1b/~0c//" = true).
Proof.
  split; [reflexivity|].
  apply (String_of_parse "/a~1b/~0c//" ["a/b"; "~c"; ""; ""]). reflexivity.
Defined.

(** ** Concatenation *)

Lemma append_assoc (a b c : string) :
  ((a ++ b) ++ c)%string = (a ++ (b ++ c))%string.
Proof. induction a as [|x a IH]; cbn; [|rewrite IH]; reflexivity. Qed.

Lemma Join_cons_cons (t t' : string) (l : list string) :
  strings.Join (t :: t' :: l) "/"
  = (t ++ String "/" (strings.Join (t' :: l) "/"))%string.
Proof. reflexivity. Qed.

Lemma Join_app (a b : list string) :
  a <> [] -> b <> [] ->
  strings.Join (a ++ b) "/"
  = (strings.Join a "/" ++ String "/" (strings.Join b "/"))%string.
Proof.
  induction a as [|t a IH]; [congruence|]. intros _ Hb.
  destruct a as [|t' a].
  - destruct b as [|u b]; [congruence|]. reflexivity.
  - cbn [app]. rewrite !Join_cons_cons.
    change (t' :: a ++ b) with ((t' :: a) ++ b).
    rewrite IH by (congruence || assumption).
    now rewrite append_assoc.
Qed.

Lemma Pointer_String_app (p q : Pointer) :
  Pointer_String (p ++ q) = (Pointer_String p ++ Pointer_String q)%string.
Proof.
  destruct p as [|t p]; [reflexivity|].
  destruct q as [|u q].
  - rewrite app_nil_r. change (Pointer_String []) with "".
    now rewrite append_empty.
  - unfold Pointer_String. cbn [app length Nat.eqb].
    change (t :: p ++ u :: q) with ((t :: p) ++ (u :: q)).
    rewrite map_app, Join_app by discriminate.
    reflexivity.
Qed.

Lemma concat_cons (x : string) (xs : list string) :
  String.concat "" (x :: xs) = (x ++ String.concat "" xs)%string.
Proof. destruct xs; cbn; [now rewrite append_empty|reflexivity]. Qed.

(** X2: the string of the tokens of [p] followed by the tokens of [q]
    is the string of [p] followed by the string of [q]; so the string
    of the tokens of several pointers in a row is their strings in a
    row. *)
Theorem String_of_concatenation :
  (forall p q : Pointer,
      Pointer_String (p ++ q) = (Pointer_String p ++ Pointer_String q)%string)
  /\ (forall ps : list Pointer,
         Pointer_String (concat ps) = String.concat "" (map Pointer_String ps)).
Proof.
  split; [exact Pointer_String_app|].
  induction ps as [|p ps IH]; [reflexivity|].
  cbn [concat map]. now rewrite Pointer_String_app, concat_cons, IH.
Qed.

Section SyntaxComposition.

Context {platform : Platform}.

Lemma New_Pointer (v : Pointer) : New (APointer v) = Return (v, None).
Proof. cbn. now rewrite copy_make. Qed.

(** The loop of [Join] over elements that [New] accepts appends their
    tokens and goes on. *)
Lemma Join_loop_gives (elems : list arg) (tokss : list Pointer) :
  Forall2 gives elems tokss ->
  forall newPtr rest,
    Join_loop newPtr (elems ++ rest) = Join_loop (newPtr ++ concat tokss) rest.
Proof.
  induction 1 as [|elm toks elems tokss Hg _ IH]; intros newPtr rest.
  - cbn. now rewrite app_nil_r.
  - cbn [app concat]. rewrite app_assoc, <- IH. unfold gives in Hg.
    destruct elm as [e|v|u|t].
    + rewrite New_Pointer in Hg. injection Hg as <-. reflexivity.
    + cbn [Join_loop]. rewrite Hg. reflexivity.
    + cbn [Join_loop]. rewrite Hg. reflexivity.
    + discriminate.
Qed.

Lemma Join_gives (p : Pointer) (elems : list arg) (tokss : list Pointer) :
  Forall2 gives elems tokss ->
  Join p elems = Return (p ++ concat tokss, None).
Proof.
  intros H. unfold Join. rewrite copy_make.
  rewrite <- (app_nil_r elems), (Join_loop_gives _ _ H). reflexivity.
Qed.

(** When the loop of [Join] returns no error, [New] accepted every
    element, and the loop appended their tokens. *)
Lemma Join_loop_accepts (elems : list arg) :
  forall newPtr q,
    Join_loop newPtr elems = Return (q, None) ->
    exists tokss, Forall2 gives elems tokss /\ q = newPtr ++ concat tokss.
Proof.
  induction elems as [|elm elems IH]; intros newPtr q H.
  - cbn in H. injection H as <-. exists []. split; [constructor|].
    cbn. now rewrite app_nil_r.
  - cbn [Join_loop] in H.
    assert (Hstep : forall e, gives elm e ->
                              Join_loop (newPtr ++ e) elems = Return (q, None) ->
                              exists tokss, Forall2 gives (elm :: elems) tokss
                                            /\ q = newPtr ++ concat tokss).
    { intros e Hg He. destruct (IH _ _ He) as (tokss & HF & ->).
      exists (e :: tokss). split; [now constructor|].
      cbn [concat]. now rewrite app_assoc. }
    destruct elm as [e|v|u|t].
    + apply (Hstep e); [apply New_Pointer|exact H].
    + destruct (New (AString v)) as [[elmPtr [e|]]|] eqn:EN; cbn in H;
        [discriminate|now apply (Hstep elmPtr)|discriminate].
    + destruct (New (AURL u)) as [[elmPtr [e|]]|] eqn:EN; cbn in H;
        [discriminate|now apply (Hstep elmPtr)|discriminate].
    + discriminate.
Qed.

(** X3: [Join] returns a pointer and no error exactly when [New]
    accepts every element, and the pointer then has the tokens of the
    receiver followed, in order, by the tokens [New] gives for each
    element. *)
Theorem Join_appends_tokens (p : Pointer) (elems : list arg) (q : Pointer) :
  Join p elems = Return (q, None)
  <-> exists tokss, Forall2 gives elems tokss /\ q = p ++ concat tokss.
Proof.
  split.
  - unfold Join. rewrite copy_make. apply Join_loop_accepts.
  - intros (tokss & HF & ->). now apply Join_gives.
Qed.

(** X4: [Join] stops at the first element that [New] does not accept:
    it returns the nil pointer and the error of [New] for a string or
    a URL that does not parse, and it panics on a nil [*url.URL] as
    [New] does, whatever the elements after it. *)
Theorem Join_stops_at_first_failure (p : Pointer) (before after : list arg)
        (tokss : list Pointer) (elm : arg) :
  Forall2 gives before tokss ->
  (forall x e, New elm = Return (x, Some e) ->
               (forall typeName, elm <> AOther typeName) ->
               Join p (before ++ elm :: after) = Return ([], Some e))
  /\ (forall reason, New elm = Panic reason ->
                     Join p (before ++ elm :: after) = Panic reason)
  /\ (elm = AURL None -> exists reason, New elm = Panic reason).
Proof.
  intros H. unfold Join. rewrite copy_make.
  rewrite (Join_loop_gives _ _ H). repeat split.
  - intros x e HN Hother. destruct elm as [v|v|u|t].
    + rewrite New_Pointer in HN. discriminate.
    + cbn [Join_loop]. now rewrite HN.
    + cbn [Join_loop]. now rewrite HN.
    + now destruct (Hother t).
  - intros reason HN. destruct elm as [v|v|u|t].
    + rewrite New_Pointer in HN. discriminate.
    + cbn [Join_loop]. now rewrite HN.
    + cbn [Join_loop]. now rewrite HN.
    + discriminate.
  - intros ->. cbn. eauto.
Qed.

Lemma gives_wellFormed (s : string) :
  wellFormed s = true ->
  exists toks, gives (AString s) toks /\ Pointer_String toks = s.
Proof.
  intros Hwf. destruct s as [|c s]; [now exists []|].
  pose proof Hwf as Hc. cbn in Hc. apply andb_true_iff in Hc as [Hc _].
  apply Ascii.eqb_eq in Hc. subst c.
  destruct (parse (String "/" s)) as [toks err] eqn:Ep.
  assert (err = None) as ->.
  { cbn in Ep. now inversion Ep. }
  exists toks. split.
  - unfold gives. now rewrite New_bare, Ep.
  - now apply (Pointer_String_parse _ _ Hwf Ep).
Qed.

(** X5: [Join] with strings in the syntax of RFC 6901 succeeds, and
    the string of the pointer it returns is the string of the pointer
    followed by those strings. *)
Theorem Join_of_strings (p : Pointer) (ss : list string) :
  Forall (fun s => wellFormed s = true) ss ->
  exists q, Join p (map AString ss) = Return (q, None)
            /\ Pointer_String q
               = (Pointer_String p ++ String.concat "" ss)%string.
Proof.
  intros Hall.
  assert (exists tokss, Forall2 gives (map AString ss) tokss
                        /\ Pointer_String (concat tokss) = String.concat "" ss)
    as (tokss & HF & HS).
  { induction Hall as [|s ss Hs _ (tokss & HF & HS)].
    - exists []. split; [constructor|reflexivity].
    - destruct (gives_wellFormed s Hs) as (toks & Hg & Ht).
      exists (toks :: tokss). split; [now constructor|].
      cbn [concat]. now rewrite Pointer_String_app, concat_cons, Ht, HS. }
  exists (p ++ concat tokss). split.
  - now apply Join_gives.
  - now rewrite Pointer_String_app, HS.
Qed.

(** ** [RelativeTo] on a prefix that is not empty *)

Lemma RelativeTo_gives (p : Pointer) (other : arg) (q : Pointer) :
  gives other q -> RelativeTo p other = RelativeTo p (APointer q).
Proof.
  unfold gives. intros Hg. destruct other as [v|v|u|t].
  - rewrite New_Pointer in Hg. now injection Hg as <-.
  - cbn [RelativeTo]. now rewrite Hg.
  - cbn [RelativeTo]. now rewrite Hg.
  - discriminate.
Qed.

Lemma RelativeTo_prefix (q r : Pointer) :
  q <> [] -> RelativeTo (q ++ r) (APointer q) = Return (r, None).
Proof.
  intros Hq. rewrite (RelativeTo_nonempty_prefix _ _ Hq).
  rewrite isPrefix_app, length_app.
  replace (length q <=? length q + length r)%nat with true
    by (symmetry; apply Nat.leb_le; lia).
  cbn [andb]. rewrite skipn_app, skipn_all, Nat.sub_diag. reflexivity.
Qed.

(** X6: on a prefix that is not empty, given as a pointer, a string or
    a URL that [New] accepts, [RelativeTo] returns the tokens after
    the prefix when the pointer starts with the prefix, and otherwise
    the plain error [<p> does not start with <prefix>]. *)
Theorem RelativeTo_strips_prefix (p q : Pointer) (other : arg) :
  gives other q ->
  q <> [] ->
  (forall r, p = q ++ r -> RelativeTo p other = Return (r, None))
  /\ ((forall r, p <> q ++ r) ->
      exists x, RelativeTo p other
                = Return (x, Some (errorString
                                     (Pointer_String p ++ " does not start with "
                                        ++ Pointer_String q)))).
Proof.
  intros Hg Hq. rewrite (RelativeTo_gives _ _ _ Hg). split.
  - intros r ->. now apply RelativeTo_prefix.
  - intros Hno. rewrite (RelativeTo_nonempty_prefix _ _ Hq).
    destruct (isPrefix q p) eqn:Epre.
    + destruct (Hno _ (isPrefix_inv _ _ Epre)).
    + rewrite andb_false_r. unfold doesNotStartWith. eauto.
Qed.

Lemma Join_loop_prefix (elems : list arg) :
  forall newPtr x,
    Join_loop newPtr elems = Return (x, None) -> exists r, x = newPtr ++ r.
Proof.
  induction elems as [|elm elems IH]; intros newPtr x H.
  - cbn in H. injection H as <-. exists []. now rewrite app_nil_r.
  - cbn [Join_loop] in H.
    assert (Hstep : forall e, Join_loop (newPtr ++ e) elems = Return (x, None) ->
                              exists r, x = newPtr ++ r).
    { intros e He. destruct (IH _ _ He) as [r ->]. exists (e ++ r).
      now rewrite app_assoc. }
    destruct elm as [e|v|u|t].
    + eauto.
    + destruct (New (AString v)) as [[elmPtr [e|]]|]; cbn in H;
        [discriminate|eauto|discriminate].
    + destruct (New (AURL u)) as [[elmPtr [e|]]|]; cbn in H;
        [discriminate|eauto|discriminate].
    + discriminate.
Qed.

(** X7: [RelativeTo] undoes [Join]: what [Join] returns for a pointer
    that is not empty starts with that pointer, and is relative to it
    by the tokens [Join] appended. *)
Theorem RelativeTo_undoes_Join (p : Pointer) (elems : list arg) (q : Pointer) :
  p <> [] ->
  Join p elems = Return (q, None) ->
  exists r, q = p ++ r /\ RelativeTo q (APointer p) = Return (r, None).
Proof.
  intros Hp HJ. unfold Join in HJ. rewrite copy_make in HJ.
  destruct (Join_loop_prefix _ _ _ HJ) as [r ->]. exists r. split; [reflexivity|].
  now apply RelativeTo_prefix.
Qed.

End SyntaxComposition.

Lemma Join_appends_tokens_witness :
  @Join examplePlatform ["foo"]
        [AString "/0"; APointer ["a/b"]; AString "#/c"; AString ""]
  = Return (["foo"; "0"; "a/b"; "c"], None).
Proof.
  apply (@Join_appends_tokens examplePlatform).
  exists [["0"]; ["a/b"]; ["c"]; []]. split; [|reflexivity].
  repeat constructor.
Defined.

Lemma Join_stops_at_first_failure_witness :
  @Join examplePlatform ["foo"]
        ([APointer ["a"]; AString "/b"] ++ AString "c" :: [AOther "int"])
  = Return ([], Some (wrapError (errorString "missing protocol scheme")
                                ErrInvalidJSONPointer
                                "failed to parse URL: missing protocol scheme")).
Proof.
  refine (proj1 (@Join_stops_at_first_failure examplePlatform ["foo"]
                   [APointer ["a"]; AString "/b"] [AOther "int"]
                   [["a"]; ["b"]] (AString "c") _) _ _ _ _).
  - repeat constructor.
  - reflexivity.
  - intros typeName. discriminate.
Defined.

Lemma Join_of_strings_witness :
  exists q, @Join examplePlatform ["foo"] (map AString ["/a~1b"; ""; "/~0/"])
            = Return (q, None)
            /\ Pointer_String q
               = (Pointer_String ["foo"] ++ String.concat "" ["/a~1b"; ""; "/~0/"])%string.
Proof.
  apply (@Join_of_strings examplePlatform ["foo"] ["/a~1b"; ""; "/~0/"]).
  repeat constructor.
Defined.

Lemma RelativeTo_strips_prefix_witness :
  @RelativeTo examplePlatform ["a"; "b"; "c"] (AString "/a/b") = Return (["c"], None).
Proof.
  refine (proj1 (@RelativeTo_strips_prefix examplePlatform ["a"; "b"; "c"]
                   ["a"; "b"] (AString "/a/b") _ _) ["c"] _).
  - reflexivity.
  - discriminate.
  - reflexivity.
Defined.

Lemma RelativeTo_undoes_Join_witness :
  exists r, ["foo"; "0"; "b"] = ["foo"] ++ r
            /\ @RelativeTo examplePlatform ["foo"; "0"; "b"] (APointer ["foo"])
               = Return (r, None).
Proof.
  apply (@RelativeTo_undoes_Join examplePlatform ["foo"]
           [AString "/0"; APointer ["b"]]).
  - discriminate.
  - reflexivity.
Defined.

(** X8: [IsEmpty] holds exactly of the pointer whose string is empty,
    and the only string [parse] reads as such a pointer is the empty
    string. *)
Theorem IsEmpty_iff_root (p : Pointer) :
  (IsEmpty p = true <-> Pointer_String p = "")
  /\ (forall s, parse s = (p, None) -> (IsEmpty p = true <-> s = "")).
Proof.
  split.
  - destruct p as [|t p]; [now split|].
    split; [discriminate|]. unfold Pointer_String. cbn. discriminate.
  - intros s Hp. destruct s as [|c s].
    + cbn in Hp. injection Hp as <-. now split.
    + split; [|discriminate]. intros He.
      destruct p as [|t p]; [|discriminate].
      cbn in Hp. destruct (negb (Ascii.eqb c "/")); [discriminate|].
      unfold strings.Split, separator in Hp.
      destruct (strings.splitFrom "/" 0 s). discriminate.
Qed.

(** X9: the pointer [parse] reads from a string has as many tokens as
    the string has separators [/]. *)
Theorem parse_token_count (s : string) (p : Pointer) :
  parse s = (p, None) -> length p = countByte "/" s.
Proof.
  intros Hp. destruct s as [|c s]; [now inversion Hp|].
  unfold parse, separator in Hp.
  case_byte c "/"%char; [|discriminate].
  cbn [negb] in Hp.
  assert (Ep : p = map unescapeToken (strings.Split s "/")) by congruence.
  subst p. rewrite length_map, length_Split. reflexivity.
Qed.

Lemma parse_token_count_witness :
  length ["a"; ""; "b~/c"] = countByte "/" "/a//b~~1c".
Proof.
  apply (parse_token_count "/a//b~~1c" ["a"; ""; "b~/c"]). reflexivity.
Defined.


(* ================================================================= *)
(** ** [Get] and [Set] on documents *)

Section Reading.

Context {platform : Platform}.

Import reflect.

Lemma getValue_tags_alike (a b : Value_) (key : string)
      (fields : list (StructField * value)) :
  data a = data b -> flagRO a = flagRO b ->
  forall i, alikeResult (getValue_tags a key i fields)
                        (getValue_tags b key i fields).
Proof.
  intros Hd Hro. induction fields as [|[sf d] fields IH]; intros i.
  - cbn. auto.
  - cbn [getValue_tags].
    destruct (_ && _)%bool; [|apply IH].
    destruct (_ && _)%bool; [|apply IH].
    unfold Field. rewrite Hd, Hro.
    destruct (data b); cbn; auto.
    destruct (nth_error _ i) as [[f x]|]; cbn; auto.
Qed.

(** [getValue] reads neither [flagAddr] nor the place of the
    document. *)
Lemma getValue_valid_alike (n : nat) :
  forall d addr addr' ro at_ at_' key,
    elemDepth d <= n ->
    alikeResult (getValue_valid d addr ro at_ key)
                (getValue_valid d addr' ro at_' key).
Proof.
  induction n as [|n IH]; intros d addr addr' ro at_ at_' key Hdepth;
    destruct d as [| | | | | | | | | |t [d'|]|nm m [d'|]|];
    cbn [elemDepth] in Hdepth; try lia;
    cbn -[strconv.Atoi getValue_tags Z.leb]; auto.
  all: try (apply IH; lia).
  all: try (destruct (strconv.Atoi key); cbn; auto;
            destruct (_ <=? _)%Z; cbn; auto;
            destruct (_ || _)%bool; cbn; auto;
            destruct (nth_error _ _); cbn; auto).
  all: try (destruct (negb _); cbn; auto;
            destruct (lookup _ _); cbn; auto).
  all: destruct (fieldIndex _ _ _) as [i|]; cbn -[getValue_tags];
    [destruct (nth_error _ i) as [[f x]|]; cbn; auto|];
    now apply getValue_tags_alike.
Qed.

Lemma getValue_alike (a b : Value) (key : string) :
  alike a b -> alikeResult (getValue a key) (getValue b key).
Proof.
  destruct a as [a|], b as [b|]; cbn; try tauto.
  intros [Hd Hro]. rewrite Hd, Hro.
  apply (getValue_valid_alike (elemDepth (data b))). lia.
Qed.

Lemma getValues_alike (p : Pointer) :
  forall a b, alike a b -> alikeResult (getValues a p) (getValues b p).
Proof.
  induction p as [|part p IH]; intros a b Hab; [cbn; auto|].
  cbn [getValues]. pose proof (getValue_alike a b part Hab) as Hstep.
  destruct (getValue a part) as [[a' ea]|], (getValue b part) as [[b' eb]|];
    cbn in Hstep; try tauto; cbn [bind].
  destruct Hstep as [Hab' <-]. destruct ea; [cbn; auto|]. now apply IH.
Qed.

Lemma Get_result_alike (a b : Value) : alike a b -> Get_result a = Get_result b.
Proof.
  destruct a as [a|], b as [b|]; cbn; try tauto.
  intros [Hd Hro]. unfold Get_result. cbn. now rewrite Hd, Hro.
Qed.

Lemma Get_unfold (p : Pointer) (doc : option value) :
  Get p doc
  = '(resultVal, err) <- getValues (ValueOf doc) p ;;
    match err with
    | Some e => Return (None, Some e)
    | None => Get_result resultVal
    end.
Proof. reflexivity. Qed.

(** [Get] from [Value]s that are alike. *)
Lemma Get_alike (p : Pointer) (a b : Value) :
  alike a b ->
  ('(resultVal, err) <- getValues a p ;;
   match err with
   | Some e => Return (None, Some e)
   | None => Get_result resultVal
   end)
  = ('(resultVal, err) <- getValues b p ;;
     match err with
     | Some e => Return (None, Some e)
     | None => Get_result resultVal
     end).
Proof.
  intros Hab. pose proof (getValues_alike p a b Hab) as H.
  destruct (getValues a p) as [[a' ea]|], (getValues b p) as [[b' eb]|];
    cbn in H; try tauto; cbn [bind].
  - destruct H as [Hab' <-]. destruct ea; [reflexivity|].
    now apply Get_result_alike.
  - now subst.
Qed.

Lemma getValues_app (p q : Pointer) :
  forall a,
    getValues a (p ++ q)
    = '(x, err) <- getValues a p ;;
      match err with
      | Some e => Return (None, Some e)
      | None => getValues x q
      end.
Proof.
  induction p as [|part p IH]; intros a; [reflexivity|].
  cbn [app getValues].
  destruct (getValue a part) as [[a' [e|]]|]; cbn [bind]; auto.
Qed.

(** What [Value.Interface] returns is not an interface. *)
Lemma Value_Interface_idem (n : nat) :
  forall d v, elemDepth d <= n -> Value_Interface d = Some v ->
              kindOf v <> Interface /\ Value_Interface v = Some v.
Proof.
  induction n as [|n IH]; intros d v Hdepth;
    destruct d as [| | | | | | | | | |t [d'|]|nm m [d'|]|];
    cbn [elemDepth] in Hdepth; try lia; cbn [Value_Interface];
    try (intros [= <-]; split; [try destruct k; discriminate|reflexivity]);
    try discriminate.
  apply IH. lia.
Qed.

(** [getValue] on an interface is [getValue] on what it holds. *)
Lemma getValue_valid_Interface (n : nat) :
  forall d v addr addr' ro at_ at_' key,
    elemDepth d <= n -> Value_Interface d = Some v ->
    alikeResult (getValue_valid d addr ro at_ key)
                (getValue_valid v addr' ro at_' key).
Proof.
  induction n as [|n IH]; intros d v addr addr' ro at_ at_' key Hdepth Hv.
  - destruct d as [| | | | | | | | | |t [d'|]|nm m [d'|]|];
      cbn [elemDepth] in Hdepth; try lia; cbn [Value_Interface] in Hv;
      try discriminate; injection Hv as <-;
      apply (getValue_valid_alike 0); cbn; lia.
  - destruct d as [| | | | | | | | | |t [d'|]|nm m [d'|]|];
      cbn [Value_Interface] in Hv; try discriminate.
    13: { cbn [getValue_valid]. apply IH; [cbn in Hdepth; lia|exact Hv]. }
    all: injection Hv as <-.
    all: match goal with |- alikeResult (getValue_valid ?d _ _ _ _) _ =>
           apply (getValue_valid_alike (elemDepth d)); lia end.
Qed.

(** X10: [Get] composes: when [p] points to a value [v] of the
    document, [p] followed by [q] points to what [q] points to in
    [v], with the same result, error or panic. *)
Theorem Get_composes (p q : Pointer) (doc : option value) (v : value) :
  Get p doc = Return (Some v, None) ->
  Get (p ++ q) doc = Get q (Some v).
Proof.
  intros Hp. rewrite Get_unfold in Hp.
  rewrite (Get_unfold (p ++ q)), getValues_app.
  destruct (getValues (ValueOf doc) p) as [[r [e|]]|]; cbn [bind] in *;
    try discriminate.
  destruct r as [r|]; [|discriminate]. unfold Get_result in Hp. cbn in Hp.
  destruct (flagRO r) eqn:Hro; cbn in Hp; [discriminate|].
  injection Hp as Hv.
  destruct (Value_Interface_idem _ _ _ (Nat.le_refl _) Hv) as [Hk Hvv].
  rewrite Get_unfold. cbn [ValueOf]. rewrite (ValueOf_at_scalar _ _ Hk).
  destruct q as [|part q].
  - cbn. unfold Get_result. cbn. now rewrite Hro, Hv, Hvv.
  - cbn [getValues getValue data flagAddr flagRO loc]. rewrite Hro.
    pose proof (getValue_valid_Interface _ (data r) v (flagAddr r) false false
                  (loc r) [] part (Nat.le_refl _) Hv) as Hstep.
    destruct (getValue_valid (data r) _ _ _ _) as [[a' ea]|],
             (getValue_valid v _ _ _ _) as [[b' eb]|];
      cbn in Hstep; try tauto; cbn [bind].
    + destruct Hstep as [Hab <-]. destruct ea; [reflexivity|].
      now apply Get_alike.
    + now subst.
Qed.


(** [getValue] on a nil interface. *)
Lemma getValue_valid_nil (n : nat) :
  forall d addr ro at_ key,
    elemDepth d <= n -> Value_Interface d = None ->
    getValue_valid d addr ro at_ key
    = Return (None, Some (newError ErrGet "document value is nil")).
Proof.
  induction n as [|n IH]; intros d addr ro at_ key Hdepth;
    destruct d as [| | | | | | | | | |t [d'|]|nm m [d'|]|];
    cbn [elemDepth] in Hdepth; try lia; cbn [Value_Interface];
    try discriminate; try reflexivity.
  intros Hv. cbn [getValue_valid]. apply IH; [lia|exact Hv].
Qed.

(** X11: below a nil value every token is an error: when [p] points
    to nil, [Get] on a longer pointer returns the error [document
    value is nil] of type [ErrGet]. *)
Theorem Get_below_nil (p q : Pointer) (part : string) (doc : option value) :
  Get p doc = Return (None, None) ->
  Get (p ++ part :: q) doc
  = Return (None, Some (newError ErrGet "document value is nil")).
Proof.
  intros Hp. rewrite Get_unfold in Hp.
  rewrite (Get_unfold (p ++ part :: q)), getValues_app.
  destruct (getValues (ValueOf doc) p) as [[r [e|]]|]; cbn [bind] in *;
    try discriminate.
  destruct r as [r|]; [|discriminate]. unfold Get_result in Hp. cbn in Hp.
  destruct (flagRO r) eqn:Hro; cbn in Hp; [discriminate|].
  injection Hp as Hv.
  cbn [getValues getValue].
  now rewrite (getValue_valid_nil _ _ _ _ _ _ (Nat.le_refl _) Hv).
Qed.

(** X12: with a pointer that is not empty, [Get] reads a document
    passed by pointer as it reads the document itself; on a nil
    pointer it returns the error [document value is nil]. *)
Theorem Get_through_pointer (t : rtype) (part : string) (p : Pointer) :
  (forall d, kindOf d <> Interface ->
             Get (part :: p) (Some (GPointer t (Some d)))
             = Get (part :: p) (Some d))
  /\ Get (part :: p) (Some (GPointer t None))
     = Return (None, Some (newError ErrGet "document value is nil")).
Proof.
  split; [|reflexivity].
  intros d Hk. rewrite !Get_unfold. cbn [ValueOf].
  rewrite (ValueOf_at_scalar _ d Hk).
  cbn [ValueOf_at getValues getValue data flagAddr flagRO loc getValue_valid].
  pose proof (getValue_valid_alike _ d true false false ([] ++ [StepElem]) []
                part (Nat.le_refl _)) as Hstep.
  destruct (getValue_valid d true _ _ _) as [[a' ea]|],
           (getValue_valid d false _ _ _) as [[b' eb]|];
    cbn in Hstep; try tauto; cbn [bind].
  - destruct Hstep as [Hab <-]. destruct ea; [reflexivity|].
    now apply Get_alike.
  - now subst.
Qed.

(** X13: [Get] at the ends: the empty pointer gives the document
    itself and panics on the nil document; a pointer that is not
    empty is an error of type [ErrGet] on the nil document and on a
    scalar. *)
Theorem Get_at_the_ends :
  (forall d, kindOf d <> Interface -> Get [] (Some d) = Return (Some d, None))
  /\ (exists reason, Get [] None = Panic reason)
  /\ (forall part p,
         Get (part :: p) None
         = Return (None, Some (newError ErrGet "document value is invalid")))
  /\ (forall d part p,
         isScalar d = true ->
         Get (part :: p) (Some d)
         = Return (None, Some (newError ErrGet "primitive value has no fields"))).
Proof.
  split; [|split; [|split]].
  - intros d Hk. rewrite Get_unfold. cbn [ValueOf].
    rewrite (ValueOf_at_scalar _ d Hk). cbn. destruct d; try reflexivity.
    now destruct Hk.
  - cbn. eauto.
  - reflexivity.
  - intros d part p Hs. destruct d; try discriminate; reflexivity.
Qed.

(** X14: on a slice or an array, a token that [strconv.Atoi] reads as
    an index from [0] to below the length gives the element at that
    index; so do tokens with a sign or with leading zeros. *)
Theorem Get_sequence_element (t : rtype) (elems : list value) (key : string)
        (i : Z) (x : value) :
  strconv.Atoi key = inl i ->
  (0 <= i)%Z ->
  nth_error elems (Z.to_nat i) = Some x ->
  Get [key] (Some (GSlice t elems)) = Return (Value_Interface x, None)
  /\ Get [key] (Some (GArray t elems)) = Return (Value_Interface x, None).
Proof.
  intros Hkey Hpos Hx.
  assert (Hlen : (i < Z.of_nat (length elems))%Z).
  { assert (Z.to_nat i < length elems) by (apply nth_error_Some; congruence).
    lia. }
  split; rewrite Get_unfold;
    cbn [ValueOf ValueOf_at getValues getValue data flagAddr flagRO loc
         getValue_valid];
    rewrite Hkey; unfold Len, Index; cbn [data];
    (replace (Z.of_nat (length elems) <=? i)%Z with false
      by (symmetry; apply Z.leb_gt; lia));
    (replace (i <? 0)%Z with false by (symmetry; apply Z.ltb_ge; lia));
    cbn [orb bind]; rewrite Hx; reflexivity.
Qed.

(** A read-only [Value] stays read-only down the document. *)
Lemma getValue_tags_RO (a : Value_) (key : string)
      (fields : list (StructField * value)) (w : Value) :
  forall i, getValue_tags a key i fields = Return (w, None) ->
            exists w', w = Some w' /\ (flagRO a = true -> flagRO w' = true).
Proof.
  induction fields as [|[sf d] fields IH]; intros i; cbn.
  - discriminate.
  - destruct (_ && _)%bool; [|apply IH].
    destruct (_ && _)%bool; [|apply IH].
    unfold Field.
    destruct (data a); cbn; try discriminate.
    destruct (nth_error _ i) as [[f x]|]; cbn; [|discriminate].
    intros [= <-]. eexists. split; [reflexivity|]. cbn. now intros ->.
Qed.

(** [getValue] returns a valid [Value] when it returns no error; the
    [Value] is read-only if the document is. *)
Lemma getValue_valid_RO (n : nat) :
  forall d addr ro at_ key w,
    elemDepth d <= n ->
    getValue_valid d addr ro at_ key = Return (w, None) ->
    exists w', w = Some w' /\ (ro = true -> flagRO w' = true).
Proof.
  induction n as [|n IH]; intros d addr ro at_ key w Hdepth;
    destruct d as [| | | | | | | | | |t [d'|]|nm m [d'|]|];
    cbn [elemDepth] in Hdepth; try lia;
    cbn -[strconv.Atoi getValue_tags Z.leb]; try discriminate.
  all: try (apply IH; lia).
  all: try (destruct (strconv.Atoi key); cbn; [|discriminate];
            destruct (_ <=? _)%Z; cbn; [discriminate|];
            destruct (_ || _)%bool; cbn; [discriminate|];
            destruct (nth_error _ _); cbn; [|discriminate];
            intros [= <-]; eauto).
  all: try (destruct (negb _); cbn; [discriminate|];
            destruct (lookup _ _); cbn; [|discriminate];
            intros [= <-]; eauto).
  all: destruct (fieldIndex _ _ _) as [i|]; cbn -[getValue_tags].
  all: try (destruct (nth_error _ i) as [[f x]|]; cbn; [|discriminate];
            intros [= <-]; eexists; split; [reflexivity|];
            cbn; now intros ->).
  all: intros Htags; apply getValue_tags_RO in Htags; exact Htags.
Qed.

Lemma getValues_RO (p : Pointer) :
  forall a w,
    getValues (Some a) p = Return (w, None) ->
    exists w', w = Some w' /\ (flagRO a = true -> flagRO w' = true).
Proof.
  induction p as [|part p IH]; intros a w; cbn [getValues].
  - intros [= <-]. eauto.
  - cbn [getValue].
    destruct (getValue_valid _ _ _ _ _) as [[a' [e|]]|] eqn:Eg; cbn [bind];
      try discriminate.
    destruct (getValue_valid_RO _ _ _ _ _ _ _ (Nat.le_refl _) Eg)
      as (a'' & -> & Hro).
    intros Hw. destruct (IH _ _ Hw) as (w' & -> & Hro'). eauto.
Qed.


(** X15: [Get] and [Set] panic on a map to whose key type a string is
    not assignable (a [map[int]T]), whatever the token. *)
Theorem map_with_other_keys_panics (kt et : rtype)
        (entries : list (string * value)) (part : string) (p : Pointer) :
  stringAssignableTo kt = false ->
  (exists reason, Get (part :: p) (Some (GMap kt et entries)) = Panic reason)
  /\ (forall v, exists reason,
         Set_ (part :: p) (Some (GMap kt et entries)) v = Panic reason).
Proof.
  intros Hk. split; [|intros v]; unfold Get, Set_;
    cbn [ValueOf ValueOf_at getValues getValue data flagAddr flagRO loc
         getValue_valid];
    unfold MapIndex; cbn [data]; rewrite Hk; cbn; eauto.
Qed.

(** [setValue] on a slot that is an interface, or is not settable. *)
Lemma setValue_fails (slot : Value_) (v root : option value) :
  kindOf (data slot) = Interface \/ CanSet slot = false ->
  exists msg, setValue (Some slot) v root = (Some (errorString msg), root).
Proof.
  intros H. unfold setValue.
  destruct (kindOf (data slot)) eqn:Ek;
    try (destruct H as [H|H]; [discriminate H|]; rewrite H; cbn; eauto).
  clear H. unfold Elem. destruct (data slot) as [| | | | | | | | | | |nm m [d'|]|];
    try discriminate Ek; try (destruct k; discriminate Ek); cbn; eauto.
Qed.

Lemma ValueOf_not_settable (root : option value) (v : Value_) :
  ValueOf root = Some v -> flagAddr v = false /\ flagRO v = false.
Proof.
  destruct root as [r|]; [|discriminate]. cbn [ValueOf].
  generalize (@nil step) as at_.
  assert (H : forall n r at_, elemDepth r <= n -> ValueOf_at at_ r = Some v ->
                              flagAddr v = false /\ flagRO v = false).
  { clear r. induction n as [|n IH]; intros r at_ Hdepth;
      destruct r as [| | | | | | | | | |t [d'|]|nm m [d'|]|];
      cbn [elemDepth] in Hdepth; try lia; cbn [ValueOf_at];
      try discriminate; try (intros [= <-]; now split).
    apply IH. lia. }
  intros at_. now apply (H (elemDepth r)).
Qed.

Lemma Set_root_fails (root v : option value) :
  exists msg, Set_ [] root v = Return (Some (errorString msg), root).
Proof.
  unfold Set_. cbn [getValues bind].
  destruct (ValueOf root) as [slot|] eqn:Ev; [|cbn; eauto].
  destruct (ValueOf_not_settable _ _ Ev) as [Ha _].
  destruct (setValue_fails slot v root) as [msg ->]; [|eauto].
  right. unfold CanSet. now rewrite Ha.
Qed.

(** X19: what [Set] cannot set: the document itself (the empty
    pointer), a slot whose type is an interface, and an element of a
    map.  It returns an error and the document is as it was. *)
Theorem Set_cannot_set (root v : option value) :
  (exists msg, Set_ [] root v = Return (Some (errorString msg), root))
  /\ (forall p slot,
         getValues (ValueOf root) p = Return (Some slot, None) ->
         kindOf (data slot) = Interface ->
         exists msg, Set_ p root v = Return (Some (errorString msg), root))
  /\ (forall p m key r,
         getValues (ValueOf root) p = Return (Some m, None) ->
         kindOf (data m) = Map ->
         Set_ (p ++ [key]) root v = Return r ->
         exists e, r = (Some e, root)).
Proof.
  split; [apply Set_root_fails|split].
  - intros p slot Hget Hk. rewrite (Set_at_slot _ _ _ _ Hget).
    destruct (setValue_fails slot v root) as [msg ->]; eauto.
  - intros p m key r Hget Hk. unfold Set_. rewrite getValues_app, Hget.
    cbn [bind getValues getValue].
    destruct m as [d addr ro at_]. cbn [data flagAddr flagRO loc] in *.
    destruct d; try discriminate Hk; try (destruct k; discriminate Hk).
    cbn [getValue_valid]. unfold MapIndex. cbn [data flagAddr flagRO loc].
    destruct (negb _); [discriminate|].
    destruct (lookup key entries) as [x|]; cbn.
    + match goal with |- context [setValue (Some ?s)] =>
        destruct (setValue_fails s v root) as [msg ->];
        [now right|] end.
      intros [= <-]. eauto.
    + intros [= <-]. eauto.
Qed.

(** X21: a [Set] that returns an error leaves the document as it
    was. *)
Theorem failed_Set_changes_nothing (p : Pointer) (doc v doc' : option value)
        (e : error) :
  Set_ p doc v = Return (Some e, doc') -> doc' = doc.
Proof.
  unfold Set_.
  destruct (getValues (ValueOf doc) p) as [[slot [e'|]]|]; cbn [bind].
  - now intros [= _ <-].
  - intros [= H]. now apply setValue_unchanged_on_error in H.
  - discriminate.
Qed.

(** [setValue] on a read-only slot. *)
Lemma setValue_RO (slot : Value_) (v root : option value) :
  flagRO slot = true ->
  exists msg, setValue (Some slot) v root = (Some (errorString msg), root).
Proof.
  intros Hro. destruct slot as [d addr ro at_]. cbn [flagRO] in Hro. subst ro.
  unfold setValue, Elem, CanSet.
  destruct d as [| | | | | | | | | | |nm m [d'|]|];
    cbn [kindOf data flagRO flagAddr]; try destruct k;
    cbn [kindOfInt kindOfUint kindOfFloat kindOfComplex kindOfOther
         data flagRO flagAddr];
    rewrite ?andb_false_r; cbn [negb]; eauto.
Qed.

(** X17: a field that is not exported (and not embedded), and what
    lies below it, can be neither read nor set: [Get] on the field is
    the error [cannot get document value], and neither [Get] nor [Set]
    succeeds on a pointer through the field. *)
Theorem unexported_fields_are_closed (name : string)
        (fields : list (StructField * value)) (key : string) (i : nat)
        (f : StructField) (x : value) (rest : Pointer) (root : value) :
  fieldIndex key 0 fields = Some i ->
  nth_error fields i = Some (f, x) ->
  PkgPath f <> "" ->
  root = GStruct name fields
  \/ root = GPointer (TStruct name) (Some (GStruct name fields)) ->
  (forall val, Get (key :: rest) (Some root) <> Return (val, None))
  /\ (forall v root', Set_ (key :: rest) (Some root) v <> Return (None, root'))
  /\ Get [key] (Some root)
     = Return (None, Some (newError ErrGet "cannot get document value")).
Proof.
  intros Hi Hn Hpkg Hroot.
  assert (Hne : String.eqb (PkgPath f) "" = false) by now apply String.eqb_neq.
  assert (Hstep : exists w, getValue (ValueOf (Some root)) key
                            = Return (Some w, None) /\ flagRO w = true).
  { destruct Hroot as [-> | ->];
      cbn [ValueOf ValueOf_at getValue data flagAddr flagRO loc getValue_valid];
      unfold FieldByName, Field; cbn [data flagAddr flagRO loc];
      rewrite Hi, Hn; cbn [bind IsValid]; eexists; (split; [reflexivity|]);
      cbn; now rewrite Hne. }
  destruct Hstep as (w & Hw & Hro).
  split; [|split].
  - intros val. rewrite Get_unfold. cbn [getValues]. rewrite Hw. cbn [bind].
    destruct (getValues (Some w) rest) as [[w' [e|]]|] eqn:Er; cbn [bind];
      try discriminate.
    destruct (getValues_RO _ _ _ Er) as (w'' & -> & Hro').
    unfold Get_result. cbn. now rewrite (Hro' Hro).
  - intros v root'. unfold Set_. cbn [getValues]. rewrite Hw. cbn [bind].
    destruct (getValues (Some w) rest) as [[w' [e|]]|] eqn:Er; cbn [bind];
      try discriminate.
    destruct (getValues_RO _ _ _ Er) as (w'' & -> & Hro').
    destruct (setValue_RO w'' v (Some root) (Hro' Hro)) as [msg ->].
    discriminate.
  - rewrite Get_unfold. cbn [getValues]. rewrite Hw. cbn [bind].
    unfold Get_result. cbn. now rewrite Hro.
Qed.

(** X18: the text of an error of [Get] starts with [get: ], the text
    of an error of [New] with [invalid pointer: ]; with an error,
    [Get] returns nil and [New] the nil pointer. *)
Theorem error_texts :
  (forall p doc r e,
      Get p doc = Return (r, Some e) ->
      r = None /\ exists msg, Error_Error e = ("get: " ++ msg)%string)
  /\ (forall val p e,
         New val = Return (p, Some e) ->
         p = [] /\ exists msg, Error_Error e = ("invalid pointer: " ++ msg)%string).
Proof.
  split.
  - intros p doc r e H. destruct (Get_error _ _ _ _ H) as [msg ->].
    split; [|now exists msg].
    unfold Get in H.
    destruct (getValues (ValueOf doc) p) as [[resultVal [e'|]]|]; cbn in H;
      [now injection H| |discriminate].
    destruct (CanInterface resultVal) as [[|]|]; cbn in H;
      [discriminate|now injection H|discriminate].
  - intros val p e H. destruct (New_error _ _ _ H) as (msg & cause & -> & _).
    split; [|now exists msg].
    assert (Hparse : forall s, parse s = (p, Some (Error msg cause ErrInvalidJSONPointer))
                               -> p = []).
    { intros s. unfold parse. destruct s as [|c s]; [discriminate|].
      destruct (negb _); [now intros [= <-]|discriminate]. }
    assert (Hp : forall s, Return (parse s)
                           = Return (p, Some (Error msg cause ErrInvalidJSONPointer))
                           -> p = []).
    { intros s Hs. apply (Hparse s). congruence. }
    destruct val as [v|v|[u|]|t]; unfold New in H.
    + discriminate.
    + destruct v as [|c v]; [discriminate|].
      destruct (String.eqb _ _); [discriminate|].
      destruct (Ascii.eqb c "/"); [now apply (Hp _ H)|].
      destruct (url_Parse _); [now apply (Hp _ H)|congruence].
    + now apply (Hp _ H).
    + discriminate.
    + congruence.
Qed.


(** ** [Set] on a document made by [json.Unmarshal] *)

Lemma isJSON_not_Interface (d : value) : isJSON d = true -> kindOf d <> Interface.
Proof. destruct d; try discriminate; intros _; try destruct k; discriminate. Qed.

Lemma holdsJSON_Interface (x : value) : holdsJSON x = true -> kindOf x = Interface.
Proof. destruct x; try discriminate; reflexivity. Qed.

Lemma isJSON_element (t : rtype) (elems : list value) (i : nat) (x : value) :
  isJSON (GSlice t elems) = true -> nth_error elems i = Some x ->
  holdsJSON x = true.
Proof.
  cbn [isJSON]. intros H Hn. apply andb_true_iff in H as [_ H].
  apply nth_error_In in Hn.
  exact (proj1 (forallb_forall _ _) H x Hn).
Qed.

Lemma isJSON_member (kt t : rtype) (entries : list (string * value))
      (key : string) (x : value) :
  isJSON (GMap kt t entries) = true -> lookup key entries = Some x ->
  holdsJSON x = true.
Proof.
  cbn [isJSON]. intros H Hl. apply andb_true_iff in H as [_ H].
  induction entries as [|[k y] entries IH]; [discriminate|].
  cbn [forallb] in H. apply andb_true_iff in H as [Hy H].
  cbn [lookup] in Hl. destruct (String.eqb k key).
  - injection Hl as <-. exact Hy.
  - now apply IH.
Qed.

(** One step into a JSON value ends on an element. *)
Lemma getValue_valid_JSON (d : value) (addr ro : bool) (at_ : list step)
      (key : string) (w : Value_) :
  isJSON d = true ->
  getValue_valid d addr ro at_ key = Return (Some w, None) ->
  holdsJSON (data w) = true.
Proof.
  intros HJ. destruct d as [| | |k| | |t elems|t elems|kt t entries| | | |];
    try discriminate HJ; cbn [getValue_valid]; try discriminate.
  - destruct (strconv.Atoi key); [|discriminate].
    unfold Len, Index. cbn [data flagAddr flagRO loc].
    destruct (_ <=? _)%Z; [discriminate|].
    destruct (_ || _)%bool; [discriminate|].
    destruct (nth_error _ _) as [x|] eqn:En; [|discriminate].
    cbn [bind]. intros [= <-]. cbn [data]. exact (isJSON_element _ _ _ _ HJ En).
  - unfold MapIndex. cbn [data flagAddr flagRO loc].
    destruct (negb _); [discriminate|].
    destruct (lookup key entries) as [x|] eqn:El; [|discriminate].
    cbn [bind IsValid negb]. intros [= <-]. cbn [data].
    exact (isJSON_member _ _ _ _ _ HJ El).
Qed.

Lemma getValue_valid_element (x : value) (addr ro : bool) (at_ : list step)
      (key : string) (w : Value_) :
  holdsJSON x = true ->
  getValue_valid x addr ro at_ key = Return (Some w, None) ->
  holdsJSON (data w) = true.
Proof.
  destruct x as [| | | | | | | | | | |nm m [y|]|]; try discriminate.
  cbn [holdsJSON getValue_valid]. apply getValue_valid_JSON.
Qed.

Lemma getValues_element (p : Pointer) :
  forall a slot,
    holdsJSON (data a) = true ->
    getValues (Some a) p = Return (slot, None) ->
    exists w, slot = Some w /\ holdsJSON (data w) = true.
Proof.
  induction p as [|part p IH]; intros a slot Ha; cbn [getValues].
  - intros [= <-]. eauto.
  - cbn [getValue].
    destruct (getValue_valid _ _ _ _ _) as [[a' [e|]]|] eqn:Eg; cbn [bind];
      try discriminate.
    destruct (getValue_valid_RO _ _ _ _ _ _ _ (Nat.le_refl _) Eg)
      as (a'' & -> & _).
    apply IH. exact (getValue_valid_element _ _ _ _ _ _ Ha Eg).
Qed.

(** The slots below a JSON value are elements. *)
Lemma JSON_slots (d : value) (addr ro : bool) (at_ : list step)
      (part : string) (p : Pointer) (slot : Value) :
  isJSON d = true ->
  ('(docVal, err) <- getValue_valid d addr ro at_ part ;;
   match err with
   | Some e => Return (None, Some e)
   | None => getValues docVal p
   end) = Return (slot, None) ->
  exists w, slot = Some w /\ kindOf (data w) = Interface.
Proof.
  intros HJ.
  destruct (getValue_valid _ _ _ _ _) as [[a' [e|]]|] eqn:Eg; cbn [bind];
    try discriminate.
  destruct (getValue_valid_RO _ _ _ _ _ _ _ (Nat.le_refl _) Eg)
    as (a'' & -> & _).
  intros Hrest.
  destruct (getValues_element _ _ _ (getValue_valid_JSON _ _ _ _ _ _ HJ Eg) Hrest)
    as (w & -> & Hw).
  exists w. split; [reflexivity|]. now apply holdsJSON_Interface.
Qed.

(** X20: [Set] never sets anything in a document that
    [json.Unmarshal] made in an [interface{}], whether the document is
    passed itself or by pointer: when it returns, it returns an error,
    and the document is as it was. *)
Theorem Set_on_JSON_document (d root : value) (p : Pointer)
        (v : option value) :
  isJSON d = true ->
  root = d
  \/ root = GPointer (typeOf d) (Some d)
  \/ root = GPointer emptyInterface (Some (inInterface d)) ->
  forall r, Set_ p (Some root) v = Return r -> exists e, r = (Some e, Some root).
Proof.
  intros HJ Hroot r. destruct p as [|part p].
  - destruct (Set_root_fails (Some root) v) as [msg ->]. intros [= <-]. eauto.
  - unfold Set_.
    assert (Hslots : forall slot,
               getValues (ValueOf (Some root)) (part :: p) = Return (slot, None) ->
               exists w, slot = Some w /\ kindOf (data w) = Interface).
    { intros slot. destruct Hroot as [-> | [-> | ->]]; cbn [ValueOf].
      - rewrite (ValueOf_at_scalar _ _ (isJSON_not_Interface _ HJ)).
        cbn [getValues getValue data flagAddr flagRO loc].
        now apply JSON_slots.
      - cbn [ValueOf_at getValues getValue data flagAddr flagRO loc
             getValue_valid].
        now apply JSON_slots.
      - unfold inInterface.
        cbn [ValueOf_at getValues getValue data flagAddr flagRO loc
             getValue_valid].
        now apply JSON_slots. }
    destruct (getValues (ValueOf (Some root)) (part :: p))
      as [[slot [e|]]|]; cbn [bind].
    + intros [= <-]. eauto.
    + destruct (Hslots slot eq_refl) as (w & -> & Hk).
      destruct (setValue_fails w v (Some root)) as [msg ->]; [now left|].
      intros [= <-]. eauto.
    + discriminate.
Qed.


(** ** What [Set] stores *)

Lemma kindOf_not_Interface (d : value) :
  kindOf d <> Interface -> Value_Interface d = Some d.
Proof. destruct d; try reflexivity. now intros []. Qed.

Lemma ValueOf_at_store_value (new : value) (rest : list step) (n : nat) :
  kindOf new <> Interface ->
  forall r at_ v,
    elemDepth r <= n ->
    ValueOf_at at_ r = Some v ->
    exists steps,
      loc v = at_ ++ steps
      /\ ValueOf_at at_ (storeAt (steps ++ rest) new r)
         = Some (withData v (storeAt rest new (data v))).
Proof.
  intros Hnew. induction n as [|n IH]; intros r at_ v Hdepth;
    destruct r as [| | | | | | | | | |t [d'|]|nm m [d'|]|];
    cbn [elemDepth] in Hdepth; try lia; cbn [ValueOf_at]; try discriminate.
  all: try (intros Hv; apply IH in Hv as (steps & Hloc & Hst); [|lia];
            exists (StepElem :: steps);
            split; [rewrite Hloc, <- app_assoc; reflexivity|exact Hst]).
  all: intros [= <-]; exists []; split; [now rewrite app_nil_r|];
    cbn [app data]; apply ValueOf_at_scalar;
    (destruct rest as [|st rest];
     [exact Hnew
     |rewrite kindOf_storeAt; cbn; try discriminate;
      match goal with k : _ |- _ => now destruct k end]).
Qed.

(** When the pointer [p] leads to the slot [slot] of the document, it
    leads to [new] in the document with [new] stored in that slot. *)
Lemma Get_after_store_value (p : Pointer) (root : option value) (slot : Value_)
      (new : value) :
  getValues (ValueOf root) p = Return (Some slot, None) ->
  flagRO slot = false ->
  kindOf new <> Interface ->
  Get p (store slot new root) = Return (Some new, None).
Proof.
  intros Hget Hro Hnew.
  destruct root as [r|]; [|destruct p; cbn in Hget; discriminate].
  cbn [ValueOf] in Hget.
  destruct (ValueOf_at [] r) as [v|] eqn:Ev;
    [|destruct p; cbn in Hget; discriminate].
  apply (getValues_store new) in Hget as (steps & Hloc & Hget).
  destruct (ValueOf_at_store_value new steps _ Hnew r [] v (le_n _) Ev)
    as (steps0 & Hloc0 & Hv).
  unfold Get, store. cbn [option_map ValueOf].
  rewrite Hloc, Hloc0. cbn [app]. rewrite Hv, Hget. cbn [bind CanInterface].
  unfold withData at 1. cbn [flagRO]. rewrite Hro. cbn.
  now rewrite kindOf_not_Interface.
Qed.

(** X22: a settable slot that holds a pointer, an array, a slice, a
    map or a struct takes a value of exactly its type, which [Get]
    then returns; a value of another type is the error [cannot set
    document value of type ... to value of type ...] of type
    [ErrSet]. *)
Theorem Set_structured_slot (p : Pointer) (root : option value)
        (slot : Value_) (v : value) :
  getValues (ValueOf root) p = Return (Some slot, None) ->
  CanSet slot = true ->
  isStructured (data slot) = true ->
  kindOf v <> Interface ->
  if Type_eqb (typeOf (data slot)) (typeOf v)
  then exists root', Set_ p root (Some v) = Return (None, root')
                     /\ Get p root' = Return (Some v, None)
  else Set_ p root (Some v)
       = Return (Some (newError ErrSet
                         ("cannot set document value of type "
                            ++ Type_String (typeOf (data slot))
                            ++ " to value of type "
                            ++ Type_String (typeOf v))), root).
Proof.
  intros Hget Hcan Hst Hv.
  rewrite (Set_at_slot _ _ _ _ Hget).
  assert (Hset : setValue (Some slot) (Some v) root
                 = if negb (Type_eqb (typeOf (data slot)) (typeOf v))
                   then (Some (newError ErrSet
                                 ("cannot set document value of type "
                                    ++ Type_String (typeOf (data slot))
                                    ++ " to value of type "
                                    ++ Type_String (typeOf v))), root)
                   else (None, store slot v root)).
  { unfold setValue. cbn [ValueOf]. rewrite (ValueOf_at_scalar _ _ Hv).
    destruct slot as [d addr ro at_]. cbn [data] in *.
    destruct d; try discriminate Hst; cbn [kindOf data]; rewrite Hcan;
      reflexivity. }
  rewrite Hset. destruct (Type_eqb _ _); cbn [negb]; [|reflexivity].
  eexists. split; [reflexivity|].
  apply Get_after_store_value; [exact Hget|now apply CanSet_not_RO|exact Hv].
Qed.

(** The value behind pointers, whatever the flags and the place. *)
Lemma indirect_valid_data (n : nat) :
  forall d addr addr' ro ro' at_ at_',
    elemDepth d <= n ->
    option_map data (indirect_valid d addr ro at_)
    = option_map data (indirect_valid d addr' ro' at_').
Proof.
  induction n as [|n IH]; intros d addr addr' ro ro' at_ at_' Hdepth;
    destruct d as [| | | | | | | | | |t [d'|]|nm m [d'|]|];
    cbn [elemDepth] in Hdepth; try lia; cbn [indirect_valid];
    try reflexivity; apply IH; lia.
Qed.

(** On a scalar slot [setValue] reads the value behind the pointers
    of the source. *)
Lemma setValue_source (slot : Value_) (srcVal srcVal' : Value_)
      (value value' root : option value) :
  isScalar (data slot) = true ->
  ValueOf value = Some srcVal -> ValueOf value' = Some srcVal' ->
  option_map data (indirect (Some srcVal))
  = option_map data (indirect (Some srcVal')) ->
  setValue (Some slot) value root = setValue (Some slot) value' root.
Proof.
  intros Hs Hv Hv' Hind. unfold setValue. rewrite Hv, Hv'.
  unfold typeMismatch.
  destruct (indirect (Some srcVal)) as [[sd ? ? ?]|],
           (indirect (Some srcVal')) as [[sd' ? ? ?]|];
    cbn [option_map data] in Hind; try discriminate Hind.
  - injection Hind as <-. cbn [option_map data Value_Kind].
    destruct slot as [d addr ro at_]. cbn [data] in *.
    destruct d; try discriminate Hs; destruct_kinds; reflexivity.
  - cbn [option_map data Value_Kind].
    destruct slot as [d addr ro at_]. cbn [data] in *.
    destruct d; try discriminate Hs; destruct_kinds; reflexivity.
Qed.

(** X23: on a scalar slot, [Set] with a pointer to a value does what
    [Set] with the value does; with a nil pointer it is a type
    mismatch of type [ErrSet], with nil the plain error [cannot set
    value on invalid value]. *)
Theorem Set_from_pointer (p : Pointer) (root : option value) (slot : Value_) :
  getValues (ValueOf root) p = Return (Some slot, None) ->
  isScalar (data slot) = true ->
  (forall t v, kindOf v <> Interface ->
               Set_ p root (Some (GPointer t (Some v))) = Set_ p root (Some v))
  /\ (forall t, CanSet slot = true ->
                Set_ p root (Some (GPointer t None))
                = Return (Some (newError ErrSet
                                  ("type mismatch (invalid ➜ "
                                     ++ Kind_String (kindOf (data slot)) ++ ")")),
                          root))
  /\ (CanSet slot = true ->
      Set_ p root None
      = Return (Some (errorString "cannot set value on invalid value"), root)).
Proof.
  intros Hget Hs. rewrite !(Set_at_slot _ _ _ _ Hget). split; [|split].
  - intros t v Hv. rewrite !(Set_at_slot _ _ _ _ Hget). f_equal.
    eapply setValue_source; [exact Hs|reflexivity| |].
    + cbn [ValueOf]. apply (ValueOf_at_scalar _ _ Hv).
    + cbn [indirect data flagAddr flagRO loc indirect_valid].
      apply (indirect_valid_data (elemDepth v)). lia.
  - intros t Hcan. rewrite (Set_at_slot _ _ _ _ Hget). f_equal.
    unfold setValue, typeMismatch.
    destruct slot as [d addr ro at_]. cbn [data] in *.
    destruct d; try discriminate Hs; cbn [kindOf data];
      try destruct k; cbn [kindOfInt kindOfUint kindOfFloat kindOfComplex];
      rewrite Hcan; reflexivity.
  - intros Hcan. f_equal. unfold setValue.
    destruct slot as [d addr ro at_]. cbn [data] in *.
    destruct d; try discriminate Hs; cbn [kindOf data];
      try destruct k; cbn [kindOfInt kindOfUint kindOfFloat kindOfComplex];
      rewrite Hcan; reflexivity.
Qed.


Lemma wrapInt_in_range (bits n : Z) :
  (0 < bits)%Z ->
  (- 2 ^ (bits - 1) <= n < 2 ^ (bits - 1))%Z ->
  wrapInt bits n = n.
Proof.
  intros Hb Hn. unfold wrapInt.
  assert (H2 : (2 ^ bits = 2 * 2 ^ (bits - 1))%Z).
  { replace bits with (Z.succ (bits - 1)) at 1 by lia.
    rewrite Z.pow_succ_r by lia. reflexivity. }
  rewrite Z.mod_small by lia. lia.
Qed.

Lemma wrapUint_64 (k : UintKind) (n : Z) :
  wrapUint (uintBits k) (wrapUint 64 n) = (n mod 2 ^ uintBits k)%Z.
Proof.
  unfold wrapUint. apply Z.mod_mod_divide.
  destruct k; cbn [uintBits]; unfold strconv.IntSize.
  - exists 1%Z. reflexivity.
  - exists (2 ^ 56)%Z. reflexivity.
  - exists (2 ^ 48)%Z. reflexivity.
  - exists (2 ^ 32)%Z. reflexivity.
  - exists 1%Z. reflexivity.
Qed.

Lemma intBits_positive (k : IntKind) : (0 < intBits k)%Z.
Proof. destruct k; reflexivity. Qed.

(** X24: an integer slot takes an integer converted to its type: the
    integer itself when it is in the range of the type, the integer
    wrapped around modulo [2^bits] otherwise; no error is returned. *)
Theorem Set_integer_slot (p : Pointer) (root : option value) (slot : Value_) :
  getValues (ValueOf root) p = Return (Some slot, None) ->
  CanSet slot = true ->
  (forall k x k' n,
      data slot = GInt k x ->
      exists root',
        Set_ p root (Some (GInt k' n)) = Return (None, root')
        /\ Get p root' = Return (Some (GInt k (wrapInt (intBits k) n)), None)
        /\ ((- 2 ^ (intBits k - 1) <= n < 2 ^ (intBits k - 1))%Z ->
            Get p root' = Return (Some (GInt k n), None)))
  /\ (forall k x k' n,
         data slot = GUint k x ->
         exists root',
           Set_ p root (Some (GInt k' n)) = Return (None, root')
           /\ Get p root'
              = Return (Some (GUint k (n mod 2 ^ uintBits k)%Z), None))
  /\ (forall k x k' n,
         data slot = GUint k x ->
         exists root',
           Set_ p root (Some (GUint k' n)) = Return (None, root')
           /\ Get p root'
              = Return (Some (GUint k (n mod 2 ^ uintBits k)%Z), None)).
Proof.
  intros Hget Hcan. pose proof (CanSet_not_RO slot Hcan) as Hro.
  destruct slot as [d addr ro at_]. cbn [data] in *.
  split; [|split]; intros k x k' n ->.
  - exists (store {| data := GInt k x; flagAddr := addr; flagRO := ro;
                     loc := at_ |} (GInt k (wrapInt (intBits k) n)) root).
    assert (HG : Get p (store {| data := GInt k x; flagAddr := addr;
                                 flagRO := ro; loc := at_ |}
                              (GInt k (wrapInt (intBits k) n)) root)
                 = Return (Some (GInt k (wrapInt (intBits k) n)), None)).
    { apply Get_after_store; [exact Hget|exact Hro|reflexivity]. }
    split; [|split; [exact HG|]].
    + rewrite (Set_at_slot _ _ _ _ Hget). unfold setValue. cbn [kindOf data].
      destruct k; cbn [kindOfInt]; rewrite Hcan; reflexivity.
    + intros Hn. rewrite HG.
      now rewrite (wrapInt_in_range _ _ (intBits_positive k) Hn).
  - exists (store {| data := GUint k x; flagAddr := addr; flagRO := ro;
                     loc := at_ |}
                  (GUint k (wrapUint (uintBits k) (wrapUint 64 n))) root).
    split.
    + rewrite (Set_at_slot _ _ _ _ Hget). unfold setValue. cbn [kindOf data].
      destruct k; cbn [kindOfUint]; rewrite Hcan; reflexivity.
    + rewrite <- wrapUint_64.
      apply Get_after_store; [exact Hget|exact Hro|reflexivity].
  - exists (store {| data := GUint k x; flagAddr := addr; flagRO := ro;
                     loc := at_ |}
                  (GUint k (wrapUint (uintBits k) n)) root).
    split.
    + rewrite (Set_at_slot _ _ _ _ Hget). unfold setValue. cbn [kindOf data].
      destruct k; cbn [kindOfUint]; rewrite Hcan; reflexivity.
    + apply Get_after_store; [exact Hget|exact Hro|reflexivity].
Qed.

(** X25: a bool slot takes [true] for an integer that is not zero
    and [false] for zero; for a string it takes what
    [strconv.ParseBool] reads, and [Set] returns the error [conversion
    failed] of type [ErrSet] when [strconv.ParseBool] fails. *)
Theorem Set_bool_slot (p : Pointer) (root : option value) (slot : Value_)
        (x : bool) :
  getValues (ValueOf root) p = Return (Some slot, None) ->
  CanSet slot = true ->
  data slot = GBool x ->
  (forall k n,
      exists root',
        Set_ p root (Some (GInt k n)) = Return (None, root')
        /\ Get p root' = Return (Some (GBool (negb (n =? 0)%Z)), None))
  /\ (forall s,
         match strconv.ParseBool s with
         | Some b =>
             exists root',
               Set_ p root (Some (GString s)) = Return (None, root')
               /\ Get p root' = Return (Some (GBool b), None)
         | None =>
             Set_ p root (Some (GString s))
             = Return (Some (newError ErrSet "conversion failed (string ➜ bool)"),
                       root)
         end).
Proof.
  intros Hget Hcan Hd. pose proof (CanSet_not_RO slot Hcan) as Hro.
  destruct slot as [d addr ro at_]. cbn [data] in *. subst d.
  split.
  - intros k n. eexists. split.
    + rewrite (Set_at_slot _ _ _ _ Hget). unfold setValue. cbn [kindOf data].
      rewrite Hcan. reflexivity.
    + apply Get_after_store; [exact Hget|exact Hro|reflexivity].
  - intros s.
    assert (Hset : setValue (Some {| data := GBool x; flagAddr := addr;
                                     flagRO := ro; loc := at_ |})
                            (Some (GString s)) root
                   = match strconv.ParseBool s with
                     | None => (Some (newError ErrSet
                                        "conversion failed (string ➜ bool)"), root)
                     | Some b => (None, store {| data := GBool x; flagAddr := addr;
                                                 flagRO := ro; loc := at_ |}
                                              (GBool b) root)
                     end).
    { unfold setValue. cbn [kindOf data]. rewrite Hcan. reflexivity. }
    rewrite (Set_at_slot _ _ _ _ Hget), Hset.
    destruct (strconv.ParseBool s) as [b|]; [|reflexivity].
    eexists. split; [reflexivity|].
    apply Get_after_store; [exact Hget|exact Hro|reflexivity].
Qed.


(** X29: a string slot takes a string as it is, the decimal text of
    an unsigned integer, and [true] or [false] for a bool; an array,
    a slice, a map or a struct is a type mismatch of type [ErrSet]. *)
Theorem Set_string_slot (p : Pointer) (root : option value) (slot : Value_)
        (x : string) :
  getValues (ValueOf root) p = Return (Some slot, None) ->
  CanSet slot = true ->
  data slot = GString x ->
  (forall s, exists root',
        Set_ p root (Some (GString s)) = Return (None, root')
        /\ Get p root' = Return (Some (GString s), None))
  /\ (forall k n, exists root',
         Set_ p root (Some (GUint k n)) = Return (None, root')
         /\ Get p root' = Return (Some (GString (strconv.FormatUint n)), None))
  /\ (forall b, exists root',
         Set_ p root (Some (GBool b)) = Return (None, root')
         /\ Get p root'
            = Return (Some (GString (if b then "true" else "false")), None))
  /\ (forall v, isStructured v = true ->
                kindOf v <> Ptr ->
                Set_ p root (Some v)
                = Return (Some (newError ErrSet
                                  ("type mismatch ("
                                     ++ Kind_String (kindOf v)
                                     ++ " ➜ string)")), root)).
Proof.
  intros Hget Hcan Hd. pose proof (CanSet_not_RO slot Hcan) as Hro.
  destruct slot as [d addr ro at_]. cbn [data] in *. subst d.
  split; [|split; [|split]].
  - intros s. eexists. split.
    + rewrite (Set_at_slot _ _ _ _ Hget). unfold setValue. cbn [kindOf data].
      rewrite Hcan. reflexivity.
    + apply Get_after_store; [exact Hget|exact Hro|reflexivity].
  - intros k n. eexists. split.
    + rewrite (Set_at_slot _ _ _ _ Hget). unfold setValue. cbn [kindOf data].
      rewrite Hcan. reflexivity.
    + apply Get_after_store; [exact Hget|exact Hro|reflexivity].
  - intros b. exists (store {| data := GString x; flagAddr := addr;
                               flagRO := ro; loc := at_ |}
                            (GString (if b then "true" else "false")) root).
    split.
    + rewrite (Set_at_slot _ _ _ _ Hget). unfold setValue. cbn [kindOf data].
      rewrite Hcan. now destruct b.
    + apply Get_after_store; [exact Hget|exact Hro|reflexivity].
  - intros v Hv Hptr. rewrite (Set_at_slot _ _ _ _ Hget).
    unfold setValue, typeMismatch. cbn [kindOf data]. rewrite Hcan.
    destruct v; try discriminate Hv; try (now destruct Hptr); reflexivity.
Qed.

(** ** The fields of a struct *)

Lemma substring_all (s : string) : substring 0 (String.length s) s = s.
Proof. induction s as [|c s IH]; cbn; [|rewrite IH]; reflexivity. Qed.

(** [strings.Index(tag, ",")], and the tag up to that index. *)
Lemma indexFrom_comma (tag : string) :
  forall i, (0 <= i)%Z ->
    let r := strings.indexFrom i tag "," in
    (r = (-1)%Z /\ upToComma tag = tag)
    \/ ((i <= r)%Z /\ substring 0 (Z.to_nat (r - i)) tag = upToComma tag).
Proof.
  induction tag as [|c tag IH]; intros i Hi; cbn.
  - now left.
  - rewrite andb_true_r. case_byte c ","%char.
    + right. split; [lia|]. now rewrite Z.sub_diag.
    + destruct (IH (i + 1)%Z ltac:(lia)) as [[Hr Hu]|[Hr Hu]].
      * left. split; [exact Hr|now rewrite Hu].
      * right. split; [lia|].
        replace (Z.to_nat (strings.indexFrom (i + 1) tag "," - i))
          with (S (Z.to_nat (strings.indexFrom (i + 1) tag "," - (i + 1))))
          by lia.
        cbn. now rewrite Hu.
Qed.

Lemma tagName_upToComma (tag : string) :
  substring 0 (Z.to_nat (if (strings.Index tag "," <? 0)%Z
                         then Z.of_nat (String.length tag)
                         else strings.Index tag ",")) tag
  = upToComma tag.
Proof.
  unfold strings.Index.
  destruct (indexFrom_comma tag 0 (Z.le_refl 0)) as [[Hr Hu]|[Hr Hu]].
  - rewrite Hr. cbn [Z.ltb Z.compare]. rewrite Nat2Z.id, Hu. apply substring_all.
  - replace (_ <? 0)%Z with false by (symmetry; apply Z.ltb_ge; lia).
    now rewrite Z.sub_0_r in Hu.
Qed.

Lemma tagIndex_jsonIndex (key : string) (fields : list (StructField * value)) :
  forall i, tagIndex key i fields = jsonIndex key i fields.
Proof.
  induction fields as [|[sf d] fields IH]; intros i; [reflexivity|].
  cbn [tagIndex jsonIndex]. rewrite tagName_upToComma, IH.
  destruct (String.eqb (Tag_json sf) "") eqn:Ee.
  - apply String.eqb_eq in Ee. rewrite Ee. reflexivity.
  - cbn [negb andb]. destruct (String.eqb (Tag_json sf) "-"); reflexivity.
Qed.

(** X16: [Get] finds a field of a struct by its Go name first, and
    otherwise by the name in its json tag, which is the tag up to its
    first comma (the first such field; a tag [-] and an empty name
    name nothing); when neither names the token, it returns the error
    [struct has no field].  Embedded fields are not modelled. *)
Theorem struct_field_lookup (name : string)
        (fields : list (StructField * value)) (key : string) :
  match fieldIndex key 0 fields, jsonIndex key 0 fields with
  | Some i, _ | None, Some i =>
      forall f x, nth_error fields i = Some (f, x) ->
                  PkgPath f = "" ->
                  Get [key] (Some (GStruct name fields))
                  = Return (Value_Interface x, None)
  | None, None =>
      Get [key] (Some (GStruct name fields))
      = Return (None, Some (newError ErrGet
                              ("struct has no field '" ++ key ++ "'")))
  end.
Proof.
  rewrite <- tagIndex_jsonIndex.
  destruct (fieldIndex key 0 fields) as [i|] eqn:Ei;
    [|destruct (tagIndex key 0 fields) as [j|] eqn:Et];
    try intros f x Hn Hpkg; rewrite Get_unfold;
    cbn [ValueOf ValueOf_at getValues getValue data flagAddr flagRO loc
         getValue_valid];
    unfold FieldByName, Field; cbn [data flagAddr flagRO loc]; rewrite Ei.
  - rewrite Hn. cbn [bind IsValid]. unfold Get_result. cbn. now rewrite Hpkg.
  - cbn [bind IsValid]. rewrite getValue_tags_tagIndex, Et.
    unfold Field. cbn [data flagAddr flagRO loc]. rewrite Hn. cbn [bind].
    unfold Get_result. cbn. now rewrite Hpkg.
  - cbn [bind IsValid]. now rewrite getValue_tags_tagIndex, Et.
Qed.

End Reading.

Lemma Get_composes_witness :
  Get (["foo"] ++ ["1"]) (Some exampleDocument)
  = Get ["1"] (Some (jsonArray [reflect.GString "bar"; reflect.GString "baz"])).
Proof.
  apply (Get_composes ["foo"] ["1"]). reflexivity.
Defined.

Lemma Get_below_nil_witness :
  Get (["a"] ++ "b" :: ["c"])
      (Some (reflect.GMap reflect.TString emptyInterface
               [("a", reflect.GInterface "interface {}" 0 None)]))
  = Return (None, Some (newError ErrGet "document value is nil")).
Proof.
  apply (Get_below_nil ["a"] ["c"] "b"). reflexivity.
Defined.

Lemma Get_sequence_element_witness :
  Get ["+1"] (Some (jsonArray [reflect.GString "bar"; reflect.GString "baz"]))
  = Return (Some (reflect.GString "baz"), None)
  /\ Get ["01"] (Some (jsonArray [reflect.GString "bar"; reflect.GString "baz"]))
     = Return (Some (reflect.GString "baz"), None).
Proof.
  split.
  - refine (proj1 (Get_sequence_element emptyInterface _ "+1" 1
                     (inInterface (reflect.GString "baz")) _ _ _));
      [reflexivity|lia|reflexivity].
  - refine (proj1 (Get_sequence_element emptyInterface _ "01" 1
                     (inInterface (reflect.GString "baz")) _ _ _));
      [reflexivity|lia|reflexivity].
Defined.

Lemma map_with_other_keys_panics_witness :
  exists reason,
    Get ["1"] (Some (reflect.GMap (reflect.TInt reflect.KInt) reflect.TString []))
    = Panic reason.
Proof.
  refine (proj1 (@map_with_other_keys_panics examplePlatform
                   (reflect.TInt reflect.KInt) reflect.TString [] "1" [] _)).
  reflexivity.
Defined.

Lemma failed_Set_changes_nothing_witness :
  @Set_ examplePlatform ["Count"] (Some exampleRecord)
        (Some (reflect.GString "3x"))
  = Return (Some (newError ErrSet "conversion failed (string ➜ int)"),
            Some exampleRecord)
  /\ Some exampleRecord = Some exampleRecord.
Proof.
  split; [reflexivity|].
  apply (@failed_Set_changes_nothing examplePlatform ["Count"]
           (Some exampleRecord) (Some (reflect.GString "3x"))
           (Some exampleRecord)
           (newError ErrSet "conversion failed (string ➜ int)")).
  reflexivity.
Defined.

Lemma unexported_fields_are_closed_witness :
  Get ["tags"] (Some exampleRecord)
  = Return (None, Some (newError ErrGet "cannot get document value"))
  /\ (forall val, Get ["tags"; "0"] (Some exampleRecord) <> Return (val, None)).
Proof.
  split.
  - refine (proj2 (proj2
      (@unexported_fields_are_closed examplePlatform "main.Record" _ "tags" 3
         _ _ [] exampleRecord _ _ _ _))).
    4: now right. all: try reflexivity. discriminate.
  - refine (proj1
      (@unexported_fields_are_closed examplePlatform "main.Record" _ "tags" 3
         _ _ ["0"] exampleRecord _ _ _ _)).
    4: now right. all: try reflexivity. discriminate.
Defined.

Lemma Set_on_JSON_document_witness :
  isJSON exampleDocument = true
  /\ exists e,
       (Some (errorString
                "cannot set value on unaddressable document or unexported field"),
        Some exampleDocument)
       = (Some e, Some exampleDocument).
Proof.
  split; [reflexivity|].
  apply (@Set_on_JSON_document examplePlatform exampleDocument exampleDocument
           ["foo"; "0"] (Some (reflect.GString "qux"))).
  - reflexivity.
  - now left.
  - reflexivity.
Defined.

Lemma Set_structured_slot_witness :
  exists root',
    @Set_ examplePlatform ["0"] (Some exampleRows)
          (Some (reflect.GSlice reflect.TString
                   [reflect.GString "b"; reflect.GString "c"]))
    = Return (None, root')
    /\ Get ["0"] root'
       = Return (Some (reflect.GSlice reflect.TString
                         [reflect.GString "b"; reflect.GString "c"]), None).
Proof.
  refine (@Set_structured_slot examplePlatform ["0"] (Some exampleRows)
            {| reflect.data := reflect.GSlice reflect.TString [reflect.GString "a"];
               reflect.flagAddr := true; reflect.flagRO := false;
               reflect.loc := [reflect.StepIndex 0] |}
            (reflect.GSlice reflect.TString
               [reflect.GString "b"; reflect.GString "c"]) _ _ _ _);
    [reflexivity|reflexivity|reflexivity|discriminate].
Defined.

Lemma Set_from_pointer_witness :
  @Set_ examplePlatform ["Name"] (Some exampleRecord)
        (Some (reflect.GPointer (reflect.TInt reflect.KInt)
                 (Some (reflect.GInt reflect.KInt 42))))
  = @Set_ examplePlatform ["Name"] (Some exampleRecord)
          (Some (reflect.GInt reflect.KInt 42)).
Proof.
  refine (proj1 (@Set_from_pointer examplePlatform ["Name"] (Some exampleRecord)
                   exampleSlot _ _) _ _ _);
    [reflexivity|reflexivity|discriminate].
Defined.

Lemma Set_integer_slot_witness :
  exists root',
    @Set_ examplePlatform ["Count"] (Some exampleRecord)
          (Some (reflect.GInt reflect.KInt 300))
    = Return (None, root')
    /\ Get ["Count"] root'
       = Return (Some (reflect.GInt reflect.KInt8
                         (reflect.wrapInt (reflect.intBits reflect.KInt8) 300)),
                 None)
    /\ ((- 2 ^ (reflect.intBits reflect.KInt8 - 1) <= 300
         < 2 ^ (reflect.intBits reflect.KInt8 - 1))%Z ->
        Get ["Count"] root'
        = Return (Some (reflect.GInt reflect.KInt8 300), None)).
Proof.
  refine (proj1 (@Set_integer_slot examplePlatform ["Count"] (Some exampleRecord)
                   {| reflect.data := reflect.GInt reflect.KInt8 0;
                      reflect.flagAddr := true; reflect.flagRO := false;
                      reflect.loc := [reflect.StepElem; reflect.StepField 2] |}
                   _ _) reflect.KInt8 0%Z reflect.KInt 300%Z _);
    reflexivity.
Defined.

Lemma Set_bool_slot_witness :
  exists root',
    @Set_ examplePlatform ["0"] (Some exampleBools)
          (Some (reflect.GInt reflect.KInt 7))
    = Return (None, root')
    /\ Get ["0"] root'
       = Return (Some (reflect.GBool (negb (7 =? 0)%Z)), None).
Proof.
  refine (proj1 (@Set_bool_slot examplePlatform ["0"] (Some exampleBools)
                   {| reflect.data := reflect.GBool false;
                      reflect.flagAddr := true; reflect.flagRO := false;
                      reflect.loc := [reflect.StepIndex 0] |}
                   false _ _ _) reflect.KInt 7%Z);
    reflexivity.
Defined.

Lemma Set_string_slot_witness :
  exists root',
    @Set_ examplePlatform ["Name"] (Some exampleRecord)
          (Some (reflect.GBool true))
    = Return (None, root')
    /\ Get ["Name"] root'
       = Return (Some (reflect.GString (if true then "true" else "false")), None).
Proof.
  refine (proj1 (proj2 (proj2
            (@Set_string_slot examplePlatform ["Name"] (Some exampleRecord)
               exampleSlot "x" _ _ _))) true);
    reflexivity.
Defined.

Section Copies.

Context {platform : Platform}.
Variable growslice : nat -> nat -> nat.

(** X27: [New] on a [Pointer] returns a copy: the same tokens in a
    new array; the argument is as it was, and neither an assignment
    to an element of the copy nor an [append] to it changes the
    argument. *)
Theorem New_copies_the_pointer (h : Mem.heap) (v : Mem.slice) :
  wf h v ->
  exists q h',
    Mem.New (Mem.APointer v) h = Return (q, None, h')
    /\ Mem.read q h' = Mem.read v h
    /\ unchanged v h h'
    /\ independent growslice v h q h'.
Proof.
  intros Hv. cbn [Mem.New].
  rewrite (MemRefinement.make_copy h v) by now right.
  destruct (MemRefinement.copied h v (or_intror Hv))
    as (Hext & Hwf & Hread & Hnew).
  do 2 eexists. split; [reflexivity|].
  split; [exact Hread|]. destruct Hv as [Ha _]. split.
  - now apply MemProperties.unchanged_extends.
  - apply MemProperties.independent_fresh; [exact Ha|exact Hext|now right].
Qed.

End Copies.

Lemma New_copies_the_pointer_witness :
  exists q h',
    @Mem.New examplePlatform (Mem.APointer examplePointer) exampleHeap
    = Return (q, None, h')
    /\ Mem.read q h' = Mem.read examplePointer exampleHeap
    /\ unchanged examplePointer exampleHeap h'
    /\ independent (fun _ needed => 2 * needed) examplePointer exampleHeap q h'.
Proof.
  apply (@New_copies_the_pointer examplePlatform (fun _ needed => 2 * needed)).
  repeat split; cbn; lia.
Defined.


(* ================================================================= *)
(** ** A [Set] after a [Set] *)

Section Last.

Context {platform : Platform}.

Import reflect.

Lemma updateNth_twice {A : Type} (f g : A -> A) (l : list A) (i : nat) :
  updateNth i f (updateNth i g l) = updateNth i (fun x => f (g x)) l.
Proof.
  revert i. induction l as [|x l IH]; intros [|i]; cbn; try reflexivity.
  now rewrite IH.
Qed.

Lemma updateNth_ext {A : Type} (f g : A -> A) (l : list A) (i : nat) :
  (forall x, f x = g x) -> updateNth i f l = updateNth i g l.
Proof.
  intros H. revert i. induction l as [|x l IH]; intros [|i]; cbn;
    try reflexivity; [now rewrite H|now rewrite IH].
Qed.

Lemma updateKey_twice {A : Type} (f g : A -> A) (l : list (string * A))
      (key : string) :
  updateKey key f (updateKey key g l) = updateKey key (fun x => f (g x)) l.
Proof.
  induction l as [|[k x] l IH]; cbn; [reflexivity|].
  destruct (String.eqb k key) eqn:E; cbn; rewrite E; [reflexivity|].
  now rewrite IH.
Qed.

Lemma updateKey_ext {A : Type} (f g : A -> A) (l : list (string * A))
      (key : string) :
  (forall x, f x = g x) -> updateKey key f l = updateKey key g l.
Proof.
  intros H. induction l as [|[k x] l IH]; cbn; [reflexivity|].
  destruct (String.eqb k key); [now rewrite H|now rewrite IH].
Qed.

(** A second store at a place replaces the first. *)
Lemma storeAt_twice (at_ : list step) (new1 new2 : value) :
  forall d, storeAt at_ new2 (storeAt at_ new1 d) = storeAt at_ new2 d.
Proof.
  induction at_ as [|st at_ IH]; intros d; [reflexivity|].
  destruct st, d as [| | | | | | | | | |t [d'|]|nm m [d'|]|];
    cbn [storeAt]; try reflexivity.
  - now rewrite IH.
  - now rewrite IH.
  - rewrite updateNth_twice. f_equal. now apply updateNth_ext.
  - rewrite updateNth_twice. f_equal. now apply updateNth_ext.
  - rewrite updateKey_twice. f_equal. now apply updateKey_ext.
  - rewrite updateNth_twice. f_equal. apply updateNth_ext.
    intros [f x]. cbn. now rewrite IH.
Qed.

(** The pointer still leads to the slot after a store in it. *)
Lemma getValues_after_store (p : Pointer) (root : option value) (slot : Value_)
      (new : value) :
  getValues (ValueOf root) p = Return (Some slot, None) ->
  kindOf new <> Interface ->
  getValues (ValueOf (store slot new root)) p
  = Return (Some (withData slot new), None).
Proof.
  intros Hget Hnew.
  destruct root as [r|]; [|destruct p; cbn in Hget; discriminate].
  cbn [ValueOf] in Hget.
  destruct (ValueOf_at [] r) as [v|] eqn:Ev;
    [|destruct p; cbn in Hget; discriminate].
  apply (getValues_store new) in Hget as (steps & Hloc & Hget).
  destruct (ValueOf_at_store_value new steps _ Hnew r [] v (le_n _) Ev)
    as (steps0 & Hloc0 & Hv).
  unfold store. cbn [option_map ValueOf].
  rewrite Hloc, Hloc0. cbn [app]. now rewrite Hv, Hget.
Qed.

(** On a settable scalar slot, what [setValue] does depends on the
    kind of the slot, not on what it holds. *)
Lemma setValue_same_kind (slot : Value_) (d1 : value) (v root root' : option value) :
  isScalar (data slot) = true ->
  kindOf d1 = kindOf (data slot) ->
  (exists d, setValue (Some slot) v root = (None, store slot d root)
             /\ setValue (Some (withData slot d1)) v root'
                = (None, store slot d root')
             /\ kindOf d = kindOf (data slot))
  \/ (exists e, setValue (Some slot) v root = (Some e, root)
                /\ setValue (Some (withData slot d1)) v root' = (Some e, root')).
Proof.
  intros Hs Hk. destruct slot as [d addr ro at_]. unfold withData.
  cbn [data flagAddr flagRO loc] in *.
  destruct d; try discriminate Hs; destruct d1; cbn [kindOf] in Hk;
    destruct_kinds; try discriminate Hk.
  all: unfold setValue, store;
    cbn [kindOf kindOfInt kindOfUint kindOfFloat kindOfComplex data loc];
    unfold CanSet; cbn [flagAddr flagRO].
  all: destruct (negb (addr && negb ro)); [right; eauto|].
  all: destruct (ValueOf v) as [srcVal|]; [|right; eauto].
  all: generalize (indirect (Some srcVal)) as ind; intros ind.
  all: unfold typeMismatch; cbn [kindOf kindOfInt kindOfUint kindOfFloat
                                 kindOfComplex data].
  all: destruct ind as [[sd ? ? ?]|]; cbn [option_map data];
    [destruct sd|]; crunch_setValue.
  all: first [left; eexists; split; [|split]; reflexivity
             |right; eexists; split; reflexivity].
Qed.

(** X26: the last [Set] wins: on a scalar slot, a [Set] after a
    successful [Set] through the same pointer stores what it stores
    in the first document, or returns the error it returns there. *)
Theorem Set_last_wins (p : Pointer) (root : option value) (slot : Value_)
        (v1 v2 root1 : option value) :
  getValues (ValueOf root) p = Return (Some slot, None) ->
  isScalar (data slot) = true ->
  Set_ p root v1 = Return (None, root1) ->
  (forall root2, Set_ p root v2 = Return (None, root2) ->
                 Set_ p root1 v2 = Return (None, root2))
  /\ (forall e, Set_ p root v2 = Return (Some e, root) ->
                Set_ p root1 v2 = Return (Some e, root1)).
Proof.
  intros Hget Hs H1. rewrite !(Set_at_slot _ _ _ _ Hget) in *.
  destruct (setValue_same_kind slot (data slot) v1 root root Hs eq_refl)
    as [(d1 & E1 & _ & Hk)|(e & E1 & _)]; rewrite E1 in H1; [|discriminate].
  assert (root1 = store slot d1 root) as -> by congruence.
  assert (Hd1 : kindOf d1 <> Interface).
  { rewrite Hk. intros Hi. rewrite isScalar_kindOf, Hi in Hs. discriminate. }
  rewrite (Set_at_slot _ _ _ _ (getValues_after_store _ _ _ _ Hget Hd1)).
  destruct (setValue_same_kind slot d1 v2 root (store slot d1 root) Hs Hk)
    as [(d2 & E2 & E2' & _)|(e & E2 & E2')]; rewrite E2, E2'.
  - split; [|discriminate]. intros root2 [= <-]. do 2 f_equal.
    unfold store. destruct root as [r|]; [|reflexivity].
    cbn [option_map]. now rewrite storeAt_twice.
  - split; [discriminate|]. now intros e' [= <-].
Qed.

End Last.

Lemma Set_last_wins_witness :
  exists root1 root2,
    @Set_ examplePlatform ["Count"] (Some exampleRecord)
          (Some (reflect.GInt reflect.KInt 5))
    = Return (None, root1)
    /\ @Set_ examplePlatform ["Count"] (Some exampleRecord)
             (Some (reflect.GString "7"))
       = Return (None, root2)
    /\ @Set_ examplePlatform ["Count"] root1 (Some (reflect.GString "7"))
       = Return (None, root2).
Proof.
  do 2 eexists. split; [reflexivity|]. split; [reflexivity|].
  refine (proj1 (@Set_last_wins examplePlatform ["Count"] (Some exampleRecord)
                   {| reflect.data := reflect.GInt reflect.KInt8 0;
                      reflect.flagAddr := true; reflect.flagRO := false;
                      reflect.loc := [reflect.StepElem; reflect.StepField 2] |}
                   (Some (reflect.GInt reflect.KInt 5))
                   (Some (reflect.GString "7")) _ _ _ _) _ _);
    reflexivity.
Defined.


(* ================================================================= *)
(** ** What a [Set] leaves as it was *)

Section Frame.

Context {platform : Platform}.

Import reflect.

Lemma step_eqb_eq (a b : step) : step_eqb a b = true <-> a = b.
Proof.
  destruct a, b; cbn; try (split; [discriminate|congruence]).
  - tauto.
  - rewrite Nat.eqb_eq. split; congruence.
  - rewrite String.eqb_eq. split; congruence.
  - rewrite Nat.eqb_eq. split; congruence.
Qed.

Lemma step_eqb_refl (a : step) : step_eqb a a = true.
Proof. now apply step_eqb_eq. Qed.

(** Places that part in [s1 ++ s2] part in [s1] or after it. *)
Lemma apart_app (l s1 s2 : list step) :
  apart l (s1 ++ s2) = true ->
  apart l s1 = true \/ exists l2, l = s1 ++ l2 /\ apart l2 s2 = true.
Proof.
  revert l. induction s1 as [|b s1 IH]; intros l H.
  - right. now exists l.
  - destruct l as [|a l]; [discriminate|]. cbn in *.
    destruct (step_eqb a b) eqn:E; [|now left].
    apply step_eqb_eq in E. subst b.
    destruct (IH _ H) as [H1|(l2 & -> & H2)]; [now left|].
    right. now exists l2.
Qed.

Lemma apart_prefix (c l l' : list step) :
  apart (c ++ l) (c ++ l') = true -> apart l l' = true.
Proof.
  induction c as [|a c IH]; [trivial|].
  cbn. now rewrite step_eqb_refl.
Qed.

Lemma nth_error_updateNth_other {A : Type} (f : A -> A) (l : list A) (i j : nat) :
  i <> j -> nth_error (updateNth i f l) j = nth_error l j.
Proof.
  revert i j. induction l as [|x l IH]; intros [|i] [|j] H; cbn;
    try reflexivity; try congruence.
  apply IH. congruence.
Qed.

Lemma lookup_updateKey_other {A : Type} (f : A -> A) (l : list (string * A))
      (key key' : string) :
  key <> key' -> lookup key' (updateKey key f l) = lookup key' l.
Proof.
  intros H. induction l as [|[k x] l IH]; cbn; [reflexivity|].
  destruct (String.eqb k key) eqn:E; cbn.
  - apply String.eqb_eq in E. subst k.
    now replace (String.eqb key key') with false
      by (symmetry; now apply String.eqb_neq).
  - now rewrite IH.
Qed.

(** One step of the traversal in the document with [new] stored at a
    place apart from where the step leads: the step is the same. *)
Lemma getValue_valid_store_apart (new : value) (n : nat) :
  forall d addr ro at_ key w,
    elemDepth d <= n ->
    getValue_valid d addr ro at_ key = Return (Some w, None) ->
    exists steps,
      loc w = at_ ++ steps
      /\ forall l, apart l steps = true ->
                   getValue_valid (storeAt l new d) addr ro at_ key
                   = Return (Some w, None).
Proof.
  induction n as [|n IH]; intros d addr ro at_ key w Hdepth;
    destruct d as [| | | | | |t elems|t elems|kt t entries|name fields
                  |t [d'|]|nm m [d'|]|];
    cbn [elemDepth] in Hdepth; try lia;
    cbn [getValue_valid]; try discriminate.
  all: try (intros Hget; pose proof Hget as Hget0;
            apply IH in Hget as (steps & Hloc & Hst); [|lia];
            exists (StepElem :: steps);
            split; [rewrite Hloc, <- app_assoc; reflexivity|];
            intros [|[| | |] l] Hl; try discriminate Hl;
            try exact Hget0; cbn [apart step_eqb] in Hl;
            cbn [storeAt getValue_valid]; now apply Hst).
  all: try (destruct (strconv.Atoi key) as [i|] eqn:Ea; [|discriminate];
            unfold Len, Index; cbn [data flagAddr flagRO loc];
            destruct (_ <=? i)%Z eqn:El; [discriminate|];
            destruct (_ || _)%bool eqn:Eb; [discriminate|];
            destruct (nth_error elems (Z.to_nat i)) as [x|] eqn:En;
            [|discriminate];
            cbn [bind]; intros [= <-];
            exists [StepIndex (Z.to_nat i)]; split; [reflexivity|];
            intros [|[|j| |] l] Hl; try discriminate Hl;
            cbn [storeAt getValue_valid]; rewrite Ea;
            unfold Len, Index; cbn [data flagAddr flagRO loc];
            rewrite ?length_updateNth, El, Eb;
            [rewrite En; reflexivity| |rewrite En; reflexivity
             |rewrite En; reflexivity];
            cbn [apart step_eqb] in Hl;
            destruct (j =? Z.to_nat i)%nat eqn:Ej;
            [destruct l; discriminate Hl|];
            apply Nat.eqb_neq in Ej;
            rewrite (nth_error_updateNth_other _ _ _ _ Ej), En; reflexivity).
  all: try (unfold MapIndex; cbn [data flagAddr flagRO loc];
            destruct (negb (stringAssignableTo kt)) eqn:Ek; [discriminate|];
            destruct (lookup key entries) as [x|] eqn:El; [|discriminate];
            cbn [bind IsValid negb]; intros [= <-];
            exists [StepMapIndex key]; split; [reflexivity|];
            intros [|[| |k'|] l] Hl; try discriminate Hl;
            cbn [storeAt getValue_valid];
            unfold MapIndex; cbn [data flagAddr flagRO loc];
            rewrite Ek;
            [rewrite El; reflexivity|rewrite El; reflexivity|
            |rewrite El; reflexivity];
            cbn [apart step_eqb] in Hl;
            destruct (String.eqb k' key) eqn:Ej;
            [destruct l; discriminate Hl|];
            apply String.eqb_neq in Ej;
            rewrite (lookup_updateKey_other _ _ _ _ Ej), El; reflexivity).
  all: rewrite getValue_tags_tagIndex.
  all: unfold FieldByName, Field; cbn [data flagAddr flagRO loc].
  all: destruct (fieldIndex key 0 fields) as [i|] eqn:Ei.
  all: try (destruct (nth_error fields i) as [[f x]|] eqn:En; [|discriminate];
            cbn [bind IsValid]; intros [= <-];
            exists [StepField i]; split; [reflexivity|];
            intros [|[| | |j] l] Hl; try discriminate Hl;
            cbn [storeAt getValue_valid];
            unfold FieldByName, Field; cbn [data flagAddr flagRO loc];
            rewrite ?fieldIndex_updateNth, Ei;
            [rewrite En; reflexivity|rewrite En; reflexivity
            |rewrite En; reflexivity|];
            cbn [apart step_eqb] in Hl;
            destruct (j =? i)%nat eqn:Ej;
            [destruct l; discriminate Hl|];
            apply Nat.eqb_neq in Ej;
            rewrite (nth_error_updateNth_other _ _ _ _ Ej), En; reflexivity).
  all: cbn [bind IsValid];
    destruct (tagIndex key 0 fields) as [j0|] eqn:Et; [|discriminate];
    destruct (nth_error fields j0) as [[f x]|] eqn:En; [|discriminate];
    cbn [bind]; intros [= <-];
    exists [StepField j0]; split; [reflexivity|];
    intros [|[| | |j] l] Hl; try discriminate Hl;
    cbn [storeAt getValue_valid];
    rewrite getValue_tags_tagIndex;
    unfold FieldByName, Field; cbn [data flagAddr flagRO loc];
    rewrite ?fieldIndex_updateNth, Ei; cbn [bind IsValid];
    rewrite ?tagIndex_updateNth, Et;
    [rewrite En; reflexivity|rewrite En; reflexivity
    |rewrite En; reflexivity|];
    cbn [apart step_eqb] in Hl;
    destruct (j =? j0)%nat eqn:Ej;
    [destruct l; discriminate Hl|];
    apply Nat.eqb_neq in Ej;
    rewrite (nth_error_updateNth_other _ _ _ _ Ej), En; reflexivity.
Qed.


(** The traversal in the document with [new] stored at a place apart
    from where the traversal leads: it leads to the same [Value]. *)
Lemma getValues_store_apart (new : value) (q : Pointer) :
  forall v s',
    getValues (Some v) q = Return (Some s', None) ->
    exists steps,
      loc s' = loc v ++ steps
      /\ forall l, apart l steps = true ->
                   getValues (Some (withData v (storeAt l new (data v)))) q
                   = Return (Some s', None).
Proof.
  induction q as [|part q IH]; intros v s'; cbn [getValues].
  - intros [= <-]. exists []. split; [now rewrite app_nil_r|].
    intros [|a l]; discriminate.
  - destruct (getValue (Some v) part) as [[[w|] [e|]]|] eqn:Eg;
      cbn [bind]; try discriminate.
    2: { destruct q; cbn; discriminate. }
    intros Hrest. destruct (IH _ _ Hrest) as (steps2 & Hloc2 & Hst2).
    cbn [getValue] in Eg.
    destruct (getValue_valid_store_apart new _ _ _ _ _ _ _ (Nat.le_refl _) Eg)
      as (steps1 & Hloc1 & Hst1).
    exists (steps1 ++ steps2). split; [now rewrite Hloc2, Hloc1, app_assoc|].
    intros l Hl. cbn [getValue withData data flagAddr flagRO loc].
    destruct (apart_app _ _ _ Hl) as [H1|(l2 & -> & H2)].
    + rewrite (Hst1 _ H1). cbn [bind]. exact Hrest.
    + destruct (getValue_valid_store new l2 _ _ _ _ _ _ _ (Nat.le_refl _) Eg)
        as (steps1' & Hloc1' & Hget').
      assert (steps1' = steps1) as ->.
      { rewrite Hloc1 in Hloc1'. now apply app_inv_head in Hloc1'. }
      rewrite Hget'. cbn [bind]. now apply Hst2.
Qed.

Lemma ValueOf_at_store_apart (new : value) (n : nat) :
  forall r at_ v,
    elemDepth r <= n ->
    ValueOf_at at_ r = Some v ->
    exists steps,
      loc v = at_ ++ steps
      /\ (forall l, apart l steps = true ->
                    ValueOf_at at_ (storeAt l new r) = Some v)
      /\ (forall rest, rest <> [] ->
                       ValueOf_at at_ (storeAt (steps ++ rest) new r)
                       = Some (withData v (storeAt rest new (data v)))).
Proof.
  induction n as [|n IH]; intros r at_ v Hdepth;
    destruct r as [| | | | | | | | | |t [d'|]|nm m [d'|]|];
    cbn [elemDepth] in Hdepth; try lia; cbn [ValueOf_at]; try discriminate.
  all: try (intros Hv; pose proof Hv as Hv0;
            apply IH in Hv as (steps & Hloc & Hst & Hin); [|lia];
            exists (StepElem :: steps);
            split; [rewrite Hloc, <- app_assoc; reflexivity|];
            split;
            [intros [|[| | |] l] Hl; try discriminate Hl;
             try exact Hv0; cbn [apart step_eqb] in Hl;
             cbn [storeAt ValueOf_at]; now apply Hst
            |intros rest Hrest; cbn [app storeAt ValueOf_at];
             now apply Hin]).
  all: intros [= <-]; exists []; split; [now rewrite app_nil_r|];
    (split; [intros [|a l]; discriminate|]);
    intros [|st rest] Hrest; [congruence|];
    cbn [app data]; apply ValueOf_at_scalar;
    rewrite kindOf_storeAt; cbn; try discriminate;
    match goal with k : _ |- _ => now destruct k end.
Qed.

(** What a successful [setValue] stores, and where. *)
Lemma setValue_stores (slot : Value_) (v root root' : option value) :
  setValue (Some slot) v root = (None, root') ->
  exists d, root' = store slot d root.
Proof.
  unfold setValue.
  destruct (kindOf (data slot)) eqn:Ek.
  21: { unfold Elem.
        destruct (data slot) as [| | | | | | | | | | |nm m [d'|]|];
          try discriminate Ek; try (destruct k; discriminate Ek).
        - unfold CanSet. cbn. discriminate.
        - discriminate. }
  all: destruct (negb (CanSet slot)); [discriminate|].
  all: destruct (ValueOf v) as [srcVal|]; [|discriminate].
  all: generalize (indirect (Some srcVal)) as ind; intros ind.
  all: destruct (data slot); try (destruct (negb _));
    try discriminate; try (intros [= <-]; eauto).
  all: destruct ind as [[sd ? ? ?]|]; cbn [option_map data];
    [destruct sd|]; crunch_setValue.
  all: try discriminate; intros [= <-]; eauto.
Qed.

(** X28: [Set] changes only the slot it sets, in a document in which
    no two places share their storage: a pointer that leads to a
    place apart from that slot leads to the same value after a
    successful [Set] as before. *)
Theorem Set_changes_only_the_slot (p q : Pointer) (root : option value)
        (slot other : Value_) (v root' : option value) :
  getValues (ValueOf root) p = Return (Some slot, None) ->
  getValues (ValueOf root) q = Return (Some other, None) ->
  apart (loc slot) (loc other) = true ->
  Set_ p root v = Return (None, root') ->
  getValues (ValueOf root') q = Return (Some other, None)
  /\ Get q root' = Get q root.
Proof.
  intros Hp Hq Hapart HS. rewrite (Set_at_slot _ _ _ _ Hp) in HS.
  injection HS as HS. destruct (setValue_stores _ _ _ _ HS) as [d ->].
  assert (H : getValues (ValueOf (store slot d root)) q
              = Return (Some other, None)).
  { destruct root as [r|]; [|destruct q; cbn in Hq; discriminate].
    cbn [ValueOf] in Hq, Hp.
    destruct (ValueOf_at [] r) as [v0|] eqn:Ev;
      [|destruct q; cbn in Hq; discriminate].
    destruct (ValueOf_at_store_apart d _ r [] v0 (le_n _) Ev)
      as (steps0 & Hloc0 & _ & Hin0).
    destruct (getValues_store_apart d q _ _ Hq) as (stepsQ & HlocQ & HstQ).
    destruct (getValues_store d p _ _ Hp) as (stepsP & HlocP & _).
    rewrite HlocP, HlocQ in Hapart. apply apart_prefix in Hapart.
    unfold store. cbn [option_map ValueOf].
    rewrite HlocP, Hloc0. cbn [app]. rewrite Hin0.
    - now apply HstQ.
    - intros ->. discriminate. }
  split; [exact H|]. unfold Get. now rewrite H, Hq.
Qed.

End Frame.

Lemma Set_changes_only_the_slot_witness :
  exists root',
    @Set_ examplePlatform ["Name"] (Some exampleRecord)
          (Some (reflect.GInt reflect.KInt 42))
    = Return (None, root')
    /\ Get ["Count"] root' = Get ["Count"] (Some exampleRecord).
Proof.
  eexists. split; [reflexivity|].
  refine (proj2 (@Set_changes_only_the_slot examplePlatform ["Name"] ["Count"]
                   (Some exampleRecord) exampleSlot
                   {| reflect.data := reflect.GInt reflect.KInt8 0;
                      reflect.flagAddr := true; reflect.flagRO := false;
                      reflect.loc := [reflect.StepElem; reflect.StepField 2] |}
                   (Some (reflect.GInt reflect.KInt 42)) _ _ _ _ _));
    reflexivity.
Defined.


(* ================================================================= *)
(** ** [Get] on a document made by [json.Unmarshal] *)

Section JSONReading.

Import reflect.





End JSONReading.

